(** * Broken Links Cleaner: a shallow embedding of [main.ts]

    The plugin is regular-expression driven: the registry loader, the
    rewriter, the vault scanner and the orphan analyser all work by matching
    a handful of regular expressions against document text.  The development
    therefore starts with JavaScript strings and a small backtracking matcher
    for the fragment of regular expressions the plugin uses, states the
    plugin's regular expressions as data, and builds the plugin's functions
    on top of them.

    Strings are sequences of UTF-16 code units, a code unit is a number. *)

From Stdlib Require Import String Ascii.
From Stdlib Require Import List NArith Bool Arith Lia.
Import ListNotations.


(** ** JavaScript strings *)

Definition char := N.
Definition jstring := list char.

(** A string literal of the source, as code units. *)
Definition str (s : string) : jstring := map N_of_ascii (list_ascii_of_string s).
Arguments str _%_string.

Definition lbr : char := 91%N.    (* [ *)
Definition rbr : char := 93%N.    (* ] *)
Definition pipe : char := 124%N.  (* | *)
Definition dash : char := 45%N.   (* - *)
Definition hash : char := 35%N.   (* # *)
Definition nl : char := 10%N.     (* \n *)

Definition chr_eqb (a b : char) : bool := N.eqb a b.

Fixpoint jstring_eqb (a b : jstring) : bool :=
  match a, b with
  | [], [] => true
  | x :: a', y :: b' => chr_eqb x y && jstring_eqb a' b'
  | _, _ => false
  end.

(** The class [\s] of a regular expression without the [u] flag, which is
    also the set [String.prototype.trim] strips: WhiteSpace and
    LineTerminator of ECMAScript. *)
Definition is_space (c : char) : bool :=
  ((9 <=? c) && (c <=? 13) || (c =? 32) || (c =? 160) || (c =? 5760)
   || (8192 <=? c) && (c <=? 8202) || (c =? 8232) || (c =? 8233)
   || (c =? 8239) || (c =? 8287) || (c =? 12288) || (c =? 65279))%N.

Fixpoint take_while (p : char -> bool) (s : jstring) : jstring :=
  match s with
  | c :: s' => if p c then c :: take_while p s' else []
  | [] => []
  end.

Fixpoint drop_while (p : char -> bool) (s : jstring) : jstring :=
  match s with
  | c :: s' => if p c then drop_while p s' else s
  | [] => []
  end.

(** [s.trim()] *)
Definition trim_start (s : jstring) : jstring := drop_while is_space s.
Definition trim_end (s : jstring) : jstring := rev (drop_while is_space (rev s)).
Definition trim (s : jstring) : jstring := trim_end (trim_start s).

(** [s.startsWith(p)] *)
Fixpoint startsWith (p s : jstring) : bool :=
  match p, s with
  | [], _ => true
  | x :: p', y :: s' => chr_eqb x y && startsWith p' s'
  | _ :: _, [] => false
  end.

(** [s.includes(p)] *)
Fixpoint includes (p s : jstring) : bool :=
  startsWith p s || match s with [] => false | _ :: s' => includes p s' end.

(** [s.split(sep)] for a separator of one code unit: never empty. *)
Fixpoint split_on (sep : char) (s : jstring) : list jstring :=
  match s with
  | [] => [[]]
  | c :: s' =>
      if chr_eqb c sep then [] :: split_on sep s'
      else match split_on sep s' with
           | piece :: rest => (c :: piece) :: rest
           | [] => [[c]]
           end
  end.

(** [s.split(sep)[0]] *)
Definition split_first (sep : char) (s : jstring) : jstring :=
  hd [] (split_on sep s).

(** [s.slice(2, -2)] *)
Definition slice_2_m2 (s : jstring) : jstring :=
  firstn (length s - 2 - 2) (skipn 2 s).

(** [parts.join(sep)] *)
Fixpoint join (sep : jstring) (parts : list jstring) : jstring :=
  match parts with
  | [] => []
  | [p] => p
  | p :: rest => p ++ sep ++ join sep rest
  end.

(** The template literal [`[[${t}]]`]. *)
Definition bracket (t : jstring) : jstring := lbr :: lbr :: t ++ [rbr; rbr].

(** ** [Set<string>] and [Map<string, string[]>]

    Both keep insertion order, which the report and the preview show. *)

Definition JSSet := list jstring.

Definition set_has (K : JSSet) (k : jstring) : bool := existsb (jstring_eqb k) K.
Definition set_add (K : JSSet) (k : jstring) : JSSet :=
  if set_has K k then K else K ++ [k].
Definition set_size (K : JSSet) : nat := length K.

Definition JSMap := list (jstring * list jstring).

Fixpoint map_has (m : JSMap) (k : jstring) : bool :=
  match m with
  | [] => false
  | (k', _) :: m' => jstring_eqb k k' || map_has m' k
  end.

(** [if (!m.has(k)) m.set(k, [])] *)
Definition map_ensure (m : JSMap) (k : jstring) : JSMap :=
  if map_has m k then m else m ++ [(k, [])].

(** [m.get(k)?.push(v)] *)
Fixpoint map_push (m : JSMap) (k v : jstring) : JSMap :=
  match m with
  | [] => []
  | (k', vs) :: m' =>
      if jstring_eqb k k' then (k', vs ++ [v]) :: m'
      else (k', vs) :: map_push m' k v
  end.

(** ** Regular expressions

    The fragment the plugin uses: a sequence of single-character classes,
    each taken once or under a greedy [*] or [+], capture parentheses that
    do not nest, and the assertion [^].  [run] lists the ways the pattern
    matches at the head of the input, in the order a backtracking matcher
    tries them, so the first is the match JavaScript reports. *)

Inductive node : Type :=
| Chr (p : char -> bool)     (* one character of the class *)
| Star (p : char -> bool)    (* c*, greedy *)
| Plus (p : char -> bool)    (* c+, greedy *)
| Open                       (* ( *)
| Close                      (* ) *)
| Bol.                       (* ^ *)

Definition regex := list node.

Record mstate : Type := MState {
  whole : jstring;            (* the text matched so far *)
  cur : option jstring;       (* the open group, when there is one *)
  groups : list jstring       (* the closed groups, first to last *)
}.

Definition mstate0 : mstate := MState [] None [].

Definition push (c : char) (st : mstate) : mstate :=
  MState (whole st ++ [c])
         (match cur st with Some g => Some (g ++ [c]) | None => None end)
         (groups st).

Fixpoint star (p : char -> bool) (st : mstate) (s : jstring)
  : list (mstate * jstring) :=
  match s with
  | c :: s' => if p c then star p (push c st) s' ++ [(st, s)] else [(st, s)]
  | [] => [(st, [])]
  end.

Definition step (n : node) (bol : bool) (st : mstate) (s : jstring)
  : list (mstate * jstring) :=
  match n with
  | Chr p =>
      match s with
      | c :: s' => if p c then [(push c st, s')] else []
      | [] => []
      end
  | Star p => star p st s
  | Plus p =>
      match s with
      | c :: s' => if p c then star p (push c st) s' else []
      | [] => []
      end
  | Open => [(MState (whole st) (Some []) (groups st), s)]
  | Close =>
      match cur st with
      | Some g => [(MState (whole st) None (groups st ++ [g]), s)]
      | None => [(st, s)]
      end
  | Bol =>
      match whole st with
      | [] => if bol then [(st, s)] else []
      | _ :: _ => []
      end
  end.

Fixpoint run (re : regex) (bol : bool) (st : mstate) (s : jstring)
  : list (mstate * jstring) :=
  match re with
  | [] => [(st, s)]
  | n :: re' =>
      flat_map (fun r => run re' bol (fst r) (snd r)) (step n bol st s)
  end.

(** A match result: [m[0]] and the capture groups [m[1]], [m[2]], ... *)
Record rmatch : Type := RMatch {
  matched : jstring;
  captures : list jstring
}.

Definition capture (i : nat) (m : rmatch) : jstring := nth (i - 1) (captures m) [].

(** The match of [re] that starts at the head of [s], with the input left
    after it; [bol] says whether the head of [s] is index 0 of the string. *)
Definition exec_at (re : regex) (bol : bool) (s : jstring)
  : option (rmatch * jstring) :=
  match run re bol mstate0 s with
  | (st, rest) :: _ => Some (RMatch (whole st) (groups st), rest)
  | [] => None
  end.

(** [s.match(re)] for a regular expression without the [g] flag: the
    leftmost match, [None] for [null]. *)
Fixpoint search (re : regex) (bol : bool) (s : jstring) : option rmatch :=
  match exec_at re bol s with
  | Some (m, _) => Some m
  | None =>
      match s with
      | [] => None
      | _ :: s' => search re false s'
      end
  end.

Definition str_match (re : regex) (s : jstring) : option rmatch := search re true s.

(** With the [g] flag the input is cut into the matches, found left to right
    from where the last one ended, and the characters between them.  After
    an empty match the scan moves on by one character. *)
Inductive segment : Type :=
| Gap (c : char)
| Hit (m : rmatch).

Fixpoint segments_fuel (n : nat) (re : regex) (bol : bool) (s : jstring)
  : list segment :=
  match n with
  | O => []
  | S n' =>
      let skip :=
        match s with
        | [] => []
        | c :: s' => Gap c :: segments_fuel n' re false s'
        end in
      match exec_at re bol s with
      | Some (m, rest) =>
          match matched m with
          | [] => Hit m :: skip
          | _ :: _ => Hit m :: segments_fuel n' re false rest
          end
      | None => skip
      end
  end.

Definition segments (re : regex) (s : jstring) : list segment :=
  segments_fuel (S (length s)) re true s.

Definition hits (segs : list segment) : list rmatch :=
  flat_map (fun g => match g with Hit m => [m] | Gap _ => [] end) segs.

(** [s.match(re)] with the [g] flag: the matched substrings; the empty list
    stands for [null]. *)
Definition match_all (re : regex) (s : jstring) : list jstring :=
  map matched (hits (segments re s)).

(** [s.replace(re, f)] with the [g] flag and a replacer function. *)
Definition replace_all (re : regex) (f : rmatch -> jstring) (s : jstring) : jstring :=
  flat_map (fun g => match g with Hit m => f m | Gap c => [c] end) (segments re s).

(** *** The plugin's regular expressions *)

Definition lit (c : char) : char -> bool := chr_eqb c.
Definition not_rbr (c : char) : bool := negb (chr_eqb c rbr).
Definition not_rbr_pipe (c : char) : bool :=
  negb (chr_eqb c rbr) && negb (chr_eqb c pipe).
Definition space_or_dash (c : char) : bool := is_space c || chr_eqb c dash.

(** [/\[\[([^\]|]+)\|([^\]]+)\]\]/g] *)
Definition aliasRegex : regex :=
  [Chr (lit lbr); Chr (lit lbr); Open; Plus not_rbr_pipe; Close; Chr (lit pipe);
   Open; Plus not_rbr; Close; Chr (lit rbr); Chr (lit rbr)].

(** [/\[\[([^\]]+)\]\]/g], and without the flag in the earlier loader *)
Definition linkRegex : regex :=
  [Chr (lit lbr); Chr (lit lbr); Open; Plus not_rbr; Close; Chr (lit rbr); Chr (lit rbr)].

(** [/^[\s-]*(\[\[[^\]]+\]\])/] *)
Definition listRegex : regex :=
  [Bol; Star space_or_dash; Open; Chr (lit lbr); Chr (lit lbr); Plus not_rbr;
   Chr (lit rbr); Chr (lit rbr); Close].

(** [/^[\s-]*(\[\[[^\]]+\]\])\s+in\s+\[\[/] *)
Definition reportFormatRegex : regex :=
  [Bol; Star space_or_dash; Open; Chr (lit lbr); Chr (lit lbr); Plus not_rbr;
   Chr (lit rbr); Chr (lit rbr); Close; Plus is_space; Chr (lit 105%N);
   Chr (lit 110%N); Plus is_space; Chr (lit lbr); Chr (lit lbr)].

(** ** The vault

    The host application is reached through a narrow interface: list the
    Markdown files, look a path up, read a file, write a file, resolve a
    link.  Reads and writes can fail; a failed call throws.  The vault
    records the paths written, in order, so that a write that stores the
    content already there is still seen. *)

Record TFile : Type := mkFile {
  path : jstring;
  name : jstring;       (* the last component of the path *)
  basename : jstring    (* the name without its extension *)
}.

Inductive TAbstractFile : Type :=
| AFile (f : TFile)
| AFolder (p : jstring).

Record Vault : Type := mkVault {
  docs : list (TFile * jstring);   (* the Markdown files and their content *)
  folders : list jstring;
  written : list jstring;          (* the paths written, oldest first *)
  read_fails : jstring -> bool;    (* reading this path throws *)
  write_fails : jstring -> bool    (* writing this path throws *)
}.

(** A computation on the vault: [None] is a thrown exception. *)
Definition IO (A : Type) : Type := Vault -> option A * Vault.

Definition ret {A} (a : A) : IO A := fun v => (Some a, v).
Definition throw {A} : IO A := fun v => (None, v).
Definition bind {A B} (c : IO A) (k : A -> IO B) : IO B :=
  fun v => match c v with
           | (Some a, v') => k a v'
           | (None, v') => (None, v')
           end.
(** [try { c } catch (error) { h }] *)
Definition try_catch {A} (c : IO A) (h : IO A) : IO A :=
  fun v => match c v with
           | (Some a, v') => (Some a, v')
           | (None, v') => h v'
           end.

Declare Scope io_scope.
Delimit Scope io_scope with io.
Notation "x <- c ;; k" := (bind c (fun x => k))
  (at level 100, c at next level, right associativity) : io_scope.
Notation "c ;;; k" := (bind c (fun _ => k))
  (at level 100, right associativity) : io_scope.
Local Open Scope io_scope.

(** [for (const x of xs) { acc = body(acc, x) }] *)
Fixpoint for_of {A S} (xs : list A) (body : S -> A -> IO S) (acc : S) : IO S :=
  match xs with
  | [] => ret acc
  | x :: xs' => acc' <- body acc x ;; for_of xs' body acc'
  end.

Fixpoint lookup_doc (p : jstring) (ds : list (TFile * jstring)) : option (TFile * jstring) :=
  match ds with
  | [] => None
  | (f, c) :: ds' => if jstring_eqb p (path f) then Some (f, c) else lookup_doc p ds'
  end.

Fixpoint store_doc (p : jstring) (c : jstring) (ds : list (TFile * jstring))
  : list (TFile * jstring) :=
  match ds with
  | [] => []
  | (f, c0) :: ds' =>
      if jstring_eqb p (path f) then (f, c) :: ds' else (f, c0) :: store_doc p c ds'
  end.

(** [app.vault.getMarkdownFiles()] *)
Definition getMarkdownFiles : IO (list TFile) :=
  fun v => (Some (map fst (docs v)), v).

(** [app.vault.getAbstractFileByPath(p)] *)
Definition getAbstractFileByPath (p : jstring) : IO (option TAbstractFile) :=
  fun v => match lookup_doc p (docs v) with
           | Some (f, _) => (Some (Some (AFile f)), v)
           | None =>
               if existsb (jstring_eqb p) (folders v)
               then (Some (Some (AFolder p)), v)
               else (Some None, v)
           end.

(** [app.vault.read(file)] *)
Definition vault_read (f : TFile) : IO jstring :=
  fun v => if read_fails v (path f) then throw v
           else match lookup_doc (path f) (docs v) with
                | Some (_, c) => (Some c, v)
                | None => throw v
                end.

(** [app.vault.modify(file, data)] *)
Definition vault_modify (f : TFile) (data : jstring) : IO unit :=
  fun v => if write_fails v (path f) then throw v
           else match lookup_doc (path f) (docs v) with
                | Some _ =>
                    (Some tt, mkVault (store_doc (path f) data (docs v)) (folders v)
                                      (written v ++ [path f])
                                      (read_fails v) (write_fails v))
                | None => throw v
                end.

(** The file a path names: the name follows the last [/], the basename
    stops before the last [.] of the name. *)
Definition slash : char := 47%N.
Definition dot : char := 46%N.
Definition name_of_path (p : jstring) : jstring := last (split_on slash p) [].
Definition basename_of_name (n : jstring) : jstring :=
  match split_on dot n with
  | [_] => n
  | parts => join [dot] (removelast parts)
  end.
Definition file_of_path (p : jstring) : TFile :=
  mkFile p (name_of_path p) (basename_of_name (name_of_path p)).

(** [app.vault.create(p, data)]: throws when the path is taken. *)
Definition vault_create (p : jstring) (data : jstring) : IO unit :=
  fun v => if write_fails v p then throw v
           else match lookup_doc p (docs v) with
                | Some _ => throw v
                | None =>
                    if existsb (jstring_eqb p) (folders v) then throw v
                    else (Some tt, mkVault (docs v ++ [(file_of_path p, data)]) (folders v)
                                           (written v ++ [p])
                                           (read_fails v) (write_fails v))
                end.

(** ** The plugin *)

Record BrokenLinksCleanerSettings : Type := mkSettings {
  brokenLinksFile : jstring;
  deleteText : bool
}.

Definition DEFAULT_SETTINGS : BrokenLinksCleanerSettings :=
  mkSettings (str "broken links output.md") false.

(** [`${n}`] for a number that counts *)
Fixpoint uint_chars (d : Decimal.uint) : jstring :=
  match d with
  | Decimal.Nil => []
  | Decimal.D0 d' => 48%N :: uint_chars d'
  | Decimal.D1 d' => 49%N :: uint_chars d'
  | Decimal.D2 d' => 50%N :: uint_chars d'
  | Decimal.D3 d' => 51%N :: uint_chars d'
  | Decimal.D4 d' => 52%N :: uint_chars d'
  | Decimal.D5 d' => 53%N :: uint_chars d'
  | Decimal.D6 d' => 54%N :: uint_chars d'
  | Decimal.D7 d' => 55%N :: uint_chars d'
  | Decimal.D8 d' => 56%N :: uint_chars d'
  | Decimal.D9 d' => 57%N :: uint_chars d'
  end.
Definition show_nat (n : nat) : jstring := uint_chars (Nat.to_uint n).

(** *** The registry loader, [loadBrokenLinks] (lines 98-136)

    [lineKey] is the body of the loop over the lines: the key the line adds
    to the set, if it adds one. *)
Definition lineKey (line : jstring) : option jstring :=
  if startsWith [hash] (trim line) || (length (trim line) =? 0) then None
  else
    match str_match reportFormatRegex line with
    | Some reportMatch => Some (capture 1 reportMatch)
    | None =>
        match str_match listRegex line with
        | Some listMatch => Some (capture 1 listMatch)
        | None => None
        end
    end.

Definition addLine (key : jstring -> option jstring) (acc : JSSet) (line : jstring) : JSSet :=
  match key line with
  | Some k => set_add acc k
  | None => acc
  end.

Definition parseLines (key : jstring -> option jstring) (content : jstring) : JSSet :=
  fold_left (addLine key) (split_on nl content) [].

Definition loadWith (key : jstring -> option jstring)
    (settings : BrokenLinksCleanerSettings) : IO JSSet :=
  file <- getAbstractFileByPath (brokenLinksFile settings) ;;
  match file with
  | Some (AFile f) =>
      content <- vault_read f ;;
      ret (parseLines key content)
  | _ => ret []
  end.

Definition loadBrokenLinks := loadWith lineKey.

(** *** The loader of the earlier revision (lines 661-697)

    No line is skipped, and a line that is not a list item still gives its
    first link when it does not contain [" in "]. *)
Definition lineKey_legacy (line : jstring) : option jstring :=
  match str_match listRegex line with
  | Some listMatch => Some (capture 1 listMatch)
  | None =>
      match str_match linkRegex line with
      | Some firstLink =>
          if negb (includes (str " in ") line)
          then Some (bracket (capture 1 firstLink))
          else None
      | None => None
      end
  end.

Definition loadBrokenLinks_legacy := loadWith lineKey_legacy.

(** *** The rewriter, [cleanBrokenWikilinks] (lines 138-158) *)

Definition aliasReplacer (deleteText : bool) (brokenLinks : JSSet) (m : rmatch) : jstring :=
  if set_has brokenLinks (bracket (capture 1 m))
  then (if deleteText then [] else capture 2 m)
  else matched m.

Definition plainReplacer (deleteText : bool) (brokenLinks : JSSet) (m : rmatch) : jstring :=
  if set_has brokenLinks (matched m)
  then (if deleteText then [] else capture 1 m)
  else matched m.

Definition aliasPass (deleteText : bool) (brokenLinks : JSSet) (text : jstring) : jstring :=
  replace_all aliasRegex (aliasReplacer deleteText brokenLinks) text.

Definition plainPass (deleteText : bool) (brokenLinks : JSSet) (text : jstring) : jstring :=
  replace_all linkRegex (plainReplacer deleteText brokenLinks) text.

Definition cleanBrokenWikilinks (settings : BrokenLinksCleanerSettings)
    (text : jstring) (brokenLinks : JSSet) : jstring :=
  plainPass (deleteText settings) brokenLinks
    (aliasPass (deleteText settings) brokenLinks text).

(** The rewriter with the comparison [content !== cleanedContent] that
    [cleanFile] makes of its result (line 165): the new text, and whether it
    differs from the old. *)
Definition clean (text : jstring) (brokenKeys : JSSet) (deleteCompletely : bool)
  : jstring * bool :=
  let out := cleanBrokenWikilinks (mkSettings [] deleteCompletely) text brokenKeys in
  (out, negb (jstring_eqb text out)).

(** *** [cleanFile] (lines 160-174) and [cleanAllFiles] (lines 200-220) *)

Definition cleanFile (settings : BrokenLinksCleanerSettings)
    (file : TFile) (brokenLinks : JSSet) : IO bool :=
  try_catch
    (content <- vault_read file ;;
     let cleanedContent := cleanBrokenWikilinks settings content brokenLinks in
     if negb (jstring_eqb content cleanedContent)
     then (vault_modify file cleanedContent ;;; ret true)
     else ret false)
    (ret false).

(** The loop of [cleanAllFiles] over the files: the count of cleaned files. *)
Definition cleanEach (settings : BrokenLinksCleanerSettings)
    (brokenLinks : JSSet) (files : list TFile) : IO nat :=
  for_of files
    (fun cleanedCount file =>
       cleaned <- cleanFile settings file brokenLinks ;;
       ret (if cleaned then S cleanedCount else cleanedCount))
    0.

(** The result is what the closing notice shows, the cleaned count and the
    number of files; [None] when no key was loaded and nothing was done. *)
Definition cleanAllFiles (settings : BrokenLinksCleanerSettings) : IO (option (nat * nat)) :=
  brokenLinks <- loadBrokenLinks settings ;;
  if set_size brokenLinks =? 0 then ret None
  else
    files <- getMarkdownFiles ;;
    cleanedCount <- cleanEach settings brokenLinks files ;;
    ret (Some (cleanedCount, length files)).

(** *** [findOrphanFiles] (lines 226-263)

    [getFirstLinkpathDest] is the host's link resolver. *)
Definition Resolver : Type := jstring -> jstring -> option TFile.

Definition recordLink (getFirstLinkpathDest : Resolver) (file : TFile)
    (allLinks : JSMap) (link : jstring) : JSMap :=
  let linkText := split_first pipe (slice_2_m2 link) in
  match getFirstLinkpathDest linkText (path file) with
  | Some targetFile =>
      map_push (map_ensure allLinks (path targetFile)) (path targetFile) (path file)
  | None => allLinks
  end.

Definition incomingLinks (getFirstLinkpathDest : Resolver) (files : list TFile) : IO JSMap :=
  for_of files
    (fun allLinks file =>
       content <- vault_read file ;;
       ret (fold_left (recordLink getFirstLinkpathDest file)
                      (match_all linkRegex content) allLinks))
    [].

(** The result is the list [orphanFiles]. *)
Definition findOrphanFiles (getFirstLinkpathDest : Resolver) : IO (list TFile) :=
  files <- getMarkdownFiles ;;
  allLinks <- incomingLinks getFirstLinkpathDest files ;;
  ret (filter (fun file => negb (map_has allLinks (path file))) files).

(** *** [scanAndGenerateBrokenLinks] (lines 285-355) *)

Definition existingFilesOf (files : list TFile) : JSSet :=
  fold_left (fun acc file => set_add (set_add (set_add acc (basename file)) (path file)) (name file))
            files [].

(** The text the scan looks up and reports for a link. *)
Definition scanLinkText (link : jstring) : jstring :=
  trim (split_first pipe (slice_2_m2 link)).

Definition checkLink (getFirstLinkpathDest : Resolver) (existingFiles : JSSet)
    (file : TFile) (acc : JSMap * nat) (link : jstring) : JSMap * nat :=
  let '(brokenLinksMap, totalLinksChecked) := acc in
  let linkText := scanLinkText link in
  let targetFile := getFirstLinkpathDest linkText (path file) in
  let existsAsBasename := set_has existingFiles linkText in
  let existsAsPath := set_has existingFiles (linkText ++ str ".md") in
  match targetFile with
  | None =>
      if negb existsAsBasename && negb existsAsPath
      then
        let brokenLink := bracket linkText in
        (map_push (map_ensure brokenLinksMap brokenLink) brokenLink (path file),
         S totalLinksChecked)
      else (brokenLinksMap, S totalLinksChecked)
  | Some _ => (brokenLinksMap, S totalLinksChecked)
  end.

(** The scan of all files: the broken links with the files they are in, and
    the number of links checked. *)
Definition scanFiles (getFirstLinkpathDest : Resolver) (files : list TFile) : IO (JSMap * nat) :=
  let existingFiles := existingFilesOf files in
  for_of files
    (fun acc file =>
       content <- vault_read file ;;
       ret (fold_left (checkLink getFirstLinkpathDest existingFiles file)
                      (match_all linkRegex content) acc))
    ([], 0).

Definition reportLine (entry : jstring * list jstring) : jstring :=
  str "- " ++ fst entry ++ str " in " ++ join (str ", ") (map bracket (snd entry)) ++ [nl].

(** [now] is [new Date().toLocaleString()]. *)
Definition reportContent (now : jstring) (brokenLinksMap : JSMap) (totalLinksChecked : nat)
  : jstring :=
  str "# Broken links report" ++ [nl; nl]
  ++ str "Generated: " ++ now ++ [nl]
  ++ str "Total broken links: " ++ show_nat (length brokenLinksMap) ++ [nl]
  ++ str "Total links checked: " ++ show_nat totalLinksChecked ++ [nl; nl]
  ++ str "## Broken links:" ++ [nl; nl]
  ++ flat_map reportLine brokenLinksMap.

Definition scanAndGenerateBrokenLinks (settings : BrokenLinksCleanerSettings)
    (getFirstLinkpathDest : Resolver) (now : jstring) : IO unit :=
  files <- getMarkdownFiles ;;
  found <- scanFiles getFirstLinkpathDest files ;;
  let '(brokenLinksMap, totalLinksChecked) := found in
  if length brokenLinksMap =? 0 then ret tt
  else
    let content := reportContent now brokenLinksMap totalLinksChecked in
    let fileName := brokenLinksFile settings in
    existingFile <- getAbstractFileByPath fileName ;;
    match existingFile with
    | Some (AFile f) => vault_modify f content
    | _ => vault_create fileName content
    end.

(** *** [cleanCurrentFile] (lines 176-198)

    [file] is the file of the active view, [None] for [null].  The result
    is what the closing notice says, whether the file was cleaned; [None]
    when the command stops before it cleans. *)
Definition cleanCurrentFile (settings : BrokenLinksCleanerSettings)
    (file : option TFile) : IO (option bool) :=
  match file with
  | None => ret None
  | Some file =>
      brokenLinks <- loadBrokenLinks settings ;;
      if set_size brokenLinks =? 0 then ret None
      else
        cleaned <- cleanFile settings file brokenLinks ;;
        ret (Some cleaned)
  end.

(** *** [findEmptyFiles] (lines 265-283)

    The result is the list [emptyFiles]. *)
Definition findEmptyFiles : IO (list TFile) :=
  files <- getMarkdownFiles ;;
  for_of files
    (fun emptyFiles file =>
       content <- vault_read file ;;
       let trimmedContent := trim content in
       ret (if length trimmedContent =? 0 then emptyFiles ++ [file] else emptyFiles))
    [].

(** *** [saveToFile] of the two result windows (lines 436-450 and 493-507)

    [now] is [new Date().toLocaleString()], [iso] is
    [new Date().toISOString()].  The result is the name of the file saved. *)

(** [`- [[${f.basename}]] (${f.path})`] *)
Definition fileLine (f : TFile) : jstring :=
  str "- " ++ bracket (basename f) ++ str " (" ++ path f ++ str ")".

Definition orphanReportContent (now : jstring) (files : list TFile) : jstring :=
  str "# Orphan files report" ++ [nl; nl]
  ++ str "Generated: " ++ now ++ [nl]
  ++ str "Total: " ++ show_nat (length files) ++ str " files" ++ [nl; nl]
  ++ str "## Files with no incoming links:" ++ [nl; nl]
  ++ join [nl] (map fileLine files).

Definition emptyReportContent (now : jstring) (files : list TFile) : jstring :=
  str "# Empty files report" ++ [nl; nl]
  ++ str "Generated: " ++ now ++ [nl]
  ++ str "Total: " ++ show_nat (length files) ++ str " files" ++ [nl; nl]
  ++ str "## Empty files:" ++ [nl; nl]
  ++ join [nl] (map fileLine files).

(** [iso.split('T')[0]] *)
Definition isoDate (iso : jstring) : jstring := split_first 84%N iso.

Definition OrphanFilesModal_saveToFile (files : list TFile) (now iso : jstring)
  : IO jstring :=
  let content := orphanReportContent now files in
  let fileName := str "Orphan files report " ++ isoDate iso ++ str ".md" in
  existingFile <- getAbstractFileByPath fileName ;;
  (match existingFile with
   | Some (AFile f) => vault_modify f content
   | _ => vault_create fileName content
   end) ;;;
  ret fileName.

Definition EmptyFilesModal_saveToFile (files : list TFile) (now iso : jstring)
  : IO jstring :=
  let content := emptyReportContent now files in
  let fileName := str "Empty files report " ++ isoDate iso ++ str ".md" in
  existingFile <- getAbstractFileByPath fileName ;;
  (match existingFile with
   | Some (AFile f) => vault_modify f content
   | _ => vault_create fileName content
   end) ;;;
  ret fileName.

(** [saveToFile] of the orphan window in the earlier revision (lines
    998-1005): the file is created, never overwritten. *)
Definition orphanReportContent_legacy (now : jstring) (files : list TFile) : jstring :=
  str "# Orphan Files Report" ++ [nl; nl]
  ++ str "Generated: " ++ now ++ [nl]
  ++ str "Total: " ++ show_nat (length files) ++ str " files" ++ [nl; nl]
  ++ str "## Files with no incoming links:" ++ [nl; nl]
  ++ join [nl] (map fileLine files).

Definition OrphanFilesModal_saveToFile_legacy (files : list TFile) (now iso : jstring)
  : IO jstring :=
  let content := orphanReportContent_legacy now files in
  let fileName := str "Orphan Files Report " ++ isoDate iso ++ str ".md" in
  vault_create fileName content ;;;
  ret fileName.

(** ** Definitions used to state and prove the properties *)

(** *** The matcher *)

(** The matcher state after the characters of [t] were taken in turn. *)
Definition push_all (t : jstring) (st : mstate) : mstate :=
  MState (whole st ++ t)
         (match cur st with Some g => Some (g ++ t) | None => None end)
         (groups st).

(** A matcher without backtracking: a starred class takes all it can.  It
    agrees with [run] on the patterns where what follows a starred class
    cannot start with a character of the class, which [det] says. *)
Definition step_det (n : node) (bol : bool) (st : mstate) (s : jstring)
  : option (mstate * jstring) :=
  match n with
  | Chr p =>
      match s with
      | c :: s' => if p c then Some (push c st, s') else None
      | [] => None
      end
  | Star p => Some (push_all (take_while p s) st, drop_while p s)
  | Plus p =>
      match s with
      | c :: s' =>
          if p c then Some (push_all (c :: take_while p s') st, drop_while p s')
          else None
      | [] => None
      end
  | Open => Some (MState (whole st) (Some []) (groups st), s)
  | Close =>
      match cur st with
      | Some g => Some (MState (whole st) None (groups st ++ [g]), s)
      | None => Some (st, s)
      end
  | Bol =>
      match whole st with
      | [] => if bol then Some (st, s) else None
      | _ :: _ => None
      end
  end.

Fixpoint run_det (re : regex) (bol : bool) (st : mstate) (s : jstring)
  : option (mstate * jstring) :=
  match re with
  | [] => Some (st, s)
  | n :: re' =>
      match step_det n bol st s with
      | Some (st', s') => run_det re' bol st' s'
      | None => None
      end
  end.

(** [re] cannot match an input that starts with a character of [p]. *)
Fixpoint rejects (re : regex) (p : char -> bool) : Prop :=
  match re with
  | Chr q :: _ => forall c, p c = true -> q c = false
  | Plus q :: _ => forall c, p c = true -> q c = false
  | Open :: re' => rejects re' p
  | Close :: re' => rejects re' p
  | _ => False
  end.

Fixpoint det (re : regex) : Prop :=
  match re with
  | [] => True
  | Star p :: re' => rejects re' p /\ det re'
  | Plus p :: re' => rejects re' p /\ det re'
  | _ :: re' => det re'
  end.

Fixpoint no_bol (re : regex) : Prop :=
  match re with
  | [] => True
  | Bol :: _ => False
  | _ :: re' => no_bol re'
  end.

(** One step of the matcher without backtracking, on a pattern of the plugin. *)
Ltac run_step :=
  cbn [run_det step_det push push_all cur whole groups mstate0
       linkRegex aliasRegex listRegex reportFormatRegex fst snd app].

(** *** Matches of a text *)

(** The text of the input a segment stands for. *)
Definition raw (g : segment) : jstring :=
  match g with
  | Gap c => [c]
  | Hit m => matched m
  end.

(** The cut of a text from a place that need not be its start. *)
Definition segments_from (re : regex) (bol : bool) (s : jstring) : list segment :=
  segments_fuel (S (length s)) re bol s.

(** *** The rewriter *)

(** A text where [[[] only opens links that do not nest: characters other
    than [[], a single [[] with a character other than [[] after it, and
    links [[[body]]] with a body that is not empty and free of brackets.
    [P] holds of the body of every link. *)
Inductive shaped (P : jstring -> Prop) : jstring -> Prop :=
| shaped_nil : shaped P []
| shaped_chr (c : char) (s : jstring) :
    c <> lbr -> shaped P s -> shaped P (c :: s)
| shaped_lbr (c : char) (s : jstring) :
    c <> lbr -> shaped P s -> shaped P (lbr :: c :: s)
| shaped_link (body s : jstring) :
    body <> [] -> Forall (fun c => c <> lbr /\ c <> rbr) body -> P body ->
    shaped P s -> shaped P (bracket body ++ s).

Definition simple_text : jstring -> Prop := shaped (fun _ => True).

(** The alias pass leaves a link with this body as it is. *)
Definition alias_kept (K : JSSet) (body : jstring) : Prop :=
  forall a b, body = a ++ pipe :: b -> a <> [] -> ~ In pipe a -> b <> [] ->
              set_has K (bracket a) = false.

(** The plain pass leaves a link with this body as it is. *)
Definition plain_kept (K : JSSet) (body : jstring) : Prop :=
  set_has K (bracket body) = false.

(** The matches each pass of the rewriter hands to its replacer. *)
Definition alias_matches (text : jstring) : list rmatch := hits (segments aliasRegex text).
Definition link_matches (text : jstring) : list rmatch := hits (segments linkRegex text).

(** *** The loader *)


(** *** Cleaning files and finding orphans *)

(** What a whole-vault clean leaves of a document: its content as it was
    when reading or writing it fails, its cleaned content otherwise. *)
Definition after_clean (settings : BrokenLinksCleanerSettings) (K : JSSet)
    (rf wf : jstring -> bool) (d : TFile * jstring) : TFile * jstring :=
  (fst d,
   if rf (path (fst d)) || wf (path (fst d)) then snd d
   else cleanBrokenWikilinks settings (snd d) K).

Definition paths_of (ds : list (TFile * jstring)) : list jstring :=
  map (fun d => path (fst d)) ds.

(** The link [link] of the file [file] resolves to the path [p]. *)
Definition targets (getFirstLinkpathDest : Resolver) (file : TFile)
    (link : jstring) (p : jstring) : bool :=
  match getFirstLinkpathDest (split_first pipe (slice_2_m2 link)) (path file) with
  | Some targetFile => jstring_eqb p (path targetFile)
  | None => false
  end.

(** Some link of some document resolves to the path [p]. *)
Definition is_target (getFirstLinkpathDest : Resolver)
    (ds : list (TFile * jstring)) (p : jstring) : bool :=
  existsb (fun d => existsb (fun link => targets getFirstLinkpathDest (fst d) link p)
                            (match_all linkRegex (snd d)))
          ds.

(** *** Small vaults to run the plugin on *)

Definition never : jstring -> bool := fun _ => false.

Definition note (p : string) : TFile := file_of_path (str p).

(** One note with a link that resolves by name and an alias link. *)
Definition vault_home : Vault :=
  mkVault [(note "Home.md", str "see [[Home]] and [[a|b]]")] [] [] never never.

(** Three notes with the same broken link and the registry that lists it;
    reading [a.md] fails and writing [b.md] fails. *)
Definition vault_faulty : Vault :=
  mkVault [(note "a.md", str "[[Foo]] a");
           (note "b.md", str "[[Foo]] b");
           (note "c.md", str "[[Foo]] c");
           (note "broken links output.md", str "- [[Foo]]")]
          [] []
          (fun p => jstring_eqb p (str "a.md"))
          (fun p => jstring_eqb p (str "b.md")).

(** One note whose only link has blanks around its target, in a vault
    where nothing resolves. *)
Definition vault_padded : Vault :=
  mkVault [(note "Home.md", str "see [[ Foo ]]")] [] [] never never.

Definition no_target : Resolver := fun _ _ => None.

Definition a_date : jstring := str "11/3/2026, 10:00:00 AM".

(** A note that links to itself only, and a note without links; the
    resolver knows the note [A]. *)
Definition vault_self : Vault :=
  mkVault [(note "A.md", str "[[A]]"); (note "C.md", str "no links")] [] [] never never.

Definition resolve_A : Resolver :=
  fun linkText _ => if jstring_eqb linkText (str "A") then Some (note "A.md") else None.

(** *** The rest of the plugin *)

(** [out] is [text] with some of its characters left out. *)
Inductive subseq : jstring -> jstring -> Prop :=
| subseq_nil : subseq [] []
| subseq_keep (c : char) (out text : jstring) :
    subseq out text -> subseq (c :: out) (c :: text)
| subseq_drop (c : char) (out text : jstring) :
    subseq out text -> subseq out (c :: text).

(** [x] is the basename, the path or the name of one of the files. *)
Definition names_file (files : list TFile) (x : jstring) : Prop :=
  exists f, In f files /\ (x = basename f \/ x = path f \/ x = name f).

(** The scan counts the link [link] of the file [file] as broken: the
    resolver finds nothing, and neither the text of the link nor the text
    with [.md] after it is among the names of the files. *)
Definition broken_at (getFirstLinkpathDest : Resolver) (existingFiles : JSSet)
    (file : TFile) (link : jstring) : bool :=
  match getFirstLinkpathDest (scanLinkText link) (path file) with
  | None =>
      negb (set_has existingFiles (scanLinkText link))
      && negb (set_has existingFiles (scanLinkText link ++ str ".md"))
  | Some _ => false
  end.

(** [cleanFile] will clean the file: the file can be read, its cleaned
    content differs from its content, and it can be written. *)
Definition would_clean (settings : BrokenLinksCleanerSettings) (K : JSSet)
    (v : Vault) (file : TFile) : bool :=
  negb (read_fails v (path file))
  && match lookup_doc (path file) (docs v) with
     | Some (_, content) =>
         negb (jstring_eqb content (cleanBrokenWikilinks settings content K))
         && negb (write_fails v (path file))
     | None => false
     end.

(** The map lists the path [p] under the key [k]. *)
Definition listed (m : JSMap) (k p : jstring) : Prop :=
  exists ps, In (k, ps) m /\ In p ps.

(** What the scan keeps true of its map and its count: a key is there
    once, with a path or more, and the paths are no more than the links
    counted. *)
Definition scan_inv (m : JSMap) (n : nat) : Prop :=
  NoDup (map fst m)
  /\ (forall k ps, In (k, ps) m -> ps <> [])
  /\ list_sum (map (fun e => length (snd e)) m) <= n.

(** The report up to its list. *)
Definition reportHeader (now : jstring) (size totalLinksChecked : nat) : jstring :=
  str "# Broken links report" ++ [nl; nl]
  ++ str "Generated: " ++ now ++ [nl]
  ++ str "Total broken links: " ++ show_nat size ++ [nl]
  ++ str "Total links checked: " ++ show_nat totalLinksChecked ++ [nl; nl]
  ++ str "## Broken links:" ++ [nl; nl].

(** A name without brackets, [|] or a line end. *)
Definition plain_name (s : jstring) : Prop :=
  ~ In lbr s /\ ~ In rbr s /\ ~ In pipe s /\ ~ In nl s.

(** A map of plain names: every key is [[[t]]] for a plain name [t] that is
    not empty, and every path is a plain name that is not empty. *)
Definition plain_report (m : JSMap) : Prop :=
  forall k ps,
    In (k, ps) m ->
    (exists t, k = bracket t /\ t <> [] /\ plain_name t)
    /\ forall p, In p ps -> p <> [] /\ plain_name p.

(** The body of a link that the scan and the rewriter read alike: a target
    without blanks around it and without a line end, alone or with a display
    text after a [|], neither of them empty. *)
Definition tidy_target (body : jstring) : Prop :=
  (~ In pipe body /\ trim body = body /\ ~ In nl body)
  \/ (exists a b,
         body = a ++ pipe :: b /\ a <> [] /\ ~ In pipe a /\ trim a = a
         /\ ~ In nl a /\ b <> []).

(** The links of the documents, counted. *)
Definition count_links (ds : list (TFile * jstring)) : nat :=
  list_sum (map (fun d => length (match_all linkRegex (snd d))) ds).

(** A blank note, a note with text, and a note of blanks and line ends. *)
Definition vault_blank : Vault :=
  mkVault [(note "a.md", []); (note "b.md", str " x "); (note "c.md", 32%N :: nl :: 9%N :: [])]
          [] [] never never.

(** Two notes that link to a note that does not exist, one of them twice,
    and a link that resolves by name. *)
Definition vault_two : Vault :=
  mkVault [(note "a.md", str "[[Foo]] and [[Foo|f]] and [[b]]");
           (note "b.md", str "[[ Foo ]]")]
          [] [] never never.

(** Two notes of tidy links: a broken link, plain and with a display text,
    a link that resolves by name, and another broken link. *)
Definition vault_tidy : Vault :=
  mkVault [(note "a.md", str "[[Foo]] and [[Foo|f]] and [[b]]");
           (note "b.md", str "see [[Bar]]")]
          [] [] never never.

(** A resolver that knows the notes [A] and [C]. *)
Definition resolve_AC : Resolver :=
  fun linkText _ =>
    if jstring_eqb linkText (str "A") then Some (note "A.md")
    else if jstring_eqb linkText (str "C") then Some (note "C.md")
    else None.

(** ** Strings *)

Lemma chr_eqb_eq (a b : char) : chr_eqb a b = true <-> a = b.
Proof. apply N.eqb_eq. Qed.

Lemma chr_eqb_neq (a b : char) : chr_eqb a b = false <-> a <> b.
Proof. apply N.eqb_neq. Qed.

Lemma chr_eqb_refl (a : char) : chr_eqb a a = true.
Proof. apply N.eqb_refl. Qed.

Lemma jstring_eqb_eq (a b : jstring) : jstring_eqb a b = true <-> a = b.
Proof.
  revert b; induction a as [|x a IH]; intros [|y b]; simpl; split;
    try congruence; try reflexivity.
  - intros H. apply andb_prop in H as [Hx Ha].
    apply chr_eqb_eq in Hx. apply IH in Ha. congruence.
  - intros H. injection H as -> ->. rewrite chr_eqb_refl. simpl. now apply IH.
Qed.

Lemma jstring_eqb_refl (a : jstring) : jstring_eqb a a = true.
Proof. now apply jstring_eqb_eq. Qed.

Lemma jstring_eqb_neq (a b : jstring) : jstring_eqb a b = false <-> a <> b.
Proof.
  split.
  - intros H E. apply jstring_eqb_eq in E. congruence.
  - intros H. destruct (jstring_eqb a b) eqn:E; [|reflexivity].
    apply jstring_eqb_eq in E. contradiction.
Qed.

Lemma take_drop_while (p : char -> bool) (s : jstring) :
  take_while p s ++ drop_while p s = s.
Proof.
  induction s as [|c s IH]; simpl; [reflexivity|].
  destruct (p c); simpl; [now rewrite IH | reflexivity].
Qed.

Lemma take_while_all (p : char -> bool) (s : jstring) :
  Forall (fun c => p c = true) (take_while p s).
Proof.
  induction s as [|c s IH]; simpl; [constructor|].
  destruct (p c) eqn:E; [now constructor | constructor].
Qed.

Lemma drop_while_head (p : char -> bool) (s : jstring) (c : char) (s' : jstring) :
  drop_while p s = c :: s' -> p c = false.
Proof.
  induction s as [|x s IH]; simpl; [discriminate|].
  destruct (p x) eqn:E; [exact IH|]. intros H. injection H as -> _. exact E.
Qed.

Lemma take_while_app_stop (p : char -> bool) (u : jstring) (c : char) (x : jstring) :
  Forall (fun a => p a = true) u -> p c = false ->
  take_while p (u ++ c :: x) = u.
Proof.
  intros Hu Hc. induction Hu as [|a u Ha _ IH]; simpl.
  - now rewrite Hc.
  - now rewrite Ha, IH.
Qed.

Lemma drop_while_app_stop (p : char -> bool) (u : jstring) (c : char) (x : jstring) :
  Forall (fun a => p a = true) u -> p c = false ->
  drop_while p (u ++ c :: x) = c :: x.
Proof.
  intros Hu Hc. induction Hu as [|a u Ha _ IH]; simpl.
  - now rewrite Hc.
  - now rewrite Ha, IH.
Qed.

Lemma take_while_all_id (p : char -> bool) (u : jstring) :
  Forall (fun a => p a = true) u -> take_while p u = u /\ drop_while p u = [].
Proof.
  intros Hu. induction Hu as [|a u Ha _ [IH1 IH2]]; simpl; [easy|].
  now rewrite Ha, IH1, IH2.
Qed.

(** ** The matcher *)

Lemma push_all_nil (st : mstate) : push_all [] st = st.
Proof.
  destruct st as [w [g|] gs]; unfold push_all; simpl; now rewrite ?app_nil_r.
Qed.

Lemma push_all_push (c : char) (t : jstring) (st : mstate) :
  push_all t (push c st) = push_all (c :: t) st.
Proof.
  destruct st as [w [g|] gs]; unfold push_all, push; simpl;
    now rewrite <- ?app_assoc.
Qed.

Lemma push_is_push_all (c : char) (st : mstate) : push c st = push_all [c] st.
Proof. reflexivity. Qed.

(** Everything a match consumes is at the head of the input. *)
Lemma star_whole (p : char -> bool) (s : jstring) (st : mstate) (r : mstate * jstring) :
  In r (star p st s) -> whole (fst r) ++ snd r = whole st ++ s.
Proof.
  revert st; induction s as [|c s IH]; intros st; simpl.
  - intros [<-|[]]; reflexivity.
  - destruct (p c).
    + intros H. apply in_app_or in H as [H|[<-|[]]]; [|reflexivity].
      apply IH in H. rewrite H. simpl. now rewrite <- app_assoc.
    + intros [<-|[]]; reflexivity.
Qed.

Lemma step_whole (n : node) (bol : bool) (st : mstate) (s : jstring) (r : mstate * jstring) :
  In r (step n bol st s) -> whole (fst r) ++ snd r = whole st ++ s.
Proof.
  destruct n; simpl.
  - destruct s as [|c s]; [intros []|]. destruct (p c); [|intros []].
    intros [<-|[]]. simpl. now rewrite <- app_assoc.
  - apply star_whole.
  - destruct s as [|c s]; [intros []|]. destruct (p c); [|intros []].
    intros H. apply star_whole in H. rewrite H. simpl. now rewrite <- app_assoc.
  - intros [<-|[]]; reflexivity.
  - destruct (cur st); intros [<-|[]]; reflexivity.
  - destruct (whole st) eqn:E; [|intros []]. destruct bol; [|intros []].
    intros [<-|[]]. simpl. now rewrite E.
Qed.

Lemma run_whole (re : regex) (bol : bool) (st : mstate) (s : jstring) (r : mstate * jstring) :
  In r (run re bol st s) -> whole (fst r) ++ snd r = whole st ++ s.
Proof.
  revert st s; induction re as [|n re IH]; intros st s; simpl.
  - intros [<-|[]]; reflexivity.
  - intros H. apply in_flat_map in H as [[st1 s1] [H1 H2]].
    apply IH in H2. apply step_whole in H1. simpl in *. congruence.
Qed.

Lemma exec_at_split (re : regex) (bol : bool) (s : jstring) (m : rmatch) (rest : jstring) :
  exec_at re bol s = Some (m, rest) -> s = matched m ++ rest.
Proof.
  unfold exec_at. destruct (run re bol mstate0 s) as [|[st r] l] eqn:E; [discriminate|].
  intros H. injection H as <- <-. simpl.
  assert (In (st, r) (run re bol mstate0 s)) as Hin by (rewrite E; now left).
  apply run_whole in Hin. simpl in Hin. now symmetry.
Qed.

(** Without backtracking on the patterns that need none. *)
Lemma flat_map_star_det {R} (p : char -> bool) (k : mstate * jstring -> list R) :
  (forall st c s, p c = true -> k (st, c :: s) = []) ->
  forall s st,
    flat_map k (star p st s) = k (push_all (take_while p s) st, drop_while p s).
Proof.
  intros Hk. induction s as [|c s IH]; intros st; simpl.
  - now rewrite push_all_nil, app_nil_r.
  - destruct (p c) eqn:E; simpl.
    + rewrite flat_map_app, IH, push_all_push. simpl.
      rewrite Hk by exact E. now rewrite !app_nil_r.
    + now rewrite push_all_nil, app_nil_r.
Qed.

Lemma rejects_run (re : regex) (p : char -> bool) (bol : bool) :
  rejects re p ->
  forall st c s, p c = true -> run re bol st (c :: s) = [].
Proof.
  induction re as [|n re IH]; simpl; [intros []|].
  destruct n; try (intros []); intros H st c s Hc; simpl.
  - now rewrite (H c Hc).
  - now rewrite (H c Hc).
  - rewrite app_nil_r. now apply IH.
  - destruct (cur st); simpl; rewrite app_nil_r; now apply IH.
Qed.

Lemma run_det_ok (re : regex) (bol : bool) :
  det re ->
  forall st s,
    run re bol st s =
    match run_det re bol st s with Some r => [r] | None => [] end.
Proof.
  induction re as [|n re IH]; simpl; [reflexivity|].
  destruct n; intros H st s; simpl.
  - destruct s as [|c s]; [reflexivity|]. destruct (p c); [|reflexivity].
    simpl. rewrite app_nil_r. now apply IH.
  - destruct H as [Hr Hd].
    rewrite (flat_map_star_det p (fun r => run re bol (fst r) (snd r))).
    + simpl. now apply IH.
    + intros st' c s' Hc. simpl. now apply rejects_run with (p := p).
  - destruct H as [Hr Hd].
    destruct s as [|c s]; [reflexivity|]. destruct (p c); [|reflexivity].
    rewrite (flat_map_star_det p (fun r => run re bol (fst r) (snd r))).
    + simpl. rewrite push_all_push. now apply IH.
    + intros st' c' s' Hc. simpl. now apply rejects_run with (p := p).
  - rewrite app_nil_r. now apply IH.
  - destruct (cur st); simpl; rewrite app_nil_r; now apply IH.
  - destruct (whole st); [|reflexivity]. destruct bol; [|reflexivity].
    simpl. rewrite app_nil_r. now apply IH.
Qed.

Lemma exec_at_det (re : regex) (bol : bool) (s : jstring) :
  det re ->
  exec_at re bol s =
  match run_det re bol mstate0 s with
  | Some (st, rest) => Some (RMatch (whole st) (groups st), rest)
  | None => None
  end.
Proof.
  intros H. unfold exec_at. rewrite (run_det_ok re bol H).
  destruct (run_det re bol mstate0 s) as [[st rest]|]; reflexivity.
Qed.

Lemma run_no_bol (re : regex) (b1 b2 : bool) :
  no_bol re -> forall st s, run re b1 st s = run re b2 st s.
Proof.
  induction re as [|n re IH]; simpl; [reflexivity|].
  destruct n; intros H st s; try contradiction; cbn [run step];
    apply flat_map_ext; intros r; now apply IH.
Qed.

Lemma exec_at_no_bol (re : regex) (b1 b2 : bool) (s : jstring) :
  no_bol re -> exec_at re b1 s = exec_at re b2 s.
Proof. intros H. unfold exec_at. now rewrite (run_no_bol re b1 b2 H). Qed.

(** ** The plugin's patterns need no backtracking *)

Lemma not_rbr_true (c : char) : not_rbr c = true <-> c <> rbr.
Proof.
  unfold not_rbr. rewrite negb_true_iff. apply chr_eqb_neq.
Qed.

Lemma not_rbr_pipe_true (c : char) :
  not_rbr_pipe c = true <-> c <> rbr /\ c <> pipe.
Proof.
  unfold not_rbr_pipe. rewrite andb_true_iff, !negb_true_iff.
  now rewrite !chr_eqb_neq.
Qed.

Lemma lit_true (a c : char) : lit a c = true <-> c = a.
Proof. unfold lit. rewrite chr_eqb_eq. split; congruence. Qed.

Lemma lit_false (a c : char) : lit a c = false <-> c <> a.
Proof. unfold lit. rewrite chr_eqb_neq. split; congruence. Qed.

Lemma space_or_dash_not_lbr (c : char) : space_or_dash c = true -> lit lbr c = false.
Proof.
  intros H. apply lit_false. intros ->. discriminate H.
Qed.

Lemma is_space_not_lbr (c : char) : is_space c = true -> lit lbr c = false.
Proof.
  intros H. apply lit_false. intros ->. discriminate H.
Qed.

Lemma is_space_not_i (c : char) : is_space c = true -> lit 105%N c = false.
Proof.
  intros H. apply lit_false. intros ->. discriminate H.
Qed.

Lemma not_rbr_not_lit (c : char) : not_rbr c = true -> lit rbr c = false.
Proof. intros H. apply lit_false. now apply not_rbr_true. Qed.

Lemma not_rbr_pipe_not_lit (c : char) : not_rbr_pipe c = true -> lit pipe c = false.
Proof. intros H. apply lit_false. now apply not_rbr_pipe_true in H. Qed.

Lemma aliasRegex_det : det aliasRegex.
Proof.
  unfold aliasRegex. cbn [det rejects].
  repeat split; intros c Hc;
    auto using not_rbr_not_lit, not_rbr_pipe_not_lit, space_or_dash_not_lbr,
      is_space_not_lbr, is_space_not_i.
Qed.

Lemma linkRegex_det : det linkRegex.
Proof.
  unfold linkRegex. cbn [det rejects].
  repeat split; intros c Hc;
    auto using not_rbr_not_lit, not_rbr_pipe_not_lit, space_or_dash_not_lbr,
      is_space_not_lbr, is_space_not_i.
Qed.

Lemma listRegex_det : det listRegex.
Proof.
  unfold listRegex. cbn [det rejects].
  repeat split; intros c Hc;
    auto using not_rbr_not_lit, not_rbr_pipe_not_lit, space_or_dash_not_lbr,
      is_space_not_lbr, is_space_not_i.
Qed.

Lemma reportFormatRegex_det : det reportFormatRegex.
Proof.
  unfold reportFormatRegex. cbn [det rejects].
  repeat split; intros c Hc;
    auto using not_rbr_not_lit, not_rbr_pipe_not_lit, space_or_dash_not_lbr,
      is_space_not_lbr, is_space_not_i.
Qed.

Lemma aliasRegex_no_bol : no_bol aliasRegex.
Proof. exact I. Qed.

Lemma linkRegex_no_bol : no_bol linkRegex.
Proof. exact I. Qed.

Lemma bracket_app (body rest : jstring) :
  bracket body ++ rest = lbr :: lbr :: body ++ rbr :: rbr :: rest.
Proof. unfold bracket. simpl. now rewrite <- app_assoc. Qed.

(** *** What the link pattern matches *)

Lemma lit_refl (a : char) : lit a a = true.
Proof. now apply lit_true. Qed.

Lemma link_exec (bol : bool) (body rest : jstring) :
  body <> [] -> Forall (fun c => not_rbr c = true) body ->
  exec_at linkRegex bol (bracket body ++ rest)
  = Some (RMatch (bracket body) [body], rest).
Proof.
  intros Hne Hb. rewrite (exec_at_det _ _ _ linkRegex_det), bracket_app.
  destruct body as [|c body]; [contradiction|].
  inversion Hb as [|? ? Hc Hb']; subst.
  run_step. rewrite ?lit_refl. run_step. rewrite Hc.
  rewrite (take_while_app_stop _ _ _ _ Hb' (eq_refl : not_rbr rbr = false)).
  rewrite (drop_while_app_stop _ _ _ _ Hb' (eq_refl : not_rbr rbr = false)).
  run_step. rewrite ?lit_refl. run_step. rewrite ?lit_refl.
  unfold bracket. simpl. now rewrite <- !app_assoc.
Qed.

Lemma link_inv (bol : bool) (s : jstring) (m : rmatch) (rest : jstring) :
  exec_at linkRegex bol s = Some (m, rest) ->
  exists body,
    body <> [] /\ Forall (fun c => not_rbr c = true) body
    /\ s = bracket body ++ rest /\ m = RMatch (bracket body) [body].
Proof.
  rewrite (exec_at_det _ _ _ linkRegex_det).
  destruct s as [|c1 s]; run_step; [discriminate|].
  destruct (lit lbr c1) eqn:E1; [|discriminate].
  destruct s as [|c2 s]; run_step; [discriminate|].
  destruct (lit lbr c2) eqn:E2; [|discriminate].
  destruct s as [|c3 s]; run_step; [discriminate|].
  destruct (not_rbr c3) eqn:E3; [|discriminate]. run_step.
  destruct (drop_while not_rbr s) as [|c4 s4] eqn:Ed; run_step; [discriminate|].
  destruct (lit rbr c4) eqn:E4; [|discriminate].
  destruct s4 as [|c5 r]; run_step; [discriminate|].
  destruct (lit rbr c5) eqn:E5; [|discriminate].
  intros H. injection H as <- <-.
  apply lit_true in E1, E2, E4, E5. subst.
  exists (c3 :: take_while not_rbr s). repeat split.
  - discriminate.
  - constructor; [exact E3 | apply take_while_all].
  - rewrite bracket_app. simpl. rewrite <- Ed. now rewrite take_drop_while.
  - unfold bracket. simpl. now rewrite <- !app_assoc.
Qed.

Lemma link_none_head (bol : bool) (c : char) (s : jstring) :
  c <> lbr -> exec_at linkRegex bol (c :: s) = None.
Proof.
  intros Hc. destruct (exec_at linkRegex bol (c :: s)) as [[m rest]|] eqn:E;
    [|reflexivity].
  apply link_inv in E as (body & _ & _ & E & _).
  rewrite bracket_app in E. congruence.
Qed.

Lemma link_none_second (c1 c2 : char) (s : jstring) :
  c2 <> lbr -> exec_at linkRegex false (c1 :: c2 :: s) = None.
Proof.
  intros Hc. destruct (exec_at linkRegex false (c1 :: c2 :: s)) as [[m rest]|] eqn:E;
    [|reflexivity].
  apply link_inv in E as (body & _ & _ & E & _).
  rewrite bracket_app in E. congruence.
Qed.

Lemma link_none_no_rbr (bol : bool) (s : jstring) :
  Forall (fun c => not_rbr c = true) s -> exec_at linkRegex bol s = None.
Proof.
  intros Hs. destruct (exec_at linkRegex bol s) as [[m rest]|] eqn:E;
    [|reflexivity].
  apply link_inv in E as (body & _ & _ & E & _). subst s.
  rewrite bracket_app in Hs.
  rewrite Forall_forall in Hs. specialize (Hs rbr).
  assert (not_rbr rbr = true) as H; [|discriminate H].
  apply Hs. right. right. apply in_or_app. right. now left.
Qed.

(** *** What the alias pattern matches *)

Lemma alias_exec (bol : bool) (a b rest : jstring) :
  a <> [] -> Forall (fun c => not_rbr_pipe c = true) a ->
  b <> [] -> Forall (fun c => not_rbr c = true) b ->
  exec_at aliasRegex bol (bracket (a ++ pipe :: b) ++ rest)
  = Some (RMatch (bracket (a ++ pipe :: b)) [a; b], rest).
Proof.
  intros Ha Han Hb Hbn. rewrite (exec_at_det _ _ _ aliasRegex_det), bracket_app.
  destruct a as [|x a]; [contradiction|]. destruct b as [|y b]; [contradiction|].
  inversion Han as [|? ? Hx Han']; inversion Hbn as [|? ? Hy Hbn']; subst.
  rewrite <- !app_assoc.
  run_step. rewrite ?lit_refl. run_step. rewrite Hx.
  rewrite (take_while_app_stop _ _ _ _ Han' (eq_refl : not_rbr_pipe pipe = false)).
  rewrite (drop_while_app_stop _ _ _ _ Han' (eq_refl : not_rbr_pipe pipe = false)).
  run_step. rewrite ?lit_refl. run_step. rewrite Hy.
  rewrite (take_while_app_stop _ _ _ _ Hbn' (eq_refl : not_rbr rbr = false)).
  rewrite (drop_while_app_stop _ _ _ _ Hbn' (eq_refl : not_rbr rbr = false)).
  run_step. rewrite ?lit_refl. run_step. rewrite ?lit_refl.
  unfold bracket. simpl. now rewrite <- !app_assoc.
Qed.

Lemma alias_inv (bol : bool) (s : jstring) (m : rmatch) (rest : jstring) :
  exec_at aliasRegex bol s = Some (m, rest) ->
  exists a b,
    a <> [] /\ Forall (fun c => not_rbr_pipe c = true) a
    /\ b <> [] /\ Forall (fun c => not_rbr c = true) b
    /\ s = bracket (a ++ pipe :: b) ++ rest
    /\ m = RMatch (bracket (a ++ pipe :: b)) [a; b].
Proof.
  rewrite (exec_at_det _ _ _ aliasRegex_det).
  destruct s as [|c1 s]; run_step; [discriminate|].
  destruct (lit lbr c1) eqn:E1; [|discriminate].
  destruct s as [|c2 s]; run_step; [discriminate|].
  destruct (lit lbr c2) eqn:E2; [|discriminate].
  destruct s as [|c3 s]; run_step; [discriminate|].
  destruct (not_rbr_pipe c3) eqn:E3; [|discriminate]. run_step.
  destruct (drop_while not_rbr_pipe s) as [|c4 s4] eqn:Ed; run_step; [discriminate|].
  destruct (lit pipe c4) eqn:E4; [|discriminate].
  destruct s4 as [|c5 s2]; run_step; [discriminate|].
  destruct (not_rbr c5) eqn:E5; [|discriminate]. run_step.
  destruct (drop_while not_rbr s2) as [|c6 s6] eqn:Ed2; run_step; [discriminate|].
  destruct (lit rbr c6) eqn:E6; [|discriminate].
  destruct s6 as [|c7 r]; run_step; [discriminate|].
  destruct (lit rbr c7) eqn:E7; [|discriminate].
  intros H. injection H as <- <-.
  apply lit_true in E1, E2, E4, E6, E7. subst.
  exists (c3 :: take_while not_rbr_pipe s), (c5 :: take_while not_rbr s2).
  repeat split; try discriminate.
  - constructor; [exact E3 | apply take_while_all].
  - constructor; [exact E5 | apply take_while_all].
  - rewrite bracket_app. simpl. rewrite <- !app_assoc. simpl.
    rewrite <- Ed2, take_drop_while, <- Ed. now rewrite take_drop_while.
  - unfold bracket. simpl. now rewrite <- !app_assoc.
Qed.

(** *** What the two line patterns of the loader match *)

Lemma split_unique (p : char -> bool) (u u' : jstring) (c c' : char) (x x' : jstring) :
  Forall (fun a => p a = true) u -> p c = false ->
  Forall (fun a => p a = true) u' -> p c' = false ->
  u ++ c :: x = u' ++ c' :: x' -> u = u' /\ c = c' /\ x = x'.
Proof.
  intros Hu Hc Hu' Hc' E.
  assert (u = u') as ->.
  { rewrite <- (take_while_app_stop p u c x Hu Hc).
    rewrite <- (take_while_app_stop p u' c' x' Hu' Hc'). now rewrite E. }
  apply app_inv_head in E. injection E as -> ->. auto.
Qed.

Lemma bracket_unique (body body' rest rest' : jstring) :
  Forall (fun c => not_rbr c = true) body ->
  Forall (fun c => not_rbr c = true) body' ->
  bracket body ++ rest = bracket body' ++ rest' -> body = body' /\ rest = rest'.
Proof.
  intros Hb Hb' E. rewrite !bracket_app in E. injection E as E.
  apply (split_unique not_rbr) in E as (-> & _ & E); auto.
  injection E as ->. auto.
Qed.

Lemma list_exec (ws body rest : jstring) :
  Forall (fun c => space_or_dash c = true) ws ->
  body <> [] -> Forall (fun c => not_rbr c = true) body ->
  exec_at listRegex true (ws ++ bracket body ++ rest)
  = Some (RMatch (ws ++ bracket body) [bracket body], rest).
Proof.
  intros Hws Hne Hb. rewrite (exec_at_det _ _ _ listRegex_det), bracket_app.
  destruct body as [|c body]; [contradiction|].
  inversion Hb as [|? ? Hc Hb']; subst.
  run_step.
  rewrite (take_while_app_stop _ _ _ _ Hws (eq_refl : space_or_dash lbr = false)).
  rewrite (drop_while_app_stop _ _ _ _ Hws (eq_refl : space_or_dash lbr = false)).
  run_step. rewrite ?lit_refl. run_step. rewrite Hc.
  rewrite (take_while_app_stop _ _ _ _ Hb' (eq_refl : not_rbr rbr = false)).
  rewrite (drop_while_app_stop _ _ _ _ Hb' (eq_refl : not_rbr rbr = false)).
  run_step. rewrite ?lit_refl. run_step. rewrite ?lit_refl.
  unfold bracket. simpl. now rewrite <- !app_assoc.
Qed.

Lemma list_inv (s : jstring) (m : rmatch) (rest : jstring) :
  exec_at listRegex true s = Some (m, rest) ->
  exists ws body,
    Forall (fun c => space_or_dash c = true) ws
    /\ body <> [] /\ Forall (fun c => not_rbr c = true) body
    /\ s = ws ++ bracket body ++ rest
    /\ m = RMatch (ws ++ bracket body) [bracket body].
Proof.
  rewrite (exec_at_det _ _ _ listRegex_det). run_step.
  destruct (drop_while space_or_dash s) as [|c1 s1] eqn:Ew; run_step; [discriminate|].
  destruct (lit lbr c1) eqn:E1; [|discriminate].
  destruct s1 as [|c2 s2]; run_step; [discriminate|].
  destruct (lit lbr c2) eqn:E2; [|discriminate].
  destruct s2 as [|c3 s3]; run_step; [discriminate|].
  destruct (not_rbr c3) eqn:E3; [|discriminate]. run_step.
  destruct (drop_while not_rbr s3) as [|c4 s4] eqn:Ed; run_step; [discriminate|].
  destruct (lit rbr c4) eqn:E4; [|discriminate].
  destruct s4 as [|c5 r]; run_step; [discriminate|].
  destruct (lit rbr c5) eqn:E5; [|discriminate].
  intros H. injection H as <- <-.
  apply lit_true in E1, E2, E4, E5. subst.
  exists (take_while space_or_dash s), (c3 :: take_while not_rbr s3).
  repeat split.
  - apply take_while_all.
  - discriminate.
  - constructor; [exact E3 | apply take_while_all].
  - rewrite bracket_app. simpl. rewrite <- Ed, take_drop_while, <- Ew.
    now rewrite take_drop_while.
  - unfold bracket. simpl. now rewrite <- !app_assoc.
Qed.

Lemma report_inv (s : jstring) (m : rmatch) (rest : jstring) :
  exec_at reportFormatRegex true s = Some (m, rest) ->
  exists ws body rest',
    Forall (fun c => space_or_dash c = true) ws
    /\ body <> [] /\ Forall (fun c => not_rbr c = true) body
    /\ s = ws ++ bracket body ++ rest'
    /\ captures m = [bracket body].
Proof.
  rewrite (exec_at_det _ _ _ reportFormatRegex_det). run_step.
  destruct (drop_while space_or_dash s) as [|c1 s1] eqn:Ew; run_step; [discriminate|].
  destruct (lit lbr c1) eqn:E1; [|discriminate].
  destruct s1 as [|c2 s2]; run_step; [discriminate|].
  destruct (lit lbr c2) eqn:E2; [|discriminate].
  destruct s2 as [|c3 s3]; run_step; [discriminate|].
  destruct (not_rbr c3) eqn:E3; [|discriminate]. run_step.
  destruct (drop_while not_rbr s3) as [|c4 s4] eqn:Ed; run_step; [discriminate|].
  destruct (lit rbr c4) eqn:E4; [|discriminate].
  destruct s4 as [|c5 s5]; run_step; [discriminate|].
  destruct (lit rbr c5) eqn:E5; [|discriminate]. run_step.
  destruct s5 as [|c6 s6]; run_step; [discriminate|].
  destruct (is_space c6); [|discriminate]. run_step.
  destruct (drop_while is_space s6) as [|c7 s7]; run_step; [discriminate|].
  destruct (lit 105%N c7); [|discriminate].
  destruct s7 as [|c8 s8]; run_step; [discriminate|].
  destruct (lit 110%N c8); [|discriminate].
  destruct s8 as [|c9 s9]; run_step; [discriminate|].
  destruct (is_space c9); [|discriminate]. run_step.
  destruct (drop_while is_space s9) as [|c10 s10]; run_step; [discriminate|].
  destruct (lit lbr c10); [|discriminate].
  destruct s10 as [|c11 s11]; run_step; [discriminate|].
  destruct (lit lbr c11); [|discriminate].
  intros H. injection H as <- <-.
  apply lit_true in E1, E2, E4, E5. subst.
  exists (take_while space_or_dash s), (c3 :: take_while not_rbr s3), (c6 :: s6).
  repeat split.
  - apply take_while_all.
  - discriminate.
  - constructor; [exact E3 | apply take_while_all].
  - rewrite bracket_app. simpl. rewrite <- Ed, take_drop_while, <- Ew.
    now rewrite take_drop_while.
  - unfold bracket. simpl. now rewrite <- !app_assoc.
Qed.

Lemma list_anchored (s : jstring) : exec_at listRegex false s = None.
Proof. now rewrite (exec_at_det _ _ _ listRegex_det). Qed.

Lemma report_anchored (s : jstring) : exec_at reportFormatRegex false s = None.
Proof. now rewrite (exec_at_det _ _ _ reportFormatRegex_det). Qed.

(** *** The leftmost match *)

Lemma search_anchored (re : regex) (s : jstring) :
  (forall t, exec_at re false t = None) ->
  str_match re s = option_map fst (exec_at re true s).
Proof.
  intros Hre. unfold str_match.
  destruct s as [|c s]; simpl.
  - destruct (exec_at re true []) as [[m r]|]; reflexivity.
  - destruct (exec_at re true (c :: s)) as [[m r]|]; [reflexivity|].
    simpl. clear c. induction s as [|c s IH]; simpl; rewrite Hre; auto.
Qed.

Lemma search_inv (re : regex) (bol : bool) (s : jstring) (m : rmatch) :
  search re bol s = Some m ->
  exists pre suffix rest b,
    s = pre ++ suffix /\ exec_at re b suffix = Some (m, rest).
Proof.
  revert bol. induction s as [|c s IH]; intros bol; simpl.
  - destruct (exec_at re bol []) as [[m' r]|] eqn:E; [|discriminate].
    intros H. injection H as ->. now exists [], [], r, bol.
  - destruct (exec_at re bol (c :: s)) as [[m' r]|] eqn:E.
    + intros H. injection H as ->. now exists [], (c :: s), r, bol.
    + intros H. apply IH in H as (pre & suffix & rest & b & -> & H).
      now exists (c :: pre), suffix, rest, b.
Qed.

(** The leftmost link of a text that starts with characters other than
    [[[], then has a link. *)
Lemma search_link_first (bol : bool) (ws body rest : jstring) :
  Forall (fun c => c <> lbr) ws ->
  body <> [] -> Forall (fun c => not_rbr c = true) body ->
  search linkRegex bol (ws ++ bracket body ++ rest)
  = Some (RMatch (bracket body) [body]).
Proof.
  intros Hws Hne Hb. revert bol.
  induction Hws as [|c ws Hc _ IH]; intros bol.
  - assert (exec_at linkRegex bol (bracket body ++ rest)
            = Some (RMatch (bracket body) [body], rest)) as E
      by now apply link_exec.
    rewrite app_nil_l, bracket_app in *. cbn [search]. now rewrite E.
  - rewrite <- app_comm_cons. cbn [search].
    rewrite (link_none_head bol c _ Hc). apply IH.
Qed.

(** ** Cutting a text into matches *)

Lemma segments_fuel_enough (re : regex) (n m : nat) :
  forall bol s, length s < n -> length s < m ->
  segments_fuel n re bol s = segments_fuel m re bol s.
Proof.
  revert m. induction n as [|n IH]; intros m bol s Hn Hm; [lia|].
  destruct m as [|m]; [lia|]. cbn [segments_fuel].
  assert (match s with
          | [] => []
          | c :: s' => Gap c :: segments_fuel n re false s'
          end
          = match s with
            | [] => []
            | c :: s' => Gap c :: segments_fuel m re false s'
            end) as Hskip.
  { destruct s as [|c s']; [reflexivity|]. simpl in Hn, Hm.
    f_equal. apply IH; lia. }
  rewrite Hskip.
  destruct (exec_at re bol s) as [[mt rest]|] eqn:E; [|reflexivity].
  destruct (matched mt) as [|x w] eqn:Ew; [reflexivity|].
  f_equal. apply exec_at_split in E. rewrite Ew in E.
  assert (length rest < length s) by (rewrite E; simpl; rewrite length_app; lia).
  apply IH; lia.
Qed.

Lemma segments_fuel_S (re : regex) (n : nat) (bol : bool) (s : jstring) :
  segments_fuel (S n) re bol s =
  let skip :=
    match s with
    | [] => []
    | c :: s' => Gap c :: segments_fuel n re false s'
    end in
  match exec_at re bol s with
  | Some (m, rest) =>
      match matched m with
      | [] => Hit m :: skip
      | _ :: _ => Hit m :: segments_fuel n re false rest
      end
  | None => skip
  end.
Proof. reflexivity. Qed.

Lemma segments_from_cons (re : regex) (bol : bool) (c : char) (s : jstring) :
  segments_from re bol (c :: s) =
  match exec_at re bol (c :: s) with
  | Some (m, rest) =>
      match matched m with
      | [] => Hit m :: Gap c :: segments_from re false s
      | _ :: _ => Hit m :: segments_from re false rest
      end
  | None => Gap c :: segments_from re false s
  end.
Proof.
  unfold segments_from. rewrite segments_fuel_S. cbv zeta.
  destruct (exec_at re bol (c :: s)) as [[m rest]|] eqn:E; [|reflexivity].
  destruct (matched m) as [|x w] eqn:Ew; [reflexivity|].
  f_equal. apply exec_at_split in E. rewrite Ew in E.
  assert (length rest < length (c :: s)).
  { rewrite E. simpl. rewrite length_app. lia. }
  apply segments_fuel_enough; lia.
Qed.

Lemma segments_from_nil (re : regex) (bol : bool) :
  segments_from re bol [] =
  match exec_at re bol [] with
  | Some (m, _) => [Hit m]
  | None => []
  end.
Proof.
  unfold segments_from. rewrite segments_fuel_S. cbv zeta.
  destruct (exec_at re bol []) as [[m rest]|]; [|reflexivity].
  destruct (matched m); reflexivity.
Qed.

Lemma segments_from_no_bol (re : regex) (bol : bool) (s : jstring) :
  no_bol re -> segments_from re bol s = segments_from re false s.
Proof.
  intros H. destruct s as [|c s].
  - rewrite !segments_from_nil. now rewrite (exec_at_no_bol re bol false [] H).
  - rewrite !segments_from_cons.
    now rewrite (exec_at_no_bol re bol false (c :: s) H).
Qed.

(** The segments, put back together, are the text. *)
Lemma segments_fuel_raw (re : regex) (n : nat) :
  forall bol s, length s < n -> flat_map raw (segments_fuel n re bol s) = s.
Proof.
  induction n as [|n IH]; intros bol s Hn; [lia|]. cbn [segments_fuel].
  assert (flat_map raw
            match s with
            | [] => []
            | c :: s' => Gap c :: segments_fuel n re false s'
            end = s) as Hskip.
  { destruct s as [|c s']; [reflexivity|]. simpl in *. f_equal. apply IH. lia. }
  destruct (exec_at re bol s) as [[m rest]|] eqn:E; [|exact Hskip].
  destruct (matched m) as [|x w] eqn:Ew.
  - cbn [flat_map raw]. rewrite Ew. exact Hskip.
  - cbn [flat_map raw]. rewrite Ew. apply exec_at_split in E. rewrite Ew in E.
    rewrite IH; [now symmetry|].
    assert (length s = length ((x :: w) ++ rest)) as Hl by now rewrite <- E.
    rewrite length_app in Hl. simpl in Hl. lia.
Qed.

Lemma segments_raw (re : regex) (s : jstring) : flat_map raw (segments re s) = s.
Proof. apply segments_fuel_raw. lia. Qed.

Lemma in_hits (m : rmatch) (segs : list segment) : In m (hits segs) <-> In (Hit m) segs.
Proof.
  unfold hits. rewrite in_flat_map. split.
  - intros ([c|m'] & Hin & H); simpl in H; [contradiction|].
    destruct H as [->|[]]. exact Hin.
  - intros H. exists (Hit m). split; [exact H | now left].
Qed.

Lemma flat_map_ext_on {A B} (f g : A -> list B) (l : list A) :
  (forall a, In a l -> f a = g a) -> flat_map f l = flat_map g l.
Proof.
  induction l as [|a l IH]; intros H; simpl; [reflexivity|].
  rewrite (H a (or_introl eq_refl)), IH; [reflexivity|].
  intros b Hb. apply H. now right.
Qed.

(** A replacer that returns every match of the text as it is changes
    nothing. *)
Lemma replace_all_same (re : regex) (f : rmatch -> jstring) (s : jstring) :
  (forall m, In m (hits (segments re s)) -> f m = matched m) ->
  replace_all re f s = s.
Proof.
  intros H. unfold replace_all.
  rewrite <- (segments_raw re s) at 2.
  apply flat_map_ext_on. intros [c|m] Hin; [reflexivity|].
  simpl. apply H. now apply in_hits.
Qed.

(** How a replacement goes on from the head of the text, for a pattern that
    has no [^] and matches no empty text. *)
Lemma segments_is_from (re : regex) (s : jstring) :
  no_bol re -> segments re s = segments_from re false s.
Proof. intros H. apply (segments_from_no_bol re true s H). Qed.

Lemma replace_all_nil (re : regex) (f : rmatch -> jstring) :
  no_bol re -> exec_at re false [] = None -> replace_all re f [] = [].
Proof.
  intros Hb E. unfold replace_all.
  rewrite (segments_is_from re [] Hb), segments_from_nil, E. reflexivity.
Qed.

Lemma replace_all_gap (re : regex) (f : rmatch -> jstring) (c : char) (s : jstring) :
  no_bol re -> exec_at re false (c :: s) = None ->
  replace_all re f (c :: s) = c :: replace_all re f s.
Proof.
  intros Hb E. unfold replace_all.
  rewrite !(segments_is_from re _ Hb), segments_from_cons, E. reflexivity.
Qed.

Lemma replace_all_hit (re : regex) (f : rmatch -> jstring)
    (s : jstring) (m : rmatch) (rest : jstring) :
  no_bol re -> exec_at re false s = Some (m, rest) -> matched m <> [] ->
  replace_all re f s = f m ++ replace_all re f rest.
Proof.
  intros Hb E Hne. unfold replace_all.
  rewrite !(segments_is_from re _ Hb).
  destruct s as [|c s].
  - apply exec_at_split in E. symmetry in E. apply app_eq_nil in E as [E _].
    contradiction.
  - rewrite segments_from_cons, E.
    destruct (matched m); [contradiction|]. reflexivity.
Qed.

Lemma hits_nil (re : regex) :
  no_bol re -> exec_at re false [] = None -> hits (segments re []) = [].
Proof.
  intros Hb E. rewrite (segments_is_from re [] Hb), segments_from_nil, E.
  reflexivity.
Qed.

Lemma hits_gap (re : regex) (c : char) (s : jstring) :
  no_bol re -> exec_at re false (c :: s) = None ->
  hits (segments re (c :: s)) = hits (segments re s).
Proof.
  intros Hb E.
  rewrite !(segments_is_from re _ Hb), segments_from_cons, E. reflexivity.
Qed.

Lemma hits_hit (re : regex) (s : jstring) (m : rmatch) (rest : jstring) :
  no_bol re -> exec_at re false s = Some (m, rest) -> matched m <> [] ->
  hits (segments re s) = m :: hits (segments re rest).
Proof.
  intros Hb E Hne. rewrite !(segments_is_from re _ Hb).
  destruct s as [|c s].
  - apply exec_at_split in E. symmetry in E. apply app_eq_nil in E as [E _].
    contradiction.
  - rewrite segments_from_cons, E.
    destruct (matched m); [contradiction|]. reflexivity.
Qed.

(** ** The two passes of the rewriter *)

Lemma alias_exec_nil : exec_at aliasRegex false [] = None.
Proof. now rewrite (exec_at_det _ _ _ aliasRegex_det). Qed.

Lemma link_exec_nil : exec_at linkRegex false [] = None.
Proof. now rewrite (exec_at_det _ _ _ linkRegex_det). Qed.

Lemma bracket_not_nil (t : jstring) : bracket t <> [].
Proof. discriminate. Qed.

Lemma alias_matched (s : jstring) (m : rmatch) (rest : jstring) :
  exec_at aliasRegex false s = Some (m, rest) -> matched m <> [].
Proof.
  intros H. apply alias_inv in H as (a & b & _ & _ & _ & _ & _ & ->).
  apply bracket_not_nil.
Qed.

Lemma link_matched (s : jstring) (m : rmatch) (rest : jstring) :
  exec_at linkRegex false s = Some (m, rest) -> matched m <> [].
Proof.
  intros H. apply link_inv in H as (body & _ & _ & _ & ->).
  apply bracket_not_nil.
Qed.

Section Passes.

Variable d : bool.        (* [settings.deleteText] *)
Variable K : JSSet.       (* [brokenLinks] *)

Lemma aliasPass_nil : aliasPass d K [] = [].
Proof. apply replace_all_nil; [exact I | exact alias_exec_nil]. Qed.

Lemma plainPass_nil : plainPass d K [] = [].
Proof. apply replace_all_nil; [exact I | exact link_exec_nil]. Qed.

Lemma aliasPass_gap (c : char) (s : jstring) :
  exec_at aliasRegex false (c :: s) = None ->
  aliasPass d K (c :: s) = c :: aliasPass d K s.
Proof. intros E. now apply replace_all_gap. Qed.

Lemma plainPass_gap (c : char) (s : jstring) :
  exec_at linkRegex false (c :: s) = None ->
  plainPass d K (c :: s) = c :: plainPass d K s.
Proof. intros E. now apply replace_all_gap. Qed.

Lemma aliasPass_hit (s : jstring) (m : rmatch) (rest : jstring) :
  exec_at aliasRegex false s = Some (m, rest) ->
  aliasPass d K s = aliasReplacer d K m ++ aliasPass d K rest.
Proof.
  intros E. apply replace_all_hit; [exact I | exact E |].
  now apply alias_matched in E.
Qed.

Lemma plainPass_hit (s : jstring) (m : rmatch) (rest : jstring) :
  exec_at linkRegex false s = Some (m, rest) ->
  plainPass d K s = plainReplacer d K m ++ plainPass d K rest.
Proof.
  intros E. apply replace_all_hit; [exact I | exact E |].
  now apply link_matched in E.
Qed.

Lemma alias_none_head (c : char) (s : jstring) :
  c <> lbr -> exec_at aliasRegex false (c :: s) = None.
Proof.
  intros Hc. destruct (exec_at aliasRegex false (c :: s)) as [[m rest]|] eqn:E;
    [|reflexivity].
  apply alias_inv in E as (a & b & _ & _ & _ & _ & E & _).
  rewrite bracket_app in E. congruence.
Qed.

Lemma alias_none_second (c1 c2 : char) (s : jstring) :
  c2 <> lbr -> exec_at aliasRegex false (c1 :: c2 :: s) = None.
Proof.
  intros Hc. destruct (exec_at aliasRegex false (c1 :: c2 :: s)) as [[m rest]|] eqn:E;
    [|reflexivity].
  apply alias_inv in E as (a & b & _ & _ & _ & _ & E & _).
  rewrite bracket_app in E. congruence.
Qed.

Lemma aliasPass_skip (pre s : jstring) :
  Forall (fun c => c <> lbr) pre ->
  aliasPass d K (pre ++ s) = pre ++ aliasPass d K s.
Proof.
  induction 1 as [|c pre Hc _ IH]; [reflexivity|].
  rewrite <- !app_comm_cons, aliasPass_gap, IH; [reflexivity|].
  now apply alias_none_head.
Qed.

Lemma plainPass_skip (pre s : jstring) :
  Forall (fun c => c <> lbr) pre ->
  plainPass d K (pre ++ s) = pre ++ plainPass d K s.
Proof.
  induction 1 as [|c pre Hc _ IH]; [reflexivity|].
  rewrite <- !app_comm_cons, plainPass_gap, IH; [reflexivity|].
  now apply link_none_head.
Qed.

Lemma alias_none_no_rbr (s : jstring) :
  Forall (fun c => not_rbr c = true) s -> exec_at aliasRegex false s = None.
Proof.
  intros Hs. destruct (exec_at aliasRegex false s) as [[m rest]|] eqn:E;
    [|reflexivity].
  apply alias_inv in E as (a & b & _ & _ & _ & _ & E & _). subst s.
  rewrite bracket_app in Hs.
  rewrite Forall_forall in Hs. specialize (Hs rbr).
  assert (not_rbr rbr = true) as H; [|discriminate H].
  apply Hs. right. right. apply in_or_app. right. now left.
Qed.

Lemma aliasPass_no_rbr (s : jstring) :
  Forall (fun c => not_rbr c = true) s -> aliasPass d K s = s.
Proof.
  induction s as [|c s IH]; intros Hs; [apply aliasPass_nil|].
  rewrite aliasPass_gap by now apply alias_none_no_rbr.
  inversion Hs; subst. now rewrite IH.
Qed.

Lemma plainPass_no_rbr (s : jstring) :
  Forall (fun c => not_rbr c = true) s -> plainPass d K s = s.
Proof.
  induction s as [|c s IH]; intros Hs; [apply plainPass_nil|].
  rewrite plainPass_gap by now apply link_none_no_rbr.
  inversion Hs; subst. now rewrite IH.
Qed.

Lemma take_while_app_cut (p : char -> bool) (u : jstring) (c : char) (x : jstring) :
  p c = false -> take_while p (u ++ c :: x) = take_while p u.
Proof.
  intros Hc. induction u as [|a u IH]; simpl.
  - now rewrite Hc.
  - destruct (p a); [now rewrite IH | reflexivity].
Qed.

Lemma take_while_incl (p : char -> bool) (u : jstring) (c : char) :
  In c (take_while p u) -> In c u.
Proof.
  induction u as [|a u IH]; simpl; [auto|].
  destruct (p a); simpl; [|contradiction]. intros [H|H]; auto.
Qed.

(** No alias form starts where no [|] comes before the next []]. *)
Lemma alias_none_no_pipe (u x : jstring) :
  ~ In pipe u -> exec_at aliasRegex false (u ++ rbr :: x) = None.
Proof.
  intros Hu. destruct (exec_at aliasRegex false (u ++ rbr :: x)) as [[m rest]|] eqn:E;
    [|reflexivity].
  apply alias_inv in E as (a & b & _ & Ha & _ & Hb & E & _).
  exfalso. apply Hu. apply (take_while_incl not_rbr).
  rewrite <- (take_while_app_cut not_rbr u rbr x eq_refl), E, bracket_app.
  assert (Forall (fun c => not_rbr c = true) (lbr :: lbr :: a ++ pipe :: b)) as Hall.
  { repeat constructor. apply Forall_app. split.
    - eapply Forall_impl; [|exact Ha]. intros c Hc.
      apply not_rbr_true. now apply not_rbr_pipe_true in Hc.
    - now constructor. }
  change (lbr :: lbr :: (a ++ pipe :: b) ++ rbr :: rbr :: rest)
    with ((lbr :: lbr :: a ++ pipe :: b) ++ rbr :: rbr :: rest).
  rewrite (take_while_app_stop not_rbr _ rbr _ Hall eq_refl).
  right. right. apply in_or_app. right. now left.
Qed.

Lemma aliasPass_no_pipe (u x : jstring) :
  ~ In pipe u -> aliasPass d K (u ++ rbr :: x) = u ++ rbr :: aliasPass d K x.
Proof.
  induction u as [|c u IH]; intros Hu.
  - simpl. apply aliasPass_gap. now apply alias_none_head.
  - rewrite <- !app_comm_cons, aliasPass_gap.
    + rewrite IH; [reflexivity|]. intros H. apply Hu. now right.
    + rewrite app_comm_cons. now apply alias_none_no_pipe.
Qed.

End Passes.

Lemma not_in_Forall (c : char) (s : jstring) :
  ~ In c s <-> Forall (fun x => x <> c) s.
Proof.
  rewrite Forall_forall. split.
  - intros H x Hx ->. contradiction.
  - intros H Hin. now apply (H c Hin).
Qed.

Lemma no_rbr_Forall (s : jstring) :
  ~ In rbr s <-> Forall (fun c => not_rbr c = true) s.
Proof.
  rewrite not_in_Forall. split; apply Forall_impl; intros c; apply not_rbr_true.
Qed.

Lemma no_rbr_pipe_Forall (s : jstring) :
  ~ In rbr s -> ~ In pipe s -> Forall (fun c => not_rbr_pipe c = true) s.
Proof.
  rewrite !not_in_Forall, !Forall_forall. intros H1 H2 c Hc.
  apply not_rbr_pipe_true. auto.
Qed.

Lemma clean_text (T : jstring) (K : JSSet) (d : bool) :
  fst (clean T K d) = plainPass d K (aliasPass d K T).
Proof. reflexivity. Qed.

(** The alias pass at a broken alias link between plain text. *)
Lemma aliasPass_broken_alias (d : bool) (K : JSSet) (a b pre post : jstring) :
  a <> [] -> ~ In rbr a -> ~ In pipe a -> b <> [] -> ~ In rbr b ->
  set_has K (bracket a) = true ->
  ~ In lbr pre -> ~ In rbr post ->
  aliasPass d K (pre ++ bracket (a ++ pipe :: b) ++ post)
  = pre ++ (if d then [] else b) ++ post.
Proof.
  intros Ha Har Hap Hb Hbr HK Hpre Hpost.
  rewrite aliasPass_skip by now apply not_in_Forall.
  rewrite (aliasPass_hit d K _ _ _
             (alias_exec false a b post Ha (no_rbr_pipe_Forall a Har Hap) Hb
                (proj1 (no_rbr_Forall b) Hbr))).
  unfold aliasReplacer. cbn [capture captures Nat.sub nth]. rewrite HK.
  rewrite aliasPass_no_rbr by now apply no_rbr_Forall.
  reflexivity.
Qed.

(** The alias pass at a plain link between plain text. *)
Lemma aliasPass_plain_link (d : bool) (K : JSSet) (a pre post : jstring) :
  ~ In pipe a -> ~ In lbr pre -> ~ In rbr post ->
  aliasPass d K (pre ++ bracket a ++ post) = pre ++ bracket a ++ post.
Proof.
  intros Hap Hpre Hpost.
  rewrite aliasPass_skip by now apply not_in_Forall.
  rewrite bracket_app.
  change (lbr :: lbr :: a ++ rbr :: rbr :: post)
    with ((lbr :: lbr :: a) ++ rbr :: rbr :: post).
  rewrite aliasPass_no_pipe.
  - rewrite aliasPass_gap by (apply alias_none_head; discriminate).
    rewrite aliasPass_no_rbr by now apply no_rbr_Forall. reflexivity.
  - intros [H|[H|H]]; try discriminate. contradiction.
Qed.

(** ** Texts whose links do not nest *)

Section NonNesting.

Variable d : bool.
Variable K : JSSet.

Lemma shaped_impl (P Q : jstring -> Prop) (s : jstring) :
  (forall body, P body -> Q body) -> shaped P s -> shaped Q s.
Proof.
  intros H. induction 1; [constructor | now constructor | now constructor |].
  apply shaped_link; auto.
Qed.

Lemma shaped_text (P : jstring -> Prop) (t s : jstring) :
  Forall (fun c => c <> lbr /\ c <> rbr) t -> shaped P s -> shaped P (t ++ s).
Proof.
  induction 1 as [|c t [Hl Hr] _ IH]; intros Hs; [exact Hs|].
  simpl. apply shaped_chr; auto.
Qed.

Lemma plain_no_rbr (body : jstring) :
  Forall (fun c => c <> lbr /\ c <> rbr) body ->
  Forall (fun c => not_rbr c = true) body.
Proof. apply Forall_impl. intros c [_ H]. now apply not_rbr_true. Qed.

Lemma plain_no_lbr (body : jstring) :
  Forall (fun c => c <> lbr /\ c <> rbr) body -> Forall (fun c => c <> lbr) body.
Proof. apply Forall_impl. now intros c [H _]. Qed.

Lemma Forall_app_r {A} (P : A -> Prop) (u v : list A) :
  Forall P (u ++ v) -> Forall P v.
Proof. intros H. now apply Forall_app in H. Qed.

(** What the alias pass does at a link of such a text, whatever follows. *)
Lemma aliasPass_link (body : jstring) :
  body <> [] -> Forall (fun c => c <> lbr /\ c <> rbr) body ->
  exists X,
    (forall s, aliasPass d K (bracket body ++ s) = X ++ aliasPass d K s)
    /\ ((X = bracket body /\ alias_kept K body)
        \/ (Forall (fun c => c <> lbr /\ c <> rbr) X /\ ~ alias_kept K body)).
Proof.
  intros Hne Hb.
  assert (forall a b rest s,
             Forall (fun c => not_rbr_pipe c = true) a ->
             Forall (fun c => not_rbr c = true) b ->
             bracket body ++ s = bracket (a ++ pipe :: b) ++ rest ->
             body = a ++ pipe :: b /\ s = rest) as Huniq.
  { intros a b rest s Han Hbn E.
    apply bracket_unique in E; [exact E | now apply plain_no_rbr |].
    apply Forall_app. split; [|now constructor].
    eapply Forall_impl; [|exact Han]. intros c Hc.
    apply not_rbr_true. now apply not_rbr_pipe_true in Hc. }
  destruct (exec_at aliasRegex false (bracket body ++ [])) as [[m rest]|] eqn:E.
  - apply alias_inv in E as (a & b & Ha & Han & Hbne & Hbn & E & ->).
    apply Huniq in E as [-> _]; auto.
    assert (Forall (fun c => c <> pipe) a) as Hap.
    { eapply Forall_impl; [|exact Han]. intros c Hc.
      now apply not_rbr_pipe_true in Hc. }
    exists (aliasReplacer d K (RMatch (bracket (a ++ pipe :: b)) [a; b])). split.
    + intros s. apply aliasPass_hit. now apply alias_exec.
    + unfold aliasReplacer. cbn [matched capture captures Nat.sub nth].
      destruct (set_has K (bracket a)) eqn:HK.
      * right. split.
        -- destruct d; [constructor|].
           apply Forall_app_r in Hb. now inversion Hb.
        -- intros Hkept.
           rewrite (Hkept a b eq_refl Ha (proj2 (not_in_Forall pipe a) Hap) Hbne) in HK.
           discriminate.
      * left. split; [reflexivity|]. intros a' b' Eab Ha' Hap' Hbne'.
        apply (split_unique (fun c => negb (chr_eqb c pipe))) in Eab as (-> & _ & _);
          try reflexivity.
        -- exact HK.
        -- eapply Forall_impl; [|exact Hap]. intros c Hc.
           now apply negb_true_iff, chr_eqb_neq.
        -- apply not_in_Forall in Hap'. eapply Forall_impl; [|exact Hap'].
           intros c Hc. now apply negb_true_iff, chr_eqb_neq.
  - assert (forall s, exec_at aliasRegex false (bracket body ++ s) = None) as Hnone.
    { intros s.
      destruct (exec_at aliasRegex false (bracket body ++ s)) as [[m rest]|] eqn:E';
        [|reflexivity].
      apply alias_inv in E' as (a & b & Ha & Han & Hbne & Hbn & E' & _).
      apply Huniq in E' as [-> _]; auto.
      rewrite (alias_exec false a b [] Ha Han Hbne Hbn) in E. discriminate. }
    exists (bracket body). split.
    + intros s. specialize (Hnone s).
      rewrite bracket_app in *. rewrite (aliasPass_gap d K _ _ Hnone).
      destruct body as [|c body]; [contradiction|].
      inversion Hb as [|? ? [Hc _] Hb']; subst.
      rewrite <- app_comm_cons.
      rewrite aliasPass_gap by now apply alias_none_second.
      rewrite app_comm_cons.
      rewrite aliasPass_skip by (constructor; [exact Hc | now apply plain_no_lbr]).
      rewrite !aliasPass_gap by (apply alias_none_head; discriminate).
      unfold bracket. simpl. now rewrite <- app_assoc.
    + left. split; [reflexivity|]. intros a b -> Ha Hap Hbne.
      apply Forall_app in Hb as [Hba Hbb]. inversion Hbb as [|? ? _ Hbb']; subst.
      rewrite alias_exec in E; [discriminate | exact Ha | | exact Hbne |].
      * apply no_rbr_pipe_Forall; [|exact Hap].
        apply no_rbr_Forall. now apply plain_no_rbr.
      * now apply plain_no_rbr.
Qed.

(** What the plain pass does at a link of such a text, whatever follows. *)
Lemma plainPass_link (body : jstring) :
  body <> [] -> Forall (fun c => c <> lbr /\ c <> rbr) body ->
  exists X,
    (forall s, plainPass d K (bracket body ++ s) = X ++ plainPass d K s)
    /\ ((X = bracket body /\ plain_kept K body)
        \/ (Forall (fun c => c <> lbr /\ c <> rbr) X /\ ~ plain_kept K body)).
Proof.
  intros Hne Hb.
  exists (plainReplacer d K (RMatch (bracket body) [body])). split.
  - intros s. apply plainPass_hit. apply link_exec; [exact Hne|].
    now apply plain_no_rbr.
  - unfold plainReplacer, plain_kept. cbn [matched capture captures Nat.sub nth].
    destruct (set_has K (bracket body)) eqn:HK.
    + right. split; [|discriminate]. destruct d; [constructor | exact Hb].
    + left. now split.
Qed.

Lemma aliasPass_shaped (P : jstring -> Prop) (s : jstring) :
  shaped P s -> shaped (fun body => P body /\ alias_kept K body) (aliasPass d K s).
Proof.
  induction 1 as [|c s Hl _ IH|c s Hl _ IH|body s Hne Hb HP _ IH].
  - rewrite aliasPass_nil. constructor.
  - rewrite aliasPass_gap by now apply alias_none_head. now constructor.
  - rewrite aliasPass_gap by now apply alias_none_second.
    rewrite aliasPass_gap by now apply alias_none_head. now constructor.
  - destruct (aliasPass_link body Hne Hb) as (X & HX & [[-> Hk]|[HX' _]]);
      rewrite HX.
    + now apply shaped_link.
    + now apply shaped_text.
Qed.

Lemma plainPass_shaped (P : jstring -> Prop) (s : jstring) :
  shaped P s -> shaped (fun body => P body /\ plain_kept K body) (plainPass d K s).
Proof.
  induction 1 as [|c s Hl _ IH|c s Hl _ IH|body s Hne Hb HP _ IH].
  - rewrite plainPass_nil. constructor.
  - rewrite plainPass_gap by now apply link_none_head. now constructor.
  - rewrite plainPass_gap by now apply link_none_second.
    rewrite plainPass_gap by now apply link_none_head. now constructor.
  - destruct (plainPass_link body Hne Hb) as (X & HX & [[-> Hk]|[HX' _]]);
      rewrite HX.
    + now apply shaped_link.
    + now apply shaped_text.
Qed.

Lemma aliasPass_settled (s : jstring) :
  shaped (alias_kept K) s -> aliasPass d K s = s.
Proof.
  induction 1 as [|c s Hl _ IH|c s Hl _ IH|body s Hne Hb HP _ IH].
  - apply aliasPass_nil.
  - rewrite aliasPass_gap by now apply alias_none_head. now rewrite IH.
  - rewrite aliasPass_gap by now apply alias_none_second.
    rewrite aliasPass_gap by now apply alias_none_head. now rewrite IH.
  - destruct (aliasPass_link body Hne Hb) as (X & HX & [[-> Hk]|[_ Hn]]).
    + now rewrite HX, IH.
    + contradiction.
Qed.

Lemma plainPass_settled (s : jstring) :
  shaped (plain_kept K) s -> plainPass d K s = s.
Proof.
  induction 1 as [|c s Hl _ IH|c s Hl _ IH|body s Hne Hb HP _ IH].
  - apply plainPass_nil.
  - rewrite plainPass_gap by now apply link_none_head. now rewrite IH.
  - rewrite plainPass_gap by now apply link_none_second.
    rewrite plainPass_gap by now apply link_none_head. now rewrite IH.
  - destruct (plainPass_link body Hne Hb) as (X & HX & [[-> Hk]|[_ Hn]]).
    + now rewrite HX, IH.
    + contradiction.
Qed.

(** Each pass works on such a text piece by piece: what follows the text
    does not change what the pass makes of it. *)
Lemma aliasPass_app (P : jstring -> Prop) (pre s : jstring) :
  shaped P pre -> aliasPass d K (pre ++ s) = aliasPass d K pre ++ aliasPass d K s.
Proof.
  induction 1 as [|c pre Hl _ IH|c pre Hl _ IH|body pre Hne Hb HP _ IH].
  - now rewrite aliasPass_nil.
  - rewrite <- app_comm_cons.
    rewrite !aliasPass_gap by now apply alias_none_head. now rewrite IH.
  - rewrite <- !app_comm_cons.
    rewrite !(aliasPass_gap d K lbr) by now apply alias_none_second.
    rewrite !aliasPass_gap by now apply alias_none_head. now rewrite IH.
  - destruct (aliasPass_link body Hne Hb) as (X & HX & _).
    now rewrite <- app_assoc, !HX, IH, app_assoc.
Qed.

Lemma plainPass_app (P : jstring -> Prop) (pre s : jstring) :
  shaped P pre -> plainPass d K (pre ++ s) = plainPass d K pre ++ plainPass d K s.
Proof.
  induction 1 as [|c pre Hl _ IH|c pre Hl _ IH|body pre Hne Hb HP _ IH].
  - now rewrite plainPass_nil.
  - rewrite <- app_comm_cons.
    rewrite !plainPass_gap by now apply link_none_head. now rewrite IH.
  - rewrite <- !app_comm_cons.
    rewrite !(plainPass_gap d K lbr) by now apply link_none_second.
    rewrite !plainPass_gap by now apply link_none_head. now rewrite IH.
  - destruct (plainPass_link body Hne Hb) as (X & HX & _).
    now rewrite <- app_assoc, !HX, IH, app_assoc.
Qed.

(** A link that neither pass finds in the set stays where it is. *)
Lemma clean_around_kept_link (pre body post : jstring) :
  simple_text pre ->
  body <> [] -> Forall (fun c => c <> lbr /\ c <> rbr) body ->
  alias_kept K body -> plain_kept K body ->
  fst (clean (pre ++ bracket body ++ post) K d)
  = fst (clean pre K d) ++ bracket body ++ fst (clean post K d).
Proof.
  intros Hpre Hne Hb Hak Hpk. rewrite !clean_text.
  rewrite (aliasPass_app _ pre _ Hpre).
  destruct (aliasPass_link body Hne Hb) as (X & HX & [[-> _]|[_ Hn]]);
    [|contradiction].
  rewrite HX.
  rewrite (plainPass_app _ _ _ (aliasPass_shaped _ pre Hpre)).
  destruct (plainPass_link body Hne Hb) as (Y & HY & [[-> _]|[_ Hn]]);
    [|contradiction].
  now rewrite HY.
Qed.

(** The matches the plain pattern finds in such a text are its links. *)
Lemma hits_shaped (P : jstring -> Prop) (s : jstring) :
  shaped P s ->
  forall m, In m (hits (segments linkRegex s)) ->
            exists body, matched m = bracket body /\ P body.
Proof.
  induction 1 as [|c s Hl _ IH|c s Hl _ IH|body s Hne Hb HP _ IH]; intros m.
  - rewrite hits_nil; [intros [] | exact I | exact link_exec_nil].
  - rewrite hits_gap; [apply IH | exact I | now apply link_none_head].
  - rewrite hits_gap; [| exact I | now apply link_none_second].
    rewrite hits_gap; [apply IH | exact I | now apply link_none_head].
  - rewrite (hits_hit linkRegex _ (RMatch (bracket body) [body]) s I
               (link_exec false body s Hne (plain_no_rbr body Hb))
               (bracket_not_nil body)).
    intros [<-|Hin]; [now exists body | now apply IH].
Qed.

End NonNesting.

(** ** The rewriter: what it rewrites *)

(** The alias pass keeps a link without [|], and an alias link whose key
    is not in the set. *)
Lemma alias_kept_plain (K : JSSet) (body : jstring) :
  ~ In pipe body -> alias_kept K body.
Proof.
  intros H a b -> _ _ _. exfalso. apply H. apply in_or_app. right. now left.
Qed.

Lemma alias_kept_alias (K : JSSet) (a b : jstring) :
  ~ In pipe a -> set_has K (bracket a) = false -> alias_kept K (a ++ pipe :: b).
Proof.
  intros Hap HK a' b' E _ Hap' _.
  apply (split_unique (fun c => negb (chr_eqb c pipe))) in E as (-> & _ & _);
    try reflexivity; [exact HK | |].
  - apply not_in_Forall in Hap. eapply Forall_impl; [|exact Hap].
    intros c Hc. now apply negb_true_iff, chr_eqb_neq.
  - apply not_in_Forall in Hap'. eapply Forall_impl; [|exact Hap'].
    intros c Hc. now apply negb_true_iff, chr_eqb_neq.
Qed.

Lemma plain_chars (t : jstring) :
  ~ In lbr t -> ~ In rbr t -> Forall (fun c => c <> lbr /\ c <> rbr) t.
Proof.
  rewrite !not_in_Forall, !Forall_forall. intros H1 H2 c Hc. auto.
Qed.

(** C5, amended.  Where the key [[[a]]] is in the set, the target [a] is
    not empty and has no []] and no [|], and the display text [b] is not
    empty and has no []].  The alias pass, when it
    comes to the alias form [[[a|b]]], puts exactly [b] in its place when
    the text is kept and nothing when it is deleted, and goes on with what
    follows; the plain pass does the same with the plain form [[[a]]] and
    [a].  Between text without an opening bracket before and without a
    closing bracket after, this is all that [clean] does: the alias form
    becomes [b] or nothing, the plain form [a] or nothing, and the text
    around is as it was.  And when [a] and [b] have no opening bracket, then
    after a text where [[[] only opens links that do not nest, and before
    any text, [clean] puts [b], [a] or nothing between what it makes of the
    text before and what it makes of the text after. *)
Theorem broken_link_rewritten (K : JSSet) (a b : jstring) :
  a <> [] -> ~ In rbr a -> ~ In pipe a ->
  b <> [] -> ~ In rbr b ->
  set_has K (bracket a) = true ->
  (forall d post,
      aliasPass d K (bracket (a ++ pipe :: b) ++ post)
      = (if d then [] else b) ++ aliasPass d K post)
  /\ (forall d post,
         plainPass d K (bracket a ++ post)
         = (if d then [] else a) ++ plainPass d K post)
  /\ (forall pre post,
         ~ In lbr pre -> ~ In rbr post ->
         fst (clean (pre ++ bracket (a ++ pipe :: b) ++ post) K false)
         = pre ++ b ++ post
         /\ fst (clean (pre ++ bracket (a ++ pipe :: b) ++ post) K true)
            = pre ++ post
         /\ fst (clean (pre ++ bracket a ++ post) K false) = pre ++ a ++ post
         /\ fst (clean (pre ++ bracket a ++ post) K true) = pre ++ post)
  /\ (forall d pre post,
         simple_text pre -> ~ In lbr a -> ~ In lbr b ->
         fst (clean (pre ++ bracket (a ++ pipe :: b) ++ post) K d)
         = fst (clean pre K d) ++ (if d then [] else b) ++ fst (clean post K d)
         /\ fst (clean (pre ++ bracket a ++ post) K d)
            = fst (clean pre K d) ++ (if d then [] else a) ++ fst (clean post K d)).
Proof.
  intros Ha Har Hap Hb Hbr HK.
  assert (forall d post,
             plainPass d K (bracket a ++ post)
             = (if d then [] else a) ++ plainPass d K post) as Hplain_at.
  { intros d post.
    rewrite (plainPass_hit d K _ _ _
               (link_exec false a post Ha (proj1 (no_rbr_Forall a) Har))).
    unfold plainReplacer. cbn [matched capture captures Nat.sub nth].
    now rewrite HK. }
  assert (forall d post,
             aliasPass d K (bracket (a ++ pipe :: b) ++ post)
             = (if d then [] else b) ++ aliasPass d K post) as Halias_at.
  { intros d post.
    rewrite (aliasPass_hit d K _ _ _
               (alias_exec false a b post Ha (no_rbr_pipe_Forall a Har Hap) Hb
                  (proj1 (no_rbr_Forall b) Hbr))).
    unfold aliasReplacer. cbn [capture captures Nat.sub nth]. now rewrite HK. }
  split; [exact Halias_at|]. split; [exact Hplain_at|]. split.
  - intros pre post Hpre Hpost.
    assert (forall d, plainPass d K (pre ++ (if d then [] else b) ++ post)
                      = pre ++ (if d then [] else b) ++ post) as Hplain.
    { intros d. rewrite plainPass_skip by now apply not_in_Forall.
      rewrite plainPass_no_rbr; [reflexivity|].
      apply no_rbr_Forall. intros H. apply in_app_or in H as [H|H]; [|contradiction].
      destruct d; [contradiction | contradiction]. }
    assert (forall d, plainPass d K (pre ++ bracket a ++ post)
                      = pre ++ (if d then [] else a) ++ post) as Hlink.
    { intros d. rewrite plainPass_skip by now apply not_in_Forall.
      rewrite Hplain_at.
      rewrite plainPass_no_rbr by now apply no_rbr_Forall. reflexivity. }
    rewrite !clean_text.
    rewrite !(aliasPass_broken_alias _ K a b pre post) by assumption.
    rewrite !(aliasPass_plain_link _ K a pre post) by assumption.
    rewrite (Hplain false), (Hplain true), (Hlink false), (Hlink true).
    repeat split; reflexivity.
  - intros d pre post Hpre Hal Hbl. rewrite !clean_text. split.
    + rewrite (aliasPass_app d K _ pre _ Hpre), Halias_at.
      rewrite (plainPass_app d K _ _ _ (aliasPass_shaped d K _ pre Hpre)).
      rewrite plainPass_skip; [reflexivity|].
      destruct d; [constructor | now apply not_in_Forall].
    + rewrite (aliasPass_app d K _ pre _ Hpre).
      destruct (aliasPass_link d K a Ha (plain_chars a Hal Har))
        as (X & HX & [[-> _]|[_ Hn]]).
      * rewrite HX.
        rewrite (plainPass_app d K _ _ _ (aliasPass_shaped d K _ pre Hpre)).
        now rewrite Hplain_at.
      * exfalso. apply Hn. now apply alias_kept_plain.
Qed.

Lemma broken_link_rewritten_witness :
  aliasPass false [str "[[a]]"] (str "[[a|b]] and [[c]]")
  = str "b" ++ aliasPass false [str "[[a]]"] (str " and [[c]]")
  /\ plainPass true [str "[[a]]"] (str "[[a]] and [[c]]")
     = plainPass true [str "[[a]]"] (str " and [[c]]")
  /\ (fst (clean (str "x [[a|b]] y") [str "[[a]]"] false) = str "x b y"
      /\ fst (clean (str "x [[a|b]] y") [str "[[a]]"] true) = str "x  y"
      /\ fst (clean (str "x [[a]] y") [str "[[a]]"] false) = str "x a y"
      /\ fst (clean (str "x [[a]] y") [str "[[a]]"] true) = str "x  y")
  /\ fst (clean (str "- [ ] " ++ bracket (str "a" ++ pipe :: str "b") ++ str " [[a]]")
            [str "[[a]]"] false)
     = fst (clean (str "- [ ] ") [str "[[a]]"] false) ++ str "b"
       ++ fst (clean (str " [[a]]") [str "[[a]]"] false).
Proof.
  assert (~ In rbr (str "a")) as H1 by (intros H; vm_compute in H; intuition discriminate).
  assert (~ In pipe (str "a")) as H2 by (intros H; vm_compute in H; intuition discriminate).
  assert (~ In rbr (str "b")) as H3 by (intros H; vm_compute in H; intuition discriminate).
  assert (str "a" <> []) as H4 by discriminate.
  assert (str "b" <> []) as H5 by discriminate.
  destruct (broken_link_rewritten [str "[[a]]"] (str "a") (str "b")
              H4 H1 H2 H5 H3 eq_refl) as (Ha & Hp & Hc & Hs).
  split; [exact (Ha false (str " and [[c]]"))|].
  split; [exact (Hp true (str " and [[c]]"))|].
  split.
  - apply (Hc (str "x ") (str " y"));
      intros H; vm_compute in H; intuition discriminate.
  - apply (Hs false (str "- [ ] ") (str " [[a]]")).
    + change (str "- [ ] ")
        with (45%N :: 32%N :: lbr :: 32%N :: rbr :: 32%N :: []).
      apply shaped_chr; [discriminate|]. apply shaped_chr; [discriminate|].
      apply shaped_lbr; [discriminate|]. apply shaped_chr; [discriminate|].
      apply shaped_chr; [discriminate|]. apply shaped_nil.
    + intros H; vm_compute in H; intuition discriminate.
    + intros H; vm_compute in H; intuition discriminate.
Defined.

(** C5 fails as stated.  The occurrence [[[a|]]] has the target [a] and an
    empty display text, so its key is [[[a]]].  With that key in the set
    it should become its display text, the empty string; but the alias
    pattern wants a character after the [|] and the plain pass looks up
    [[[a|]]], so [clean] leaves the occurrence as it is, kept or deleted.
    And the plain form [[[a]]] that comes after [[[z|[]]] is not rewritten
    though its key is in the set: the alias pass leaves [[[[a]]] and the
    plain pass matches from the first bracket. *)
Lemma broken_alias_without_display_kept :
  match_all linkRegex (str "[[a|]]") = [str "[[a|]]"]
  /\ split_first pipe (slice_2_m2 (str "[[a|]]")) = str "a"
  /\ set_has [str "[[a]]"] (bracket (str "a")) = true
  /\ clean (str "[[a|]]") [str "[[a]]"] false = (str "[[a|]]", false)
  /\ clean (str "[[a|]]") [str "[[a]]"] true = (str "[[a|]]", false)
  /\ clean (str "[[z|[]][[a]]") [str "[[z]]"; str "[[a]]"] false
     = (str "[[[a]]", true).
Proof.
  split; [vm_compute; reflexivity|]. split; [vm_compute; reflexivity|].
  split; [vm_compute; reflexivity|]. split; [vm_compute; reflexivity|].
  split; vm_compute; reflexivity.
Qed.

(** ** The rewriter: what it leaves alone *)

Lemma bracket_inj (t t' : jstring) : bracket t = bracket t' -> t = t'.
Proof.
  unfold bracket. intros H. injection H as H. now apply app_inv_tail in H.
Qed.

Lemma clean_settled (T : jstring) (K : JSSet) (d : bool) :
  shaped (fun body => alias_kept K body /\ plain_kept K body) T ->
  clean T K d = (T, false).
Proof.
  intros H. unfold clean, cleanBrokenWikilinks. cbn [deleteText].
  rewrite aliasPass_settled by (eapply shaped_impl; [|exact H]; now intros b [? ?]).
  rewrite plainPass_settled by (eapply shaped_impl; [|exact H]; now intros b [? ?]).
  now rewrite jstring_eqb_refl.
Qed.

Lemma clean_simple_settled (T : jstring) (K : JSSet) (d : bool) :
  simple_text T ->
  shaped (fun body => alias_kept K body /\ plain_kept K body) (fst (clean T K d)).
Proof.
  intros H. rewrite clean_text.
  apply (aliasPass_shaped d K) in H. apply (plainPass_shaped d K) in H.
  eapply shaped_impl; [|exact H]. now intros b [[_ ?] ?].
Qed.

(** C4, amended.  On a text where [[[] only opens links that do not nest
    (every [[] has a character other than [[] after it, or opens a link
    [[[body]]] with a body that is not empty and free of brackets), cleaning
    is idempotent for either value of [deleteText]: cleaning the cleaned
    text again returns it unchanged. *)
Theorem clean_idempotent_simple (T : jstring) (K : JSSet) (d : bool) :
  simple_text T ->
  clean (fst (clean T K d)) K d = (fst (clean T K d), false).
Proof.
  intros H. apply clean_settled. now apply clean_simple_settled.
Qed.

Lemma clean_idempotent_simple_witness :
  clean (fst (clean (str "- [x] [[a|b]][[c]]") [str "[[a]]"] true)) [str "[[a]]"] true
  = (fst (clean (str "- [x] [[a|b]][[c]]") [str "[[a]]"] true), false).
Proof.
  apply (clean_idempotent_simple (str "- [x] [[a|b]][[c]]") [str "[[a]]"] true).
  change (str "- [x] [[a|b]][[c]]")
    with (45%N :: 32%N :: lbr :: 120%N :: rbr :: 32%N
          :: bracket (str "a|b") ++ bracket (str "c") ++ []).
  apply shaped_chr; [discriminate|].
  apply shaped_chr; [discriminate|].
  apply shaped_lbr; [discriminate|].
  apply shaped_chr; [discriminate|].
  apply shaped_chr; [discriminate|].
  apply shaped_link; [discriminate | repeat constructor; discriminate | exact I |].
  apply shaped_link; [discriminate | repeat constructor; discriminate | exact I |].
  apply shaped_nil.
Defined.

(** C4 fails on nested brackets, whether the text is kept or deleted: the
    first cleaning leaves an alias link behind that the second rewrites. *)
Lemma clean_not_idempotent :
  fst (clean (str "[[a|[[a|b]]]]") [str "[[a]]"] false) = str "[[a|b]]"
  /\ fst (clean (str "[[a|b]]") [str "[[a]]"] false) = str "b"
  /\ fst (clean (fst (clean (str "[[a|[[a|b]]]]") [str "[[a]]"] false))
              [str "[[a]]"] false)
     <> fst (clean (str "[[a|[[a|b]]]]") [str "[[a]]"] false)
  /\ fst (clean (str "[[b|z][[b|y]]]") [str "[[b]]"] true) = str "[[b|z]]"
  /\ fst (clean (str "[[b|z]]") [str "[[b]]"] true) = []
  /\ fst (clean (fst (clean (str "[[b|z][[b|y]]]") [str "[[b]]"] true))
              [str "[[b]]"] true)
     <> fst (clean (str "[[b|z][[b|y]]]") [str "[[b]]"] true).
Proof. vm_compute. repeat split; discriminate. Qed.

(** C7, amended.  In a text where [[[] only opens links that do not nest,
    every alias form [[[a|b]]] among the matches the plain pass
    sees after the alias pass has its key [[[a]]] outside the set: the alias
    forms whose key is in the set are gone, the others are still there. *)
Theorem plain_pass_sees_kept_aliases
    (T : jstring) (K : JSSet) (d : bool) (m : rmatch) (a b : jstring) :
  simple_text T ->
  In m (link_matches (aliasPass d K T)) ->
  matched m = bracket (a ++ pipe :: b) ->
  a <> [] -> ~ In pipe a -> b <> [] ->
  set_has K (bracket a) = false.
Proof.
  intros HT Hin Hm Ha Hap Hb.
  apply (aliasPass_shaped d K) in HT.
  destruct (hits_shaped _ _ HT m Hin) as (body & E & _ & Hk).
  rewrite Hm in E. apply bracket_inj in E. subst body.
  now apply (Hk a b).
Qed.

Lemma plain_pass_sees_kept_aliases_witness :
  set_has [str "[[c]]"] (bracket (str "a")) = false.
Proof.
  apply (plain_pass_sees_kept_aliases (str "[[a|b]]") [str "[[c]]"] false
           (RMatch (str "[[a|b]]") [str "a|b"]) (str "a") (str "b")).
  - change (str "[[a|b]]") with (bracket (str "a|b") ++ []).
    apply shaped_link; [discriminate | repeat constructor; discriminate | exact I |].
    apply shaped_nil.
  - vm_compute. now left.
  - reflexivity.
  - discriminate.
  - intros H; vm_compute in H; intuition discriminate.
  - discriminate.
Defined.

(** C7 fails as stated: an alias form whose key is not in the set passes the
    alias pass unchanged, and the plain pass sees it with its [|]. *)
Lemma plain_pass_sees_pipe :
  map matched (link_matches (aliasPass false [str "[[c]]"] (str "[[a|b]]")))
  = [str "[[a|b]]"]
  /\ In pipe (str "[[a|b]]").
Proof. vm_compute. split; [reflexivity | auto 10]. Qed.

Lemma aliasReplacer_kept (d : bool) (K : JSSet) (m : rmatch) :
  set_has K (bracket (capture 1 m)) = false -> aliasReplacer d K m = matched m.
Proof. unfold aliasReplacer. now intros ->. Qed.

Lemma plainReplacer_kept (d : bool) (K : JSSet) (m : rmatch) :
  set_has K (matched m) = false -> plainReplacer d K m = matched m.
Proof. unfold plainReplacer. now intros ->. Qed.

(** C1, amended.  When no alias match of the text has [[[link]]] in the set
    and no link match of the text is in the set, [clean] returns the text
    with [changed = false].  After a text where [[[] only opens links that
    do not nest, a link that neither pass finds in the set (its
    key [[[target]]] for the alias pass, its whole bracket expression for
    the plain pass) is in the output byte for byte, between the cleaned text
    before it and the cleaned text after it.  In any text, a match a pass
    does not find in the set is copied as it is and the pass goes on after
    it.  [cleanFile] writes nothing when the cleaned content is the content
    read. *)
Theorem clean_frame :
  (forall T K d,
      (forall m, In m (alias_matches T) -> set_has K (bracket (capture 1 m)) = false) ->
      (forall m, In m (link_matches T) -> set_has K (matched m) = false) ->
      clean T K d = (T, false))
  /\ (forall K d pre body post,
         simple_text pre ->
         body <> [] -> Forall (fun c => c <> lbr /\ c <> rbr) body ->
         alias_kept K body -> set_has K (bracket body) = false ->
         fst (clean (pre ++ bracket body ++ post) K d)
         = fst (clean pre K d) ++ bracket body ++ fst (clean post K d))
  /\ (forall K d s m rest,
         exec_at aliasRegex false s = Some (m, rest) ->
         set_has K (bracket (capture 1 m)) = false ->
         aliasPass d K s = matched m ++ aliasPass d K rest)
  /\ (forall K d s m rest,
         exec_at linkRegex false s = Some (m, rest) ->
         set_has K (matched m) = false ->
         plainPass d K s = matched m ++ plainPass d K rest)
  /\ (forall settings file K v content,
         vault_read file v = (Some content, v) ->
         cleanBrokenWikilinks settings content K = content ->
         cleanFile settings file K v = (Some false, v)).
Proof.
  split; [|split; [|split; [|split]]].
  - intros T K d Ha Hl. unfold clean, cleanBrokenWikilinks. cbn [deleteText].
    assert (aliasPass d K T = T) as ->.
    { apply replace_all_same. intros m Hm. now apply aliasReplacer_kept, Ha. }
    assert (plainPass d K T = T) as ->.
    { apply replace_all_same. intros m Hm. now apply plainReplacer_kept, Hl. }
    now rewrite jstring_eqb_refl.
  - intros K d pre body post Hpre Hne Hb Hak Hpk.
    now apply clean_around_kept_link.
  - intros K d s m rest E HK.
    now rewrite (aliasPass_hit d K _ _ _ E), aliasReplacer_kept.
  - intros K d s m rest E HK.
    now rewrite (plainPass_hit d K _ _ _ E), plainReplacer_kept.
  - intros settings file K v content Hr Hc.
    unfold cleanFile, try_catch, bind. rewrite Hr, Hc, jstring_eqb_refl.
    reflexivity.
Qed.

Lemma clean_frame_witness :
  clean (str "see [[Home]] and [[a|b]]") [str "[[x]]"] false
  = (str "see [[Home]] and [[a|b]]", false)
  /\ fst (clean (str "x [[a|b]] " ++ bracket (str "Home|h") ++ str " [[a]] y")
            [str "[[a]]"] false)
     = fst (clean (str "x [[a|b]] ") [str "[[a]]"] false)
       ++ bracket (str "Home|h")
       ++ fst (clean (str " [[a]] y") [str "[[a]]"] false)
  /\ aliasPass true [str "[[x]]"] (str "[[a|b]] z")
     = str "[[a|b]]" ++ aliasPass true [str "[[x]]"] (str " z")
  /\ plainPass true [str "[[x]]"] (str "[[Home]] z")
     = str "[[Home]]" ++ plainPass true [str "[[x]]"] (str " z")
  /\ cleanFile DEFAULT_SETTINGS (note "Home.md") [str "[[x]]"] vault_home
     = (Some false, vault_home).
Proof.
  destruct clean_frame as (H1 & H2 & H3 & H4 & H5).
  split; [|split; [|split; [|split]]].
  - apply H1; intros m Hm; vm_compute in Hm;
      repeat (destruct Hm as [<-|Hm]; [reflexivity|]); destruct Hm.
  - apply (H2 [str "[[a]]"] false (str "x [[a|b]] ") (str "Home|h") (str " [[a]] y")).
    + change (str "x [[a|b]] ")
        with (120%N :: 32%N :: bracket (str "a|b") ++ [32%N]).
      apply shaped_chr; [discriminate|].
      apply shaped_chr; [discriminate|].
      apply shaped_link; [discriminate | repeat constructor; discriminate | exact I |].
      apply shaped_chr; [discriminate|]. apply shaped_nil.
    + discriminate.
    + repeat constructor; discriminate.
    + apply (alias_kept_alias [str "[[a]]"] (str "Home") (str "h")); [|reflexivity].
      intros H; vm_compute in H; intuition discriminate.
    + reflexivity.
  - apply (H3 [str "[[x]]"] true (str "[[a|b]] z")
              (RMatch (str "[[a|b]]") [str "a"; str "b"]) (str " z"));
      reflexivity.
  - apply (H4 [str "[[x]]"] true (str "[[Home]] z")
              (RMatch (str "[[Home]]") [str "Home"]) (str " z"));
      reflexivity.
  - apply (H5 DEFAULT_SETTINGS (note "Home.md") [str "[[x]]"] vault_home
              (str "see [[Home]] and [[a|b]]")); reflexivity.
Defined.

(** C1 fails as stated.  The registry document [- [[x|y]]] loads the key
    [[[x|y]]]; the text [[[x|y]]] has one link, its target is [x], its key
    [[[x]]] is not in the set, and the plain pass rewrites it all the same.
    And with the key [[[b]]], the link [[[|[[b|c]]], whose target is empty,
    is altered by the alias pass, which matches inside it. *)
Lemma clean_alters_unlisted_link :
  parseLines lineKey (str "- [[x|y]]") = [str "[[x|y]]"]
  /\ match_all linkRegex (str "[[x|y]]") = [str "[[x|y]]"]
  /\ split_first pipe (slice_2_m2 (str "[[x|y]]")) = str "x"
  /\ set_has [str "[[x|y]]"] (bracket (str "x")) = false
  /\ clean (str "[[x|y]]") [str "[[x|y]]"] false = (str "x|y", true)
  /\ includes (str "[[x|y]]") (str "x|y") = false
  /\ match_all linkRegex (str "[[|[[b|c]]") = [str "[[|[[b|c]]"]
  /\ split_first pipe (slice_2_m2 (str "[[|[[b|c]]")) = []
  /\ set_has [str "[[b]]"] (bracket []) = false
  /\ clean (str "[[|[[b|c]]") [str "[[b]]"] false = (str "[[|c", true)
  /\ includes (str "[[|[[b|c]]") (str "[[|c") = false.
Proof. vm_compute. repeat split. Qed.

(** ** The registry loader *)

Lemma space_or_dash_true (c : char) :
  space_or_dash c = true <-> is_space c = true \/ c = dash.
Proof.
  unfold space_or_dash. rewrite orb_true_iff, chr_eqb_eq. reflexivity.
Qed.


Lemma str_match_list (line : jstring) :
  str_match listRegex line = option_map fst (exec_at listRegex true line).
Proof. apply search_anchored, list_anchored. Qed.

Lemma str_match_report (line : jstring) :
  str_match reportFormatRegex line
  = option_map fst (exec_at reportFormatRegex true line).
Proof. apply search_anchored, report_anchored. Qed.

(** A key of the loader is the bracketed link of a list item. *)
Lemma lineKey_shape (line k : jstring) :
  lineKey line = Some k ->
  exists ws body rest,
    Forall (fun c => space_or_dash c = true) ws
    /\ body <> [] /\ Forall (fun c => not_rbr c = true) body
    /\ line = ws ++ bracket body ++ rest /\ k = bracket body.
Proof.
  unfold lineKey.
  destruct (startsWith [hash] (trim line) || (length (trim line) =? 0));
    [discriminate|].
  rewrite str_match_report, str_match_list.
  destruct (exec_at reportFormatRegex true line) as [[m r]|] eqn:Er; simpl.
  - intros H. injection H as <-.
    apply report_inv in Er as (ws & body & rest & Hws & Hne & Hb & -> & Hc).
    exists ws, body, rest. unfold capture. rewrite Hc. now repeat split.
  - destruct (exec_at listRegex true line) as [[m r]|] eqn:El; simpl;
      [|discriminate].
    intros H. injection H as <-.
    apply list_inv in El as (ws & body & Hws & Hne & Hb & -> & ->).
    exists ws, body, r. now repeat split.
Qed.

Lemma lineKey_legacy_shape (line k : jstring) :
  lineKey_legacy line = Some k ->
  exists pre body rest,
    Forall (fun c => not_rbr c = true) body /\ body <> []
    /\ line = pre ++ bracket body ++ rest /\ k = bracket body
    /\ str_match linkRegex line = Some (RMatch k [body]).
Proof.
  unfold lineKey_legacy. rewrite str_match_list.
  destruct (exec_at listRegex true line) as [[m r]|] eqn:El; simpl.
  - intros H. injection H as <-.
    apply list_inv in El as (ws & body & Hws & Hne & Hb & -> & ->).
    exists ws, body, r. repeat split; auto.
    apply search_link_first; auto.
    eapply Forall_impl; [|exact Hws]. intros c Hc ->. discriminate Hc.
  - destruct (str_match linkRegex line) as [m|] eqn:Es; [|discriminate].
    destruct (negb (includes (str " in ") line)); [|discriminate].
    intros H. injection H as <-.
    apply search_inv in Es as (pre & suffix & rest & b & -> & E).
    apply link_inv in E as (body & Hne & Hb & -> & ->).
    exists pre, body, rest. now repeat split.
Qed.

Lemma drop_while_snoc (p : char -> bool) (u : jstring) (c : char) :
  p c = false -> drop_while p (u ++ [c]) = drop_while p u ++ [c].
Proof.
  intros Hc. induction u as [|a u IH]; simpl.
  - now rewrite Hc.
  - destruct (p a); [exact IH | reflexivity].
Qed.

Lemma trim_end_cons (c : char) (x : jstring) :
  is_space c = false -> trim_end (c :: x) = c :: trim_end x.
Proof.
  intros Hc. unfold trim_end. simpl rev.
  rewrite drop_while_snoc by exact Hc. now rewrite rev_app_distr.
Qed.



Lemma trim_list_item (ws x : jstring) :
  Forall (fun c => space_or_dash c = true) ws ->
  exists c y, trim (ws ++ lbr :: x) = c :: y /\ c <> hash.
Proof.
  intros H. unfold trim, trim_start.
  induction H as [|a ws Ha _ IH]; simpl.
  - exists lbr, (trim_end x). split; [now apply trim_end_cons | discriminate].
  - destruct (is_space a) eqn:Es; [exact IH|].
    apply space_or_dash_true in Ha as [Ha| ->]; [congruence|].
    exists dash, (trim_end (ws ++ lbr :: x)).
    split; [now apply trim_end_cons | discriminate].
Qed.

(** Every list item gives its link. *)
Lemma lineKey_list_item (ws body rest : jstring) :
  Forall (fun c => space_or_dash c = true) ws ->
  body <> [] -> Forall (fun c => not_rbr c = true) body ->
  lineKey (ws ++ bracket body ++ rest) = Some (bracket body)
  /\ lineKey_legacy (ws ++ bracket body ++ rest) = Some (bracket body).
Proof.
  intros Hws Hne Hb. split.
  - unfold lineKey.
    destruct (trim_list_item ws (lbr :: body ++ rbr :: rbr :: rest) Hws)
      as (c & y & Et & Hc).
    rewrite bracket_app in *. rewrite Et. cbn [startsWith length Nat.eqb orb].
    apply chr_eqb_neq in Hc. unfold chr_eqb in *.
    rewrite N.eqb_sym, Hc. cbn [andb].
    rewrite <- bracket_app, str_match_report, str_match_list.
    rewrite (list_exec ws body rest Hws Hne Hb).
    destruct (exec_at reportFormatRegex true (ws ++ bracket body ++ rest))
      as [[m r]|] eqn:Er; [|reflexivity].
    apply report_inv in Er as (ws' & body' & rest' & Hws' & _ & Hb' & E & Hc').
    simpl. unfold capture. rewrite Hc'. cbn [Nat.sub nth].
    rewrite !bracket_app in E.
    apply (split_unique space_or_dash) in E as (_ & _ & E); auto.
    injection E as E.
    apply (split_unique not_rbr) in E as (-> & _ & _); auto.
  - unfold lineKey_legacy. rewrite str_match_list.
    now rewrite (list_exec ws body rest Hws Hne Hb).
Qed.

(** The set the loader returns holds the keys of the lines, no more. *)
Lemma set_add_in (K : JSSet) (k x : jstring) :
  In x (set_add K k) <-> In x K \/ x = k.
Proof.
  unfold set_add. destruct (set_has K k) eqn:E.
  - split; [auto|]. intros [H| ->]; [exact H|].
    unfold set_has in E. apply existsb_exists in E as (y & Hy & Ey).
    apply jstring_eqb_eq in Ey. now subst.
  - rewrite in_app_iff. simpl. intuition.
Qed.

Lemma fold_addLine_in (key : jstring -> option jstring) (lines : list jstring)
    (acc : JSSet) (k : jstring) :
  In k (fold_left (addLine key) lines acc)
  <-> In k acc \/ exists line, In line lines /\ key line = Some k.
Proof.
  revert acc. induction lines as [|l lines IH]; intros acc; simpl.
  - split; [auto|]. intros [H|(line & [] & _)]. exact H.
  - rewrite IH. unfold addLine. destruct (key l) as [k'|] eqn:E.
    + rewrite set_add_in. split.
      * intros [[H| ->]|(line & Hl & Hk)]; eauto.
      * intros [H|(line & [<-|Hl] & Hk)]; eauto.
        rewrite E in Hk. injection Hk as ->. auto.
    + split.
      * intros [H|(line & Hl & Hk)]; eauto.
      * intros [H|(line & [<-|Hl] & Hk)]; eauto. congruence.
Qed.

Lemma parseLines_in (key : jstring -> option jstring) (content k : jstring) :
  In k (parseLines key content)
  <-> exists line, In line (split_on nl content) /\ key line = Some k.
Proof.
  unfold parseLines. rewrite fold_addLine_in. split; [|auto].
  now intros [[]|H].
Qed.

Lemma loadWith_keys (key : jstring -> option jstring)
    (settings : BrokenLinksCleanerSettings) (v v' : Vault) (K : JSSet) (k : jstring) :
  loadWith key settings v = (Some K, v') -> In k K ->
  exists line, key line = Some k.
Proof.
  unfold loadWith, bind, getAbstractFileByPath, vault_read, ret, throw.
  destruct (lookup_doc (brokenLinksFile settings) (docs v)) as [[f c]|].
  - destruct (read_fails v (path f)); [discriminate|].
    destruct (lookup_doc (path f) (docs v)) as [[f' c']|]; [|discriminate].
    intros H. injection H as <- _. intros Hin.
    apply parseLines_in in Hin as (line & _ & Hk). eauto.
  - destruct (existsb (jstring_eqb (brokenLinksFile settings)) (folders v));
      intros H; injection H as <- _; intros [].
Qed.

Lemma lookup_doc_path (p : jstring) (ds : list (TFile * jstring)) (f : TFile) (c : jstring) :
  lookup_doc p ds = Some (f, c) -> path f = p.
Proof.
  induction ds as [|[f' c'] ds IH]; simpl; [discriminate|].
  destruct (jstring_eqb p (path f')) eqn:E; [|exact IH].
  intros H. injection H as <- _. symmetry. now apply jstring_eqb_eq.
Qed.

(** Loading reads the configured file and parses its lines. *)
Lemma loadWith_reads (key : jstring -> option jstring)
    (settings : BrokenLinksCleanerSettings) (v : Vault) (f : TFile) (content : jstring) :
  lookup_doc (brokenLinksFile settings) (docs v) = Some (f, content) ->
  read_fails v (path f) = false ->
  loadWith key settings v = (Some (parseLines key content), v).
Proof.
  intros Hl Hr. unfold loadWith, bind, getAbstractFileByPath, vault_read, ret, throw.
  rewrite Hl, Hr, (lookup_doc_path _ _ _ _ Hl), Hl. reflexivity.
Qed.

(** C2.  The loader takes the first bracketed expression of a line and no
    other.  The line [- [[Foo]] in [[Bar.md]], [[Baz.md]]] gives the key
    [[[Foo]]] alone, a document that has this line loads to a set with
    [[[Foo]]] in it, and the document of this one line loads to that key
    only.  So does every line of the report form, and the key of any line is
    the leftmost link of the line.  All of it holds of the loader and of the
    loader of the earlier revision. *)
Theorem loader_takes_first_link :
  (lineKey (str "- [[Foo]] in [[Bar.md]], [[Baz.md]]") = Some (str "[[Foo]]")
   /\ lineKey_legacy (str "- [[Foo]] in [[Bar.md]], [[Baz.md]]") = Some (str "[[Foo]]"))
  /\ (forall settings v f content,
         lookup_doc (brokenLinksFile settings) (docs v) = Some (f, content) ->
         read_fails v (path f) = false ->
         In (str "- [[Foo]] in [[Bar.md]], [[Baz.md]]") (split_on nl content) ->
         exists K K',
           loadBrokenLinks settings v = (Some K, v) /\ In (str "[[Foo]]") K
           /\ loadBrokenLinks_legacy settings v = (Some K', v) /\ In (str "[[Foo]]") K')
  /\ (parseLines lineKey (str "- [[Foo]] in [[Bar.md]], [[Baz.md]]") = [str "[[Foo]]"]
      /\ parseLines lineKey_legacy (str "- [[Foo]] in [[Bar.md]], [[Baz.md]]")
         = [str "[[Foo]]"])
  /\ (forall target paths,
         target <> [] -> ~ In rbr target ->
         lineKey (str "- " ++ bracket target ++ str " in "
                  ++ join (str ", ") (map bracket paths))
         = Some (bracket target)
         /\ lineKey_legacy (str "- " ++ bracket target ++ str " in "
                            ++ join (str ", ") (map bracket paths))
            = Some (bracket target))
  /\ (forall line k,
         lineKey line = Some k \/ lineKey_legacy line = Some k ->
         exists body, str_match linkRegex line = Some (RMatch k [body])).
Proof.
  split; [split; reflexivity|]. split; [|split; [split; reflexivity|split]].
  - intros settings v f content Hl Hr Hin.
    exists (parseLines lineKey content), (parseLines lineKey_legacy content).
    unfold loadBrokenLinks, loadBrokenLinks_legacy.
    rewrite !(loadWith_reads _ settings v f content Hl Hr).
    repeat split; apply parseLines_in;
      exists (str "- [[Foo]] in [[Bar.md]], [[Baz.md]]"); now split.
  - intros target paths Hne Hr.
    apply (lineKey_list_item (str "- ") target); [| exact Hne | now apply no_rbr_Forall].
    repeat constructor.
  - intros line k [H|H].
    + apply lineKey_shape in H as (ws & body & rest & Hws & Hne & Hb & -> & ->).
      exists body. apply search_link_first; auto.
      eapply Forall_impl; [|exact Hws]. intros c Hc ->. discriminate Hc.
    + apply lineKey_legacy_shape in H as (pre & body & rest & _ & _ & _ & _ & H).
      now exists body.
Qed.

Lemma loader_takes_first_link_witness :
  (exists K K',
      loadBrokenLinks DEFAULT_SETTINGS
        (mkVault [(note "broken links output.md",
                   str "- [[Foo]] in [[Bar.md]], [[Baz.md]]")] [] [] never never)
      = (Some K,
         mkVault [(note "broken links output.md",
                   str "- [[Foo]] in [[Bar.md]], [[Baz.md]]")] [] [] never never)
      /\ In (str "[[Foo]]") K
      /\ loadBrokenLinks_legacy DEFAULT_SETTINGS
           (mkVault [(note "broken links output.md",
                      str "- [[Foo]] in [[Bar.md]], [[Baz.md]]")] [] [] never never)
         = (Some K',
            mkVault [(note "broken links output.md",
                      str "- [[Foo]] in [[Bar.md]], [[Baz.md]]")] [] [] never never)
      /\ In (str "[[Foo]]") K')
  /\ lineKey (str "- " ++ bracket (str "a b") ++ str " in "
              ++ join (str ", ") (map bracket [str "x.md"; str "y.md"]))
     = Some (bracket (str "a b"))
  /\ exists body,
       str_match linkRegex (str "  - [[Foo]] and [[Bar]]")
       = Some (RMatch (str "[[Foo]]") [body]).
Proof.
  destruct loader_takes_first_link as (_ & H2 & _ & H4 & H5).
  split; [|split].
  - apply (H2 DEFAULT_SETTINGS _ (note "broken links output.md")
              (str "- [[Foo]] in [[Bar.md]], [[Baz.md]]"));
      [reflexivity | reflexivity | now left].
  - apply (H4 (str "a b") [str "x.md"; str "y.md"]); [discriminate|].
    intros H; vm_compute in H; intuition discriminate.
  - apply (H5 (str "  - [[Foo]] and [[Bar]]") (str "[[Foo]]")). left. reflexivity.
Defined.





(** C10.  Every element of the set the loader returns is [[[s]]] for an [s]
    that is not empty and has no []], whatever the registry document holds;
    the same holds of the loader of the earlier revision. *)
Theorem registry_keys_bracketed
    (settings : BrokenLinksCleanerSettings) (v v' : Vault) (K : JSSet) (k : jstring) :
  loadBrokenLinks settings v = (Some K, v')
  \/ loadBrokenLinks_legacy settings v = (Some K, v') ->
  In k K ->
  exists s, k = bracket s /\ s <> [] /\ ~ In rbr s.
Proof.
  intros [H|H] Hin.
  - destruct (loadWith_keys _ _ _ _ _ k H Hin) as (line & Hk).
    apply lineKey_shape in Hk as (ws & body & rest & _ & Hne & Hb & _ & ->).
    exists body. repeat split; auto. now apply no_rbr_Forall.
  - destruct (loadWith_keys _ _ _ _ _ k H Hin) as (line & Hk).
    apply lineKey_legacy_shape in Hk as (pre & body & rest & Hb & Hne & _ & -> & _).
    exists body. repeat split; auto. now apply no_rbr_Forall.
Qed.

Lemma registry_keys_bracketed_witness :
  exists s, str "[[x|y]]" = bracket s /\ s <> [] /\ ~ In rbr s.
Proof.
  apply (registry_keys_bracketed DEFAULT_SETTINGS
           (mkVault [(note "broken links output.md",
                      str "# junk ]] [[
- [[Foo]] in [[Bar.md]]
 -- [[x|y]] [[z]]")] [] [] never never)
           (mkVault [(note "broken links output.md",
                      str "# junk ]] [[
- [[Foo]] in [[Bar.md]]
 -- [[x|y]] [[z]]")] [] [] never never)
           [str "[[Foo]]"; str "[[x|y]]"]).
  - left. reflexivity.
  - right. now left.
Defined.

(** ** Cleaning files *)

Lemma lookup_doc_app (p : jstring) (done rest : list (TFile * jstring)) :
  ~ In p (paths_of done) -> lookup_doc p (done ++ rest) = lookup_doc p rest.
Proof.
  induction done as [|[f c] done IH]; simpl; [reflexivity|].
  intros H. destruct (jstring_eqb p (path f)) eqn:E.
  - apply jstring_eqb_eq in E. exfalso. apply H. now left.
  - apply IH. intros Hin. apply H. now right.
Qed.

Lemma store_doc_app (p data : jstring) (done rest : list (TFile * jstring)) :
  ~ In p (paths_of done) ->
  store_doc p data (done ++ rest) = done ++ store_doc p data rest.
Proof.
  induction done as [|[f c] done IH]; simpl; [reflexivity|].
  intros H. destruct (jstring_eqb p (path f)) eqn:E.
  - apply jstring_eqb_eq in E. exfalso. apply H. now left.
  - f_equal. apply IH. intros Hin. apply H. now right.
Qed.

(** [cleanFile], case by case. *)
Lemma cleanFile_cases (settings : BrokenLinksCleanerSettings) (f : TFile)
    (K : JSSet) (v : Vault) :
  cleanFile settings f K v =
  if read_fails v (path f) then (Some false, v)
  else
    match lookup_doc (path f) (docs v) with
    | None => (Some false, v)
    | Some (_, content) =>
        let cleaned := cleanBrokenWikilinks settings content K in
        if jstring_eqb content cleaned then (Some false, v)
        else if write_fails v (path f) then (Some false, v)
        else (Some true,
              mkVault (store_doc (path f) cleaned (docs v)) (folders v)
                      (written v ++ [path f]) (read_fails v) (write_fails v))
    end.
Proof.
  unfold cleanFile, try_catch, bind, vault_read, vault_modify, ret, throw.
  destruct (read_fails v (path f)); [reflexivity|].
  destruct (lookup_doc (path f) (docs v)) as [[f' content]|] eqn:El; [|reflexivity].
  cbv zeta.
  destruct (jstring_eqb content (cleanBrokenWikilinks settings content K));
    [reflexivity|]. cbn [negb].
  destruct (write_fails v (path f)); [reflexivity|].
  rewrite El. reflexivity.
Qed.

Lemma cleanEach_loop (settings : BrokenLinksCleanerSettings) (K : JSSet)
    (fo : list jstring) (rf wf : jstring -> bool) :
  forall (todo done : list (TFile * jstring)) (acc : nat) (w : list jstring),
    NoDup (paths_of (done ++ todo)) ->
    exists n w',
      for_of (map fst todo)
        (fun cleanedCount file =>
           bind (cleanFile settings file K)
                (fun cleaned => ret (if cleaned then S cleanedCount else cleanedCount)))
        acc (mkVault (done ++ todo) fo w rf wf)
      = (Some n,
         mkVault (done ++ map (after_clean settings K rf wf) todo) fo w' rf wf).
Proof.
  induction todo as [|[f c] todo IH]; intros done acc w Hnd.
  - exists acc, w. reflexivity.
  - assert (~ In (path f) (paths_of done)) as Hf.
    { unfold paths_of in Hnd. rewrite map_app in Hnd.
      apply NoDup_remove_2 in Hnd. intros H. apply Hnd.
      apply in_or_app. now left. }
    assert (forall c', NoDup (paths_of ((done ++ [(f, c')]) ++ todo))) as Hnd'.
    { intros c'. unfold paths_of in *. rewrite <- app_assoc. simpl.
      now rewrite map_app in *. }
    assert (forall c' acc' w0,
               after_clean settings K rf wf (f, c) = (f, c') ->
               exists n w',
                 for_of (map fst todo)
                   (fun cleanedCount file =>
                      bind (cleanFile settings file K)
                           (fun cleaned =>
                              ret (if cleaned then S cleanedCount else cleanedCount)))
                   acc' (mkVault (done ++ (f, c') :: todo) fo w0 rf wf)
                 = (Some n,
                    mkVault (done ++ map (after_clean settings K rf wf) ((f, c) :: todo))
                            fo w' rf wf)) as Hgo.
    { intros c' acc' w0 Eg.
      destruct (IH (done ++ [(f, c')]) acc' w0 (Hnd' c')) as (n & w' & E).
      rewrite <- !app_assoc in E. simpl in E. exists n, w'. rewrite E.
      cbn [map]. now rewrite Eg. }
    cbn [map fst for_of]. unfold bind at 1. unfold bind at 1.
    rewrite cleanFile_cases. cbn [read_fails write_fails docs folders written].
    rewrite (lookup_doc_app _ _ _ Hf). cbn [lookup_doc]. rewrite jstring_eqb_refl.
    cbv zeta.
    destruct (rf (path f)) eqn:Er.
    { unfold ret at 1. cbv beta iota. apply Hgo.
      unfold after_clean. cbn [fst snd]. now rewrite Er. }
    destruct (jstring_eqb c (cleanBrokenWikilinks settings c K)) eqn:Ec.
    { unfold ret at 1. cbv beta iota. apply Hgo.
      unfold after_clean. cbn [fst snd]. rewrite Er. apply jstring_eqb_eq in Ec.
      destruct (wf (path f)); cbn [orb]; congruence. }
    destruct (wf (path f)) eqn:Ew.
    { unfold ret at 1. cbv beta iota. apply Hgo.
      unfold after_clean. cbn [fst snd]. now rewrite Er, Ew. }
    rewrite (store_doc_app _ _ _ _ Hf). cbn [store_doc]. rewrite jstring_eqb_refl.
    unfold ret at 1. cbv beta iota. apply Hgo.
    unfold after_clean. cbn [fst snd]. now rewrite Er, Ew.
Qed.

(** C8.  A read or a write that fails on one document is caught in
    [cleanFile], which leaves the vault as it is and reports the document as
    not cleaned; [cleanFile] never throws.  So the whole-vault clean goes
    through every document: with the registry loaded, it ends normally and
    leaves each document cleaned, except those whose read or write fails,
    which keep their content. *)
Theorem clean_survives_failures (settings : BrokenLinksCleanerSettings) (K : JSSet) :
  (forall file v,
      read_fails v (path file) = true \/ write_fails v (path file) = true ->
      cleanFile settings file K v = (Some false, v))
  /\ (forall file v, exists cleaned v', cleanFile settings file K v = (Some cleaned, v'))
  /\ (forall v,
         NoDup (paths_of (docs v)) ->
         loadBrokenLinks settings v = (Some K, v) -> K <> [] ->
         exists n v',
           cleanAllFiles settings v = (Some (Some (n, length (docs v))), v')
           /\ docs v'
              = map (after_clean settings K (read_fails v) (write_fails v)) (docs v)).
Proof.
  split; [|split].
  - intros file v H. rewrite cleanFile_cases.
    destruct (read_fails v (path file)); [reflexivity|].
    destruct H as [H|H]; [discriminate|].
    destruct (lookup_doc (path file) (docs v)) as [[f c]|]; [|reflexivity].
    cbv zeta. destruct (jstring_eqb c (cleanBrokenWikilinks settings c K));
      [reflexivity|]. now rewrite H.
  - intros file v. rewrite cleanFile_cases.
    destruct (read_fails v (path file)); [eauto|].
    destruct (lookup_doc (path file) (docs v)) as [[f c]|]; [|eauto].
    cbv zeta. destruct (jstring_eqb c (cleanBrokenWikilinks settings c K));
      [eauto|]. destruct (write_fails v (path file)); eauto.
  - intros v Hnd Hload HK.
    unfold cleanAllFiles. unfold bind at 1. rewrite Hload.
    destruct K as [|k K]; [contradiction|]. cbn [set_size length Nat.eqb].
    unfold bind at 1. unfold getMarkdownFiles at 1. unfold bind at 1.
    unfold cleanEach. destruct v as [ds fo w rf wf].
    cbn [docs read_fails write_fails] in *.
    destruct (cleanEach_loop settings (k :: K) fo rf wf ds [] 0 w Hnd)
      as (n & w' & E).
    simpl app in E. rewrite E. unfold ret. rewrite length_map.
    exists n. eexists. split; reflexivity.
Qed.

Lemma clean_survives_failures_witness :
  cleanFile DEFAULT_SETTINGS (note "a.md") [str "[[Foo]]"] vault_faulty
  = (Some false, vault_faulty)
  /\ cleanFile DEFAULT_SETTINGS (note "b.md") [str "[[Foo]]"] vault_faulty
     = (Some false, vault_faulty)
  /\ exists n v',
       cleanAllFiles DEFAULT_SETTINGS vault_faulty = (Some (Some (n, 4)), v')
       /\ docs v'
          = map (after_clean DEFAULT_SETTINGS [str "[[Foo]]"]
                   (read_fails vault_faulty) (write_fails vault_faulty))
                (docs vault_faulty).
Proof.
  destruct (clean_survives_failures DEFAULT_SETTINGS [str "[[Foo]]"]) as (H1 & _ & H3).
  split; [|split].
  - apply H1. left. reflexivity.
  - apply H1. right. reflexivity.
  - apply (H3 vault_faulty); [| reflexivity | discriminate].
    repeat constructor; intros H; vm_compute in H; intuition discriminate.
Defined.

(** The whole-vault clean on the faulty vault, run: [c.md] and the registry
    are cleaned, [a.md] and [b.md] are as they were. *)
Lemma clean_faulty_vault_run :
  exists v',
    cleanAllFiles DEFAULT_SETTINGS vault_faulty = (Some (Some (2, 4)), v')
    /\ map snd (docs v') = [str "[[Foo]] a"; str "[[Foo]] b"; str "Foo c"; str "- Foo"]
    /\ written v' = [str "c.md"; str "broken links output.md"].
Proof. eexists. repeat split. Qed.

(** ** The scan and the orphan analyser, run *)

Lemma slice_bracket (t : jstring) : slice_2_m2 (bracket t) = t.
Proof.
  unfold slice_2_m2, bracket. cbn [skipn length].
  rewrite length_app. cbn [length].
  replace (S (S (length t + 2)) - 2 - 2) with (length t) by lia.
  now rewrite firstn_app, firstn_all, Nat.sub_diag, app_nil_r.
Qed.

Lemma split_first_no_pipe (t : jstring) : ~ In pipe t -> split_first pipe t = t.
Proof.
  unfold split_first. induction t as [|c t IH]; intros H; [reflexivity|].
  cbn [split_on]. destruct (chr_eqb c pipe) eqn:E.
  - apply chr_eqb_eq in E. exfalso. apply H. now left.
  - assert (~ In pipe t) as Ht by (intros Hin; apply H; now right).
    specialize (IH Ht). destruct (split_on pipe t); simpl in *; congruence.
Qed.

Lemma split_first_alias (t d : jstring) :
  ~ In pipe t -> split_first pipe (t ++ pipe :: d) = t.
Proof.
  unfold split_first. induction t as [|c t IH]; intros H.
  - reflexivity.
  - rewrite <- app_comm_cons. cbn [split_on]. destruct (chr_eqb c pipe) eqn:E.
    + apply chr_eqb_eq in E. exfalso. apply H. now left.
    + assert (~ In pipe t) as Ht by (intros Hin; apply H; now right).
      specialize (IH Ht). destruct (split_on pipe (t ++ pipe :: d)); simpl in *;
        congruence.
Qed.

(** Two links with the same target text get the same key from the scan,
    whatever the display text: the key is the trimmed target in brackets. *)
Lemma scan_key_of_target (t d : jstring) :
  ~ In pipe t ->
  scanLinkText (bracket (t ++ pipe :: d)) = trim t
  /\ scanLinkText (bracket t) = trim t.
Proof.
  intros H. unfold scanLinkText. rewrite !slice_bracket.
  now rewrite split_first_alias, split_first_no_pipe.
Qed.

(** C3, on the code.  The note [Home.md] holds [see [[ Foo ]]] and no note
    is named [Foo].  The scan counts the link broken under the key
    [[[Foo]]] and writes the report; the registry loaded from the report is
    that one key; cleaning with it leaves [Home.md] as it is, the link still
    in it: the rewriter looks up [[[ Foo ]]], blanks and all. *)
Theorem scan_then_clean_misses_padded_link :
  exists v1 v2,
    scanFiles no_target [note "Home.md"] vault_padded
    = (Some ([(str "[[Foo]]", [str "Home.md"])], 1), vault_padded)
    /\ scanAndGenerateBrokenLinks DEFAULT_SETTINGS no_target a_date vault_padded
       = (Some tt, v1)
    /\ lookup_doc (str "broken links output.md") (docs v1)
       = Some (note "broken links output.md",
               reportContent a_date [(str "[[Foo]]", [str "Home.md"])] 1)
    /\ loadBrokenLinks DEFAULT_SETTINGS v1 = (Some [str "[[Foo]]"], v1)
    /\ cleanBrokenWikilinks DEFAULT_SETTINGS (str "see [[ Foo ]]") [str "[[Foo]]"]
       = str "see [[ Foo ]]"
    /\ cleanFile DEFAULT_SETTINGS (note "Home.md") [str "[[Foo]]"] v1 = (Some false, v1)
    /\ cleanAllFiles DEFAULT_SETTINGS v1 = (Some (Some (1, 2)), v2)
    /\ lookup_doc (str "Home.md") (docs v2) = Some (note "Home.md", str "see [[ Foo ]]").
Proof.
  do 2 eexists.
  split; [vm_compute; reflexivity|]. split; [vm_compute; reflexivity|].
  split; [vm_compute; reflexivity|]. split; [vm_compute; reflexivity|].
  split; [vm_compute; reflexivity|]. split; [vm_compute; reflexivity|].
  split; vm_compute; reflexivity.
Qed.

(** *** What the orphan analyser computes *)

Lemma map_has_push (m : JSMap) (k x p : jstring) :
  map_has (map_push m k x) p = map_has m p.
Proof.
  induction m as [|[k' vs] m IH]; simpl; [reflexivity|].
  destruct (jstring_eqb k k'); simpl; [reflexivity | now rewrite IH].
Qed.

Lemma map_has_app (m m' : JSMap) (p : jstring) :
  map_has (m ++ m') p = map_has m p || map_has m' p.
Proof.
  induction m as [|[k vs] m IH]; simpl; [reflexivity|].
  now rewrite IH, orb_assoc.
Qed.

Lemma map_has_ensure (m : JSMap) (k p : jstring) :
  map_has (map_ensure m k) p = map_has m p || jstring_eqb p k.
Proof.
  unfold map_ensure. destruct (map_has m k) eqn:E.
  - destruct (jstring_eqb p k) eqn:Ep; [|now rewrite orb_false_r].
    apply jstring_eqb_eq in Ep. subst. now rewrite E.
  - rewrite map_has_app. simpl. now rewrite orb_false_r.
Qed.

Lemma map_has_recordLink (res : Resolver) (file : TFile) (m : JSMap) (link p : jstring) :
  map_has (recordLink res file m link) p = map_has m p || targets res file link p.
Proof.
  unfold recordLink, targets.
  destruct (res (split_first pipe (slice_2_m2 link)) (path file)) as [t|].
  - now rewrite map_has_push, map_has_ensure.
  - now rewrite orb_false_r.
Qed.

Lemma map_has_recordLinks (res : Resolver) (file : TFile) (links : list jstring)
    (m : JSMap) (p : jstring) :
  map_has (fold_left (recordLink res file) links m) p
  = map_has m p || existsb (fun link => targets res file link p) links.
Proof.
  revert m. induction links as [|l links IH]; intros m; simpl.
  - now rewrite orb_false_r.
  - now rewrite IH, map_has_recordLink, orb_assoc.
Qed.

Lemma lookup_doc_in (ds : list (TFile * jstring)) (f : TFile) (c : jstring) :
  NoDup (paths_of ds) -> In (f, c) ds -> lookup_doc (path f) ds = Some (f, c).
Proof.
  induction ds as [|[f' c'] ds IH]; intros Hnd Hin; [destruct Hin|].
  simpl in *. inversion Hnd as [|? ? Hn Hnd']; subst.
  destruct Hin as [H|Hin].
  - injection H as -> ->. now rewrite jstring_eqb_refl.
  - destruct (jstring_eqb (path f) (path f')) eqn:E; [|now apply IH].
    apply jstring_eqb_eq in E. exfalso. apply Hn. rewrite <- E.
    unfold paths_of. apply in_map_iff. now exists (f, c).
Qed.

Lemma incomingLinks_run (res : Resolver) (v : Vault) :
  NoDup (paths_of (docs v)) ->
  (forall d, In d (docs v) -> read_fails v (path (fst d)) = false) ->
  forall todo acc,
    incl todo (docs v) ->
    for_of (map fst todo)
      (fun allLinks file =>
         bind (vault_read file)
              (fun content =>
                 ret (fold_left (recordLink res file)
                                (match_all linkRegex content) allLinks)))
      acc v
    = (Some (fold_left
               (fun m d => fold_left (recordLink res (fst d))
                                     (match_all linkRegex (snd d)) m)
               todo acc), v).
Proof.
  intros Hnd Hread. induction todo as [|[f c] todo IH]; intros acc Hincl.
  - reflexivity.
  - cbn [map fst for_of fold_left snd]. unfold bind at 1. unfold bind at 1.
    unfold vault_read at 1.
    pose proof (Hread (f, c) (Hincl _ (or_introl eq_refl))) as Hr.
    cbn [fst] in Hr. rewrite Hr.
    rewrite (lookup_doc_in _ _ _ Hnd (Hincl _ (or_introl eq_refl))).
    unfold ret at 1. apply IH. intros d Hd. apply Hincl. now right.
Qed.

Lemma map_has_incoming (res : Resolver) (todo : list (TFile * jstring))
    (m : JSMap) (p : jstring) :
  map_has (fold_left
             (fun m d => fold_left (recordLink res (fst d))
                                   (match_all linkRegex (snd d)) m)
             todo m) p
  = map_has m p || is_target res todo p.
Proof.
  revert m. induction todo as [|d todo IH]; intros m; simpl.
  - now rewrite orb_false_r.
  - now rewrite IH, map_has_recordLinks, orb_assoc.
Qed.

(** When every document can be read, the orphans found are the documents
    whose path no link of any document resolves to, the document's own links
    among them. *)
Lemma orphans_are_never_targets (res : Resolver) (v : Vault) :
  NoDup (paths_of (docs v)) ->
  (forall d, In d (docs v) -> read_fails v (path (fst d)) = false) ->
  findOrphanFiles res v
  = (Some (filter (fun file => negb (is_target res (docs v) (path file)))
                  (map fst (docs v))), v).
Proof.
  intros Hnd Hread. unfold findOrphanFiles, incomingLinks.
  unfold bind at 1. unfold getMarkdownFiles at 1. unfold bind at 1.
  rewrite (incomingLinks_run res v Hnd Hread (docs v) [] (incl_refl _)).
  unfold ret. f_equal. f_equal. apply filter_ext. intros f.
  now rewrite map_has_incoming.
Qed.

(** C9, on the code.  [A.md] links to itself and nothing else links to it;
    [C.md] has no link.  [A.md] has no incoming link from another note, yet
    the orphans found are [C.md] alone: the link of [A.md] to itself counts
    as incoming. *)
Theorem self_link_hides_orphan :
  findOrphanFiles resolve_A vault_self = (Some [note "C.md"], vault_self)
  /\ incomingLinks resolve_A [note "A.md"; note "C.md"] vault_self
     = (Some [(str "A.md", [str "A.md"])], vault_self)
  /\ match_all linkRegex (str "no links") = [].
Proof. repeat split. Qed.

(** ** Loops that read every document

    The orphan analyser, the search for empty files and the scan read the
    documents one after the other and catch nothing. *)

Lemma read_loop {St} (step : St -> TFile -> jstring -> St) (v : Vault) :
  NoDup (paths_of (docs v)) ->
  (forall d, In d (docs v) -> read_fails v (path (fst d)) = false) ->
  forall todo acc,
    incl todo (docs v) ->
    for_of (map fst todo)
      (fun acc file =>
         bind (vault_read file) (fun content => ret (step acc file content)))
      acc v
    = (Some (fold_left (fun a d => step a (fst d) (snd d)) todo acc), v).
Proof.
  intros Hnd Hread. induction todo as [|[f c] todo IH]; intros acc Hincl.
  - reflexivity.
  - cbn [map fst for_of fold_left snd]. unfold bind at 1. unfold bind at 1.
    unfold vault_read at 1.
    pose proof (Hread (f, c) (Hincl _ (or_introl eq_refl))) as Hr.
    cbn [fst] in Hr. rewrite Hr.
    rewrite (lookup_doc_in _ _ _ Hnd (Hincl _ (or_introl eq_refl))).
    unfold ret at 1. apply IH. intros d Hd. apply Hincl. now right.
Qed.

Lemma read_loop_throws {St} (step : St -> TFile -> jstring -> St)
    (v : Vault) (f : TFile) :
  read_fails v (path f) = true ->
  forall files acc,
    In f files ->
    for_of files
      (fun acc file =>
         bind (vault_read file) (fun content => ret (step acc file content)))
      acc v
    = (None, v).
Proof.
  intros Hf. induction files as [|g files IH]; intros acc Hin; [destruct Hin|].
  cbn [for_of]. unfold bind at 1. unfold bind at 1. unfold vault_read at 1.
  destruct (read_fails v (path g)) eqn:Eg; [reflexivity|].
  destruct (lookup_doc (path g) (docs v)) as [[g' c]|]; [|reflexivity].
  unfold ret at 1. apply IH. destruct Hin as [->|Hin]; [congruence | exact Hin].
Qed.

(** ** Empty files *)

Lemma drop_while_nil (p : char -> bool) (s : jstring) :
  drop_while p s = [] <-> forallb p s = true.
Proof.
  induction s as [|c s IH]; simpl; [easy|].
  destruct (p c); simpl; [exact IH | easy].
Qed.

(** A text trims to nothing exactly when all its characters are blank. *)
Lemma trim_length_blank (s : jstring) :
  (length (trim s) =? 0) = forallb is_space s.
Proof.
  unfold trim, trim_start.
  destruct (drop_while is_space s) as [|c x] eqn:E.
  - apply drop_while_nil in E. now rewrite E.
  - pose proof (drop_while_head _ _ _ _ E) as Hc.
    rewrite trim_end_cons by exact Hc. simpl.
    destruct (forallb is_space s) eqn:Ef; [|reflexivity].
    apply drop_while_nil in Ef. congruence.
Qed.

Lemma fold_empty_files (todo : list (TFile * jstring)) (acc : list TFile) :
  fold_left
    (fun (a : list TFile) (d : TFile * jstring) =>
       if length (trim (snd d)) =? 0 then a ++ [fst d] else a)
    todo acc
  = acc ++ map fst (filter (fun d => forallb is_space (snd d)) todo).
Proof.
  revert acc. induction todo as [|[f c] todo IH]; intros acc; simpl.
  - now rewrite app_nil_r.
  - rewrite IH, trim_length_blank. destruct (forallb is_space c); [|reflexivity].
    simpl. now rewrite <- app_assoc.
Qed.

(** X1.  When every document can be read, the empty files found are the
    documents whose content has no character that is not white space or a
    line end, in the order of the vault; the vault is as it was. *)
Theorem empty_files_are_blank (v : Vault) :
  NoDup (paths_of (docs v)) ->
  (forall d, In d (docs v) -> read_fails v (path (fst d)) = false) ->
  findEmptyFiles v
  = (Some (map fst (filter (fun d => forallb is_space (snd d)) (docs v))), v).
Proof.
  intros Hnd Hread. unfold findEmptyFiles.
  unfold bind at 1. unfold getMarkdownFiles at 1.
  pose proof (read_loop
                (fun (emptyFiles : list TFile) file content =>
                   if length (trim content) =? 0 then emptyFiles ++ [file]
                   else emptyFiles)
                v Hnd Hread (docs v) [] (incl_refl _)) as E.
  cbv zeta. rewrite E. now rewrite fold_empty_files.
Qed.

Lemma empty_files_are_blank_witness :
  findEmptyFiles vault_blank = (Some [note "a.md"; note "c.md"], vault_blank).
Proof.
  apply (empty_files_are_blank vault_blank).
  - repeat constructor; intros H; vm_compute in H; intuition discriminate.
  - intros d Hd. reflexivity.
Defined.

(** X2.  A document that cannot be read stops the orphan analyser, the
    search for empty files and the scan: each of them throws, and the vault
    is as it was, no report written. *)
Theorem unreadable_document_aborts (settings : BrokenLinksCleanerSettings)
    (getFirstLinkpathDest : Resolver) (now : jstring) (v : Vault) (f : TFile) :
  In f (map fst (docs v)) ->
  read_fails v (path f) = true ->
  findOrphanFiles getFirstLinkpathDest v = (None, v)
  /\ findEmptyFiles v = (None, v)
  /\ scanAndGenerateBrokenLinks settings getFirstLinkpathDest now v = (None, v).
Proof.
  intros Hin Hf. split; [|split].
  - unfold findOrphanFiles, incomingLinks.
    unfold bind at 1. unfold getMarkdownFiles at 1. unfold bind at 1.
    now rewrite (read_loop_throws
                   (fun allLinks file content =>
                      fold_left (recordLink getFirstLinkpathDest file)
                                (match_all linkRegex content) allLinks)
                   v f Hf _ [] Hin).
  - unfold findEmptyFiles. unfold bind at 1. unfold getMarkdownFiles at 1.
    exact (read_loop_throws
             (fun (emptyFiles : list TFile) file content =>
                if length (trim content) =? 0 then emptyFiles ++ [file]
                else emptyFiles)
             v f Hf _ [] Hin).
  - unfold scanAndGenerateBrokenLinks, scanFiles.
    unfold bind at 1. unfold getMarkdownFiles at 1. unfold bind at 1.
    now rewrite (read_loop_throws
                   (fun acc file content =>
                      fold_left (checkLink getFirstLinkpathDest
                                   (existingFilesOf (map fst (docs v))) file)
                                (match_all linkRegex content) acc)
                   v f Hf _ ([], 0) Hin).
Qed.

Lemma unreadable_document_aborts_witness :
  findOrphanFiles no_target vault_faulty = (None, vault_faulty)
  /\ findEmptyFiles vault_faulty = (None, vault_faulty)
  /\ scanAndGenerateBrokenLinks DEFAULT_SETTINGS no_target a_date vault_faulty
     = (None, vault_faulty).
Proof.
  apply (unreadable_document_aborts DEFAULT_SETTINGS no_target a_date vault_faulty
           (note "a.md")).
  - now left.
  - reflexivity.
Defined.

(** ** Orphans *)

Lemma is_target_iff (res : Resolver) (ds : list (TFile * jstring)) (p : jstring) :
  is_target res ds p = true
  <-> exists d link t,
        In d ds /\ In link (match_all linkRegex (snd d))
        /\ res (split_first pipe (slice_2_m2 link)) (path (fst d)) = Some t
        /\ path t = p.
Proof.
  unfold is_target. rewrite existsb_exists. split.
  - intros (d & Hd & H). apply existsb_exists in H as (link & Hl & H).
    unfold targets in H.
    destruct (res (split_first pipe (slice_2_m2 link)) (path (fst d))) as [t|] eqn:E;
      [|discriminate].
    apply jstring_eqb_eq in H. exists d, link, t. auto.
  - intros (d & link & t & Hd & Hl & E & Hp). exists d. split; [exact Hd|].
    apply existsb_exists. exists link. split; [exact Hl|].
    unfold targets. rewrite E. apply jstring_eqb_eq. now symmetry.
Qed.

(** X3.  When every document can be read, the orphan analyser returns the
    files of the vault, in the order of the vault and each as often as the
    vault lists it, without those to whose path a link of some document
    resolves; the link text it resolves is what is between the brackets up
    to the first [|], and the links of a document to itself count.  The
    vault is as it was. *)
Theorem orphans_iff (getFirstLinkpathDest : Resolver) (v : Vault) :
  NoDup (paths_of (docs v)) ->
  (forall d, In d (docs v) -> read_fails v (path (fst d)) = false) ->
  exists (orphanFiles : list TFile) (linked : TFile -> bool),
    findOrphanFiles getFirstLinkpathDest v = (Some orphanFiles, v)
    /\ orphanFiles = filter (fun file => negb (linked file)) (map fst (docs v))
    /\ (forall file,
           linked file = true
           <-> exists d link targetFile,
                 In d (docs v) /\ In link (match_all linkRegex (snd d))
                 /\ getFirstLinkpathDest (split_first pipe (slice_2_m2 link))
                                         (path (fst d)) = Some targetFile
                 /\ path targetFile = path file)
    /\ forall file,
         In file orphanFiles
         <-> In file (map fst (docs v))
             /\ ~ exists d link targetFile,
                    In d (docs v) /\ In link (match_all linkRegex (snd d))
                    /\ getFirstLinkpathDest (split_first pipe (slice_2_m2 link))
                                            (path (fst d)) = Some targetFile
                    /\ path targetFile = path file.
Proof.
  intros Hnd Hread.
  exists (filter (fun file => negb (is_target getFirstLinkpathDest (docs v) (path file)))
                 (map fst (docs v))),
         (fun file => is_target getFirstLinkpathDest (docs v) (path file)).
  split; [now apply orphans_are_never_targets|]. split; [reflexivity|]. split.
  - intros file. apply is_target_iff.
  - intros file. rewrite filter_In, negb_true_iff, <- is_target_iff.
    now rewrite not_true_iff_false.
Qed.

Lemma orphans_iff_witness :
  exists (orphanFiles : list TFile) (linked : TFile -> bool),
    findOrphanFiles resolve_A vault_self = (Some orphanFiles, vault_self)
    /\ orphanFiles
       = filter (fun file => negb (linked file)) (map fst (docs vault_self))
    /\ (forall file,
           linked file = true
           <-> exists d link targetFile,
                 In d (docs vault_self) /\ In link (match_all linkRegex (snd d))
                 /\ resolve_A (split_first pipe (slice_2_m2 link))
                              (path (fst d)) = Some targetFile
                 /\ path targetFile = path file)
    /\ forall file,
         In file orphanFiles
         <-> In file (map fst (docs vault_self))
             /\ ~ exists d link targetFile,
                    In d (docs vault_self) /\ In link (match_all linkRegex (snd d))
                    /\ resolve_A (split_first pipe (slice_2_m2 link))
                                 (path (fst d)) = Some targetFile
                    /\ path targetFile = path file.
Proof.
  apply (orphans_iff resolve_A vault_self).
  - repeat constructor; intros H; vm_compute in H; intuition discriminate.
  - intros d Hd. reflexivity.
Defined.

(** ** The scan *)

Lemma set_has_in (K : JSSet) (k : jstring) : set_has K k = true <-> In k K.
Proof.
  unfold set_has. rewrite existsb_exists. split.
  - intros (x & Hx & E). apply jstring_eqb_eq in E. now subst.
  - intros H. exists k. split; [exact H | apply jstring_eqb_refl].
Qed.

Lemma set_has_not_in (K : JSSet) (k : jstring) : set_has K k = false <-> ~ In k K.
Proof. rewrite <- set_has_in. now destruct (set_has K k). Qed.

Lemma existingFiles_fold (files : list TFile) (acc : JSSet) (x : jstring) :
  In x (fold_left
          (fun acc file =>
             set_add (set_add (set_add acc (basename file)) (path file)) (name file))
          files acc)
  <-> In x acc \/ names_file files x.
Proof.
  revert acc. induction files as [|f files IH]; intros acc; cbn [fold_left].
  - split; [auto|]. intros [H|(f & [] & _)]. exact H.
  - rewrite IH, !set_add_in. unfold names_file. split.
    + intros [[[[H|H]|H]|H]|(g & Hg & H)]; eauto 8.
      * right. exists f. split; [now left | auto].
      * right. exists f. split; [now left | auto].
      * right. exists f. split; [now left | auto].
      * right. exists g. split; [now right | auto].
    + intros [H|(g & [<-|Hg] & H)]; [auto | | eauto].
      left. destruct H as [H|[H|H]]; auto.
Qed.

Lemma existingFiles_in (files : list TFile) (x : jstring) :
  In x (existingFilesOf files) <-> names_file files x.
Proof.
  unfold existingFilesOf. rewrite existingFiles_fold. split; [|auto].
  now intros [[]|H].
Qed.

Lemma broken_at_iff (res : Resolver) (files : list TFile) (file : TFile)
    (link : jstring) :
  broken_at res (existingFilesOf files) file link = true
  <-> res (scanLinkText link) (path file) = None
      /\ ~ names_file files (scanLinkText link)
      /\ ~ names_file files (scanLinkText link ++ str ".md").
Proof.
  unfold broken_at.
  destruct (res (scanLinkText link) (path file)) as [t|].
  - split; [discriminate | now intros [H _]].
  - rewrite andb_true_iff, !negb_true_iff, !set_has_not_in, !existingFiles_in.
    tauto.
Qed.

Lemma map_has_in (m : JSMap) (k : jstring) : map_has m k = true <-> In k (map fst m).
Proof.
  induction m as [|[k' ps] m IH]; simpl; [easy|].
  rewrite orb_true_iff, jstring_eqb_eq, IH. split; intros [H|H]; auto.
Qed.

Lemma map_has_split (m : JSMap) (k : jstring) :
  map_has m k = true ->
  exists m1 ps m2, m = m1 ++ (k, ps) :: m2 /\ map_has m1 k = false.
Proof.
  induction m as [|[k' ps] m IH]; simpl; [discriminate|].
  destruct (jstring_eqb k k') eqn:E.
  - intros _. apply jstring_eqb_eq in E. subst k'. now exists [], ps, m.
  - simpl. intros H. destruct (IH H) as (m1 & ps' & m2 & -> & H1).
    exists ((k', ps) :: m1), ps', m2. split; [reflexivity|].
    simpl. now rewrite E.
Qed.

Lemma map_push_at (m1 : JSMap) (k : jstring) (ps : list jstring) (m2 : JSMap)
    (v : jstring) :
  map_has m1 k = false ->
  map_push (m1 ++ (k, ps) :: m2) k v = m1 ++ (k, ps ++ [v]) :: m2.
Proof.
  induction m1 as [|[k' ps'] m1 IH]; simpl.
  - intros _. now rewrite jstring_eqb_refl.
  - intros H. apply orb_false_iff in H as [E H]. rewrite E. now rewrite IH.
Qed.

(** What [if (!m.has(k)) m.set(k, []); m.get(k)?.push(v)] makes of the map. *)
Lemma record_shape (m : JSMap) (k v : jstring) :
  exists m1 ps m2,
    map_has m1 k = false
    /\ map_push (map_ensure m k) k v = m1 ++ (k, ps ++ [v]) :: m2
    /\ (m = m1 ++ (k, ps) :: m2 \/ (m = m1 /\ ps = [] /\ m2 = [])).
Proof.
  unfold map_ensure. destruct (map_has m k) eqn:E.
  - destruct (map_has_split m k E) as (m1 & ps & m2 & -> & H1).
    exists m1, ps, m2. split; [exact H1|]. split; [now apply map_push_at | now left].
  - exists m, [], []. split; [exact E|]. split; [now apply map_push_at | now right].
Qed.

Lemma record_listed (m : JSMap) (k v k' p' : jstring) :
  listed (map_push (map_ensure m k) k v) k' p'
  <-> listed m k' p' \/ (k' = k /\ p' = v).
Proof.
  destruct (record_shape m k v) as (m1 & ps & m2 & _ & -> & Hm).
  unfold listed. split.
  - intros (ps' & Hin & Hp). apply in_app_or in Hin as [Hin|[Hin|Hin]].
    + left. exists ps'. split; [|exact Hp].
      destruct Hm as [->|(-> & _)]; [apply in_or_app; now left | exact Hin].
    + injection Hin as <- <-. apply in_app_or in Hp as [Hp|[<-|[]]]; [|now right].
      left. exists ps. split; [|exact Hp].
      destruct Hm as [->|(_ & -> & _)]; [|destruct Hp].
      apply in_or_app. right. now left.
    + left. exists ps'. split; [|exact Hp].
      destruct Hm as [->|(_ & _ & ->)]; [|destruct Hin].
      apply in_or_app. right. now right.
  - intros [(ps' & Hin & Hp)|[-> ->]].
    + destruct Hm as [->|(-> & _)].
      * apply in_app_or in Hin as [Hin|[Hin|Hin]].
        -- exists ps'. split; [apply in_or_app; now left | exact Hp].
        -- injection Hin as <- <-. exists (ps ++ [v]). split.
           ++ apply in_or_app. right. now left.
           ++ apply in_or_app. now left.
        -- exists ps'. split; [apply in_or_app; right; now right | exact Hp].
      * exists ps'. split; [apply in_or_app; now left | exact Hp].
    + exists (ps ++ [v]). split.
      * apply in_or_app. right. now left.
      * apply in_or_app. right. now left.
Qed.

Lemma record_inv (m : JSMap) (n : nat) (k v : jstring) :
  scan_inv m n -> scan_inv (map_push (map_ensure m k) k v) (S n).
Proof.
  intros (Hnd & Hne & Hsum).
  destruct (record_shape m k v) as (m1 & ps & m2 & H1 & -> & Hm).
  assert (map fst (m1 ++ (k, ps ++ [v]) :: m2) = map fst (m1 ++ (k, ps) :: m2)) as Ek.
  { now rewrite !map_app. }
  assert (list_sum (map (fun e : jstring * list jstring => length (snd e))
                        (m1 ++ (k, ps ++ [v]) :: m2))
          = S (list_sum (map (fun e : jstring * list jstring => length (snd e))
                             (m1 ++ (k, ps) :: m2)))) as Es.
  { rewrite !map_app, !list_sum_app. cbn [map list_sum snd].
    rewrite length_app. simpl. lia. }
  split; [|split].
  - rewrite Ek. destruct Hm as [->|(-> & -> & ->)]; [exact Hnd|].
    rewrite map_app. cbn [map fst].
    apply NoDup_app_remove_l with (l := []). simpl.
    assert (~ In k (map fst m1)) as Hk.
    { rewrite <- map_has_in. now rewrite H1. }
    clear - Hnd Hk. induction m1 as [|[k' ps'] m1 IH]; simpl in *.
    + constructor; [easy | constructor].
    + inversion Hnd as [|? ? Hn Hnd']; subst. constructor.
      * rewrite in_app_iff. simpl. intros [H|[H|[]]]; [contradiction|].
        apply Hk. now left.
      * apply IH; [exact Hnd' | intros H; apply Hk; now right].
  - intros k' ps' Hin. apply in_app_or in Hin as [Hin|[Hin|Hin]].
    + apply (Hne k'). destruct Hm as [->|(-> & _)]; [apply in_or_app; now left | exact Hin].
    + injection Hin as <- <-. now destruct ps.
    + destruct Hm as [->|(_ & _ & ->)]; [|destruct Hin].
      apply (Hne k'). apply in_or_app. right. now right.
  - rewrite Es. destruct Hm as [->|(-> & -> & ->)]; [lia|].
    rewrite map_app, list_sum_app. simpl. lia.
Qed.

Lemma checkLink_eq (res : Resolver) (existingFiles : JSSet) (file : TFile)
    (m : JSMap) (n : nat) (link : jstring) :
  checkLink res existingFiles file (m, n) link
  = (if broken_at res existingFiles file link
     then map_push (map_ensure m (bracket (scanLinkText link)))
                   (bracket (scanLinkText link)) (path file)
     else m,
     S n).
Proof.
  unfold checkLink, broken_at. cbv zeta.
  destruct (res (scanLinkText link) (path file)); [reflexivity|].
  now destruct (negb (set_has existingFiles (scanLinkText link))
                && negb (set_has existingFiles (scanLinkText link ++ str ".md"))).
Qed.

Lemma scan_inv_more (m : JSMap) (n : nat) : scan_inv m n -> scan_inv m (S n).
Proof. intros (H1 & H2 & H3). repeat split; auto. Qed.

Section Scan.

Variable res : Resolver.
Variable existingFiles : JSSet.

(** The links of one document, checked. *)
Lemma checkLinks_run (file : TFile) (links : list jstring) (a : JSMap * nat) :
  snd (fold_left (checkLink res existingFiles file) links a) = snd a + length links
  /\ (scan_inv (fst a) (snd a) ->
      scan_inv (fst (fold_left (checkLink res existingFiles file) links a))
               (snd (fold_left (checkLink res existingFiles file) links a)))
  /\ forall k p,
       listed (fst (fold_left (checkLink res existingFiles file) links a)) k p
       <-> listed (fst a) k p
           \/ exists link,
                In link links /\ broken_at res existingFiles file link = true
                /\ k = bracket (scanLinkText link) /\ p = path file.
Proof.
  revert a. induction links as [|link links IH]; intros [m n]; cbn [fold_left].
  - split; [simpl; lia|]. split; [auto|]. intros k p. split; [auto|].
    now intros [H|(link & [] & _)].
  - destruct (IH (checkLink res existingFiles file (m, n) link)) as (Hc & Hi & Hl).
    rewrite checkLink_eq in *. cbn [fst snd] in *.
    split; [rewrite Hc; simpl; lia|]. split.
    + intros Hinv. apply Hi.
      destruct (broken_at res existingFiles file link);
        [now apply record_inv | now apply scan_inv_more].
    + intros k p. rewrite Hl. clear Hl Hi Hc.
      destruct (broken_at res existingFiles file link) eqn:Eb.
      * rewrite record_listed. split.
        -- intros [[H|[-> ->]]|(l & Hin & H)]; [auto | |].
           ++ right. exists link. split; [now left | auto].
           ++ right. exists l. split; [now right | exact H].
        -- intros [H|(l & [<-|Hin] & Hb & -> & ->)]; [auto | auto |].
           right. exists l. auto.
      * split.
        -- intros [H|(l & Hin & H)]; [auto |].
           right. exists l. split; [now right | exact H].
        -- intros [H|(l & [<-|Hin] & Hb & H)]; [auto | congruence |].
           right. exists l. auto.
Qed.

(** The links of the documents, checked one document after the other. *)
Lemma checkDocs_run (ds : list (TFile * jstring)) (a : JSMap * nat) :
  let r := fold_left
             (fun a d => fold_left (checkLink res existingFiles (fst d))
                                   (match_all linkRegex (snd d)) a)
             ds a in
  snd r = snd a + count_links ds
  /\ (scan_inv (fst a) (snd a) -> scan_inv (fst r) (snd r))
  /\ forall k p,
       listed (fst r) k p
       <-> listed (fst a) k p
           \/ exists d link,
                In d ds /\ In link (match_all linkRegex (snd d))
                /\ broken_at res existingFiles (fst d) link = true
                /\ k = bracket (scanLinkText link) /\ p = path (fst d).
Proof.
  revert a. induction ds as [|d ds IH]; intros a; cbn [fold_left]; cbv zeta.
  - split; [unfold count_links; simpl; lia|]. split; [auto|]. intros k p.
    split; [auto|]. now intros [H|(d & link & [] & _)].
  - destruct (checkLinks_run (fst d) (match_all linkRegex (snd d)) a)
      as (Hc & Hi & Hl).
    specialize (IH (fold_left (checkLink res existingFiles (fst d))
                              (match_all linkRegex (snd d)) a)).
    cbv zeta in IH. destruct IH as (Hc' & Hi' & Hl').
    split; [rewrite Hc', Hc; unfold count_links; simpl; lia|]. split; [auto|].
    intros k p. rewrite Hl', Hl. split.
    + intros [[H|(link & Hin & H)]|(d' & link & Hd & H)]; [auto | |].
      * right. exists d, link. split; [now left | auto].
      * right. exists d', link. split; [now right | auto].
    + intros [H|(d' & link & [<-|Hd] & Hin & H)]; [auto | eauto 7 |].
      right. exists d', link. auto.
Qed.

End Scan.

Lemma scanFiles_run (res : Resolver) (v : Vault) :
  NoDup (paths_of (docs v)) ->
  (forall d, In d (docs v) -> read_fails v (path (fst d)) = false) ->
  scanFiles res (map fst (docs v)) v
  = (Some (fold_left
             (fun a d => fold_left (checkLink res (existingFilesOf (map fst (docs v)))
                                              (fst d))
                                   (match_all linkRegex (snd d)) a)
             (docs v) ([], 0)), v).
Proof.
  intros Hnd Hread. unfold scanFiles. cbv zeta.
  exact (read_loop
           (fun acc file content =>
              fold_left (checkLink res (existingFilesOf (map fst (docs v))) file)
                        (match_all linkRegex content) acc)
           v Hnd Hread (docs v) ([], 0) (incl_refl _)).
Qed.

Lemma scan_inv_length (m : JSMap) (n : nat) : scan_inv m n -> length m <= n.
Proof.
  intros (_ & Hne & Hsum).
  assert (length m <= list_sum (map (fun e : jstring * list jstring => length (snd e)) m)).
  { clear Hsum. induction m as [|[k ps] m IH]; simpl; [lia|].
    assert (ps <> []) as Hps by (apply (Hne k); now left).
    assert (length m
            <= list_sum (map (fun e : jstring * list jstring => length (snd e)) m)).
    { apply IH. intros k' ps' H. apply (Hne k'). now right. }
    destruct ps; [contradiction|]. simpl. lia. }
  lia.
Qed.

(** X4.  When every document can be read, the scan ends with the vault as
    it was, and the number of links it has checked is the number of matches
    of the link pattern in all the documents.  Its map has every key once,
    and under every key a path or more; so the broken links the report
    counts, the keys, are no more than the links checked. *)
Theorem scan_counts (getFirstLinkpathDest : Resolver) (v : Vault) :
  NoDup (paths_of (docs v)) ->
  (forall d, In d (docs v) -> read_fails v (path (fst d)) = false) ->
  exists brokenLinksMap totalLinksChecked,
    scanFiles getFirstLinkpathDest (map fst (docs v)) v
    = (Some (brokenLinksMap, totalLinksChecked), v)
    /\ totalLinksChecked = count_links (docs v)
    /\ NoDup (map fst brokenLinksMap)
    /\ (forall k ps, In (k, ps) brokenLinksMap -> ps <> [])
    /\ length brokenLinksMap <= totalLinksChecked.
Proof.
  intros Hnd Hread. rewrite (scanFiles_run _ v Hnd Hread).
  destruct (checkDocs_run getFirstLinkpathDest (existingFilesOf (map fst (docs v)))
              (docs v) ([], 0)) as (Hc & Hi & _).
  match goal with
  | |- context [fold_left ?f (docs v) ([], 0)] =>
      destruct (fold_left f (docs v) ([], 0)) as [m n]
  end.
  cbn [fst snd] in *.
  exists m, n. split; [reflexivity|]. split; [lia|].
  assert (scan_inv m n) as Hinv.
  { apply Hi. repeat split; [constructor | intros k ps [] | simpl; lia]. }
  split; [apply Hinv|]. split; [apply Hinv|]. now apply scan_inv_length.
Qed.

Lemma scan_counts_witness :
  exists brokenLinksMap totalLinksChecked,
    scanFiles no_target (map fst (docs vault_two)) vault_two
    = (Some (brokenLinksMap, totalLinksChecked), vault_two)
    /\ totalLinksChecked = count_links (docs vault_two)
    /\ NoDup (map fst brokenLinksMap)
    /\ (forall k ps, In (k, ps) brokenLinksMap -> ps <> [])
    /\ length brokenLinksMap <= totalLinksChecked.
Proof.
  apply (scan_counts no_target vault_two).
  - repeat constructor; intros H; vm_compute in H; intuition discriminate.
  - intros d Hd. reflexivity.
Defined.

(** X5.  When every document can be read, the map of the scan lists the
    path [p] under the key [k] exactly when the document at [p] has a match
    of the link pattern such that: [k] is the trimmed text before the first
    [|], in brackets; the resolver finds no file for that text from [p];
    and neither the text nor the text with [.md] after it is the basename,
    the path or the name of a document. *)
Theorem scan_reports_iff (getFirstLinkpathDest : Resolver) (v : Vault) :
  NoDup (paths_of (docs v)) ->
  (forall d, In d (docs v) -> read_fails v (path (fst d)) = false) ->
  exists brokenLinksMap totalLinksChecked,
    scanFiles getFirstLinkpathDest (map fst (docs v)) v
    = (Some (brokenLinksMap, totalLinksChecked), v)
    /\ forall k p,
         listed brokenLinksMap k p
         <-> exists d link,
               In d (docs v) /\ In link (match_all linkRegex (snd d))
               /\ p = path (fst d)
               /\ k = bracket (trim (split_first pipe (slice_2_m2 link)))
               /\ getFirstLinkpathDest (trim (split_first pipe (slice_2_m2 link))) p
                  = None
               /\ ~ names_file (map fst (docs v))
                               (trim (split_first pipe (slice_2_m2 link)))
               /\ ~ names_file (map fst (docs v))
                               (trim (split_first pipe (slice_2_m2 link)) ++ str ".md").
Proof.
  intros Hnd Hread. rewrite (scanFiles_run _ v Hnd Hread).
  destruct (checkDocs_run getFirstLinkpathDest (existingFilesOf (map fst (docs v)))
              (docs v) ([], 0)) as (_ & _ & Hl).
  match goal with
  | |- context [fold_left ?f (docs v) ([], 0)] =>
      destruct (fold_left f (docs v) ([], 0)) as [m n]
  end.
  cbn [fst snd] in *.
  exists m, n. split; [reflexivity|]. intros k p. rewrite Hl. split.
  - intros [(ps & [] & _)|(d & link & Hd & Hin & Hb & -> & ->)].
    apply broken_at_iff in Hb as (H1 & H2 & H3).
    exists d, link. repeat split; auto.
  - intros (d & link & Hd & Hin & -> & -> & H1 & H2 & H3).
    right. exists d, link. repeat split; auto.
    apply broken_at_iff. repeat split; auto.
Qed.

Lemma scan_reports_iff_witness :
  exists brokenLinksMap totalLinksChecked,
    scanFiles no_target (map fst (docs vault_two)) vault_two
    = (Some (brokenLinksMap, totalLinksChecked), vault_two)
    /\ forall k p,
         listed brokenLinksMap k p
         <-> exists d link,
               In d (docs vault_two) /\ In link (match_all linkRegex (snd d))
               /\ p = path (fst d)
               /\ k = bracket (trim (split_first pipe (slice_2_m2 link)))
               /\ no_target (trim (split_first pipe (slice_2_m2 link))) p = None
               /\ ~ names_file (map fst (docs vault_two))
                               (trim (split_first pipe (slice_2_m2 link)))
               /\ ~ names_file (map fst (docs vault_two))
                               (trim (split_first pipe (slice_2_m2 link)) ++ str ".md").
Proof.
  apply (scan_reports_iff no_target vault_two).
  - repeat constructor; intros H; vm_compute in H; intuition discriminate.
  - intros d Hd. reflexivity.
Defined.

(** ** Writing a report *)

Lemma lookup_store_same (p data : jstring) (ds : list (TFile * jstring))
    (f : TFile) (c : jstring) :
  lookup_doc p ds = Some (f, c) -> lookup_doc p (store_doc p data ds) = Some (f, data).
Proof.
  induction ds as [|[g c'] ds IH]; simpl; [discriminate|].
  destruct (jstring_eqb p (path g)) eqn:E; simpl; rewrite E.
  - intros H. now injection H as -> _.
  - exact IH.
Qed.

Lemma lookup_store_other (p q data : jstring) (ds : list (TFile * jstring)) :
  q <> p -> lookup_doc q (store_doc p data ds) = lookup_doc q ds.
Proof.
  intros Hq. induction ds as [|[g c'] ds IH]; simpl; [reflexivity|].
  destruct (jstring_eqb p (path g)) eqn:E; simpl.
  - apply jstring_eqb_eq in E. subst p.
    apply jstring_eqb_neq in Hq. now rewrite Hq.
  - now rewrite IH.
Qed.

Lemma lookup_doc_snoc (q : jstring) (ds : list (TFile * jstring))
    (f : TFile) (c : jstring) :
  lookup_doc q (ds ++ [(f, c)])
  = match lookup_doc q ds with
    | Some x => Some x
    | None => if jstring_eqb q (path f) then Some (f, c) else None
    end.
Proof.
  induction ds as [|[g c'] ds IH]; simpl; [reflexivity|].
  now destruct (jstring_eqb q (path g)).
Qed.

(** [modify] when the path names a file, [create] when it does not: the
    way the scan and the result windows save their report. *)
Lemma save_report (p data : jstring) (v : Vault) :
  write_fails v p = false ->
  (lookup_doc p (docs v) = None -> existsb (jstring_eqb p) (folders v) = false) ->
  exists v',
    bind (getAbstractFileByPath p)
         (fun existingFile =>
            match existingFile with
            | Some (AFile f) => vault_modify f data
            | _ => vault_create p data
            end) v
    = (Some tt, v')
    /\ (exists f, lookup_doc p (docs v') = Some (f, data))
    /\ (forall q, q <> p -> lookup_doc q (docs v') = lookup_doc q (docs v))
    /\ written v' = written v ++ [p].
Proof.
  intros Hw Hfo. unfold bind, getAbstractFileByPath.
  destruct (lookup_doc p (docs v)) as [[f c]|] eqn:El.
  - unfold vault_modify. rewrite (lookup_doc_path _ _ _ _ El), Hw, El.
    eexists. split; [reflexivity|]. cbn [docs written]. split; [|split].
    + exists f. now apply (lookup_store_same p data (docs v) f c).
    + intros q Hq. now apply lookup_store_other.
    + reflexivity.
  - rewrite (Hfo eq_refl). unfold vault_create. rewrite Hw, El, (Hfo eq_refl).
    eexists. split; [reflexivity|]. cbn [docs written]. split; [|split].
    + exists (file_of_path p). rewrite lookup_doc_snoc, El. cbn [file_of_path path].
      now rewrite jstring_eqb_refl.
    + intros q Hq. rewrite lookup_doc_snoc. cbn [file_of_path path].
      apply jstring_eqb_neq in Hq. rewrite Hq. now destruct (lookup_doc q (docs v)).
    + reflexivity.
Qed.

Lemma save_report_throws (p data : jstring) (v : Vault) :
  write_fails v p = true
  \/ (lookup_doc p (docs v) = None /\ existsb (jstring_eqb p) (folders v) = true) ->
  bind (getAbstractFileByPath p)
       (fun existingFile =>
          match existingFile with
          | Some (AFile f) => vault_modify f data
          | _ => vault_create p data
          end) v
  = (None, v).
Proof.
  unfold bind, getAbstractFileByPath, vault_modify, vault_create, throw.
  intros [Hw|[El Hfo]].
  - destruct (lookup_doc p (docs v)) as [[f c]|] eqn:El.
    + now rewrite (lookup_doc_path _ _ _ _ El), Hw.
    + destruct (existsb (jstring_eqb p) (folders v)); now rewrite Hw.
  - rewrite El, Hfo. destruct (write_fails v p); [reflexivity|].
    now rewrite El, Hfo.
Qed.

(** X6.  What the scan does with what it has found.  With no broken link
    it writes nothing.  With one or more it saves the report under the
    configured name, over the file that is there or as a new file: the file
    then holds the report, the other documents are as they were, and that
    one path is written.  When the write fails, or the name is that of a
    folder, the scan throws and the vault is as it was. *)
Theorem scan_writes_report (settings : BrokenLinksCleanerSettings)
    (getFirstLinkpathDest : Resolver) (now : jstring) (v : Vault)
    (brokenLinksMap : JSMap) (totalLinksChecked : nat) :
  scanFiles getFirstLinkpathDest (map fst (docs v)) v
  = (Some (brokenLinksMap, totalLinksChecked), v) ->
  (brokenLinksMap = [] ->
   scanAndGenerateBrokenLinks settings getFirstLinkpathDest now v = (Some tt, v))
  /\ (brokenLinksMap <> [] ->
      write_fails v (brokenLinksFile settings) = false ->
      (lookup_doc (brokenLinksFile settings) (docs v) = None ->
       existsb (jstring_eqb (brokenLinksFile settings)) (folders v) = false) ->
      exists v',
        scanAndGenerateBrokenLinks settings getFirstLinkpathDest now v = (Some tt, v')
        /\ (exists f,
               lookup_doc (brokenLinksFile settings) (docs v')
               = Some (f, reportContent now brokenLinksMap totalLinksChecked))
        /\ (forall q, q <> brokenLinksFile settings ->
                      lookup_doc q (docs v') = lookup_doc q (docs v))
        /\ written v' = written v ++ [brokenLinksFile settings])
  /\ (brokenLinksMap <> [] ->
      write_fails v (brokenLinksFile settings) = true
      \/ (lookup_doc (brokenLinksFile settings) (docs v) = None
          /\ existsb (jstring_eqb (brokenLinksFile settings)) (folders v) = true) ->
      scanAndGenerateBrokenLinks settings getFirstLinkpathDest now v = (None, v)).
Proof.
  intros Hscan.
  assert (scanAndGenerateBrokenLinks settings getFirstLinkpathDest now v
          = if length brokenLinksMap =? 0 then (Some tt, v)
            else bind (getAbstractFileByPath (brokenLinksFile settings))
                      (fun existingFile =>
                         match existingFile with
                         | Some (AFile f) =>
                             vault_modify f
                               (reportContent now brokenLinksMap totalLinksChecked)
                         | _ =>
                             vault_create (brokenLinksFile settings)
                               (reportContent now brokenLinksMap totalLinksChecked)
                         end) v) as E.
  { unfold scanAndGenerateBrokenLinks.
    unfold bind at 1. unfold getMarkdownFiles at 1. unfold bind at 1.
    rewrite Hscan. now destruct (length brokenLinksMap =? 0). }
  rewrite E. split; [|split].
  - now intros ->.
  - intros Hne Hw Hfo. destruct brokenLinksMap; [contradiction|]. cbn [length Nat.eqb].
    now apply save_report.
  - intros Hne H. destruct brokenLinksMap; [contradiction|]. cbn [length Nat.eqb].
    now apply save_report_throws.
Qed.

Lemma scan_writes_report_witness :
  exists v',
    scanAndGenerateBrokenLinks DEFAULT_SETTINGS no_target a_date vault_padded
    = (Some tt, v')
    /\ (exists f,
           lookup_doc (brokenLinksFile DEFAULT_SETTINGS) (docs v')
           = Some (f, reportContent a_date [(str "[[Foo]]", [str "Home.md"])] 1))
    /\ (forall q, q <> brokenLinksFile DEFAULT_SETTINGS ->
                  lookup_doc q (docs v') = lookup_doc q (docs vault_padded))
    /\ written v' = written vault_padded ++ [brokenLinksFile DEFAULT_SETTINGS].
Proof.
  apply (scan_writes_report DEFAULT_SETTINGS no_target a_date vault_padded
           [(str "[[Foo]]", [str "Home.md"])] 1).
  - reflexivity.
  - discriminate.
  - reflexivity.
  - reflexivity.
Defined.

(** ** From the report back to the keys *)

Lemma split_on_line (sep : char) (l rest : jstring) :
  ~ In sep l -> split_on sep (l ++ sep :: rest) = l :: split_on sep rest.
Proof.
  induction l as [|c l IH]; intros H; cbn [app split_on].
  - now rewrite chr_eqb_refl.
  - assert (chr_eqb c sep = false) as ->.
    { apply chr_eqb_neq. intros ->. apply H. now left. }
    rewrite IH; [reflexivity|]. intros Hin. apply H. now right.
Qed.

Lemma split_on_sep (sep : char) (rest : jstring) :
  split_on sep (sep :: rest) = [] :: split_on sep rest.
Proof. cbn [split_on]. now rewrite chr_eqb_refl. Qed.

Lemma uint_chars_no_nl (d : Decimal.uint) : ~ In nl (uint_chars d).
Proof.
  induction d; simpl; intros H; try destruct H as [H|H];
    try discriminate; auto.
Qed.

Lemma show_nat_no_nl (n : nat) : ~ In nl (show_nat n).
Proof. apply uint_chars_no_nl. Qed.

Lemma bracket_no_nl (t : jstring) : ~ In nl t -> ~ In nl (bracket t).
Proof.
  intros H [E|[E|Hin]]; try discriminate.
  apply in_app_or in Hin as [Hin|[E|[E|[]]]]; try discriminate. contradiction.
Qed.

Lemma join_no_nl (ps : list jstring) :
  (forall p, In p ps -> ~ In nl p) -> ~ In nl (join (str ", ") (map bracket ps)).
Proof.
  induction ps as [|p ps IH]; intros H; [easy|].
  assert (~ In nl (bracket p)) as Hp by (apply bracket_no_nl, H; now left).
  assert (~ In nl (join (str ", ") (map bracket ps))) as Hps.
  { apply IH. intros q Hq. apply H. now right. }
  cbn [map join]. destruct (map bracket ps) as [|q qs]; [exact Hp|].
  intros Hin. apply in_app_or in Hin as [Hin|[E|[E|Hin]]];
    try discriminate; contradiction.
Qed.

(** A line that starts with a character other than white space, [-] and
    [[] gives no key. *)
Lemma lineKey_other_head (c : char) (s : jstring) :
  space_or_dash c = false -> c <> lbr -> lineKey (c :: s) = None.
Proof.
  intros Hc Hl. destruct (lineKey (c :: s)) as [k|] eqn:E; [|reflexivity].
  apply lineKey_shape in E as (ws & body & rest & Hws & _ & _ & E & _).
  destruct ws as [|w ws].
  - rewrite bracket_app in E. simpl in E. congruence.
  - injection E as -> _. inversion Hws; subst. congruence.
Qed.

(** The text of a line of the report, without its line end. *)
Lemma reportLine_text (e : jstring * list jstring) :
  reportLine e
  = (str "- " ++ fst e ++ str " in " ++ join (str ", ") (map bracket (snd e)))
    ++ [nl].
Proof. unfold reportLine. now rewrite <- !app_assoc. Qed.

Lemma report_lines (m : JSMap) :
  (forall k ps, In (k, ps) m -> ~ In nl k /\ forall p, In p ps -> ~ In nl p) ->
  split_on nl (flat_map reportLine m)
  = map (fun e => str "- " ++ fst e ++ str " in "
                  ++ join (str ", ") (map bracket (snd e))) m
    ++ [[]].
Proof.
  induction m as [|[k ps] m IH]; intros H; [reflexivity|].
  cbn [flat_map map]. rewrite reportLine_text, <- app_assoc. cbn [app fst snd].
  destruct (H k ps (or_introl eq_refl)) as [Hk Hps].
  rewrite (split_on_line nl
             (str "- " ++ k ++ str " in " ++ join (str ", ") (map bracket ps))).
  - rewrite IH; [reflexivity|]. intros k' ps' Hin. apply (H k' ps'). now right.
  - intros Hin. apply in_app_or in Hin as [Hin|Hin].
    { vm_compute in Hin. intuition discriminate. }
    apply in_app_or in Hin as [Hin|Hin]; [contradiction|].
    apply in_app_or in Hin as [Hin|Hin].
    { vm_compute in Hin. intuition discriminate. }
    now apply (join_no_nl ps Hps).
Qed.

Lemma reportContent_lines (now : jstring) (m : JSMap) (n : nat) :
  ~ In nl now ->
  split_on nl (reportContent now m n)
  = [str "# Broken links report"; []; str "Generated: " ++ now;
     str "Total broken links: " ++ show_nat (length m);
     str "Total links checked: " ++ show_nat n; []; str "## Broken links:"; []]
    ++ split_on nl (flat_map reportLine m).
Proof.
  intros Hnow. unfold reportContent.
  assert (forall (lit : string) (x : jstring),
             ~ In nl (str lit) -> ~ In nl x -> ~ In nl (str lit ++ x)) as Happ.
  { intros lit x H1 H2 Hin. apply in_app_or in Hin as [Hin|Hin]; contradiction. }
  cbn [app].
  rewrite (split_on_line nl (str "# Broken links report"))
    by (intros H; vm_compute in H; intuition discriminate).
  rewrite split_on_sep.
  rewrite (app_assoc (str "Generated: ") now).
  rewrite (split_on_line nl (str "Generated: " ++ now))
    by (apply Happ; [intros H; vm_compute in H; intuition discriminate | exact Hnow]).
  rewrite (app_assoc (str "Total broken links: ") (show_nat (length m))).
  rewrite (split_on_line nl (str "Total broken links: " ++ show_nat (length m)))
    by (apply Happ; [intros H; vm_compute in H; intuition discriminate
                    | apply show_nat_no_nl]).
  rewrite (app_assoc (str "Total links checked: ") (show_nat n)).
  rewrite (split_on_line nl (str "Total links checked: " ++ show_nat n))
    by (apply Happ; [intros H; vm_compute in H; intuition discriminate
                    | apply show_nat_no_nl]).
  rewrite split_on_sep.
  rewrite (split_on_line nl (str "## Broken links:"))
    by (intros H; vm_compute in H; intuition discriminate).
  rewrite split_on_sep.
  reflexivity.
Qed.

Lemma fold_addLine_app (key : jstring -> option jstring) (l1 l2 : list jstring)
    (acc : JSSet) :
  fold_left (addLine key) (l1 ++ l2) acc
  = fold_left (addLine key) l2 (fold_left (addLine key) l1 acc).
Proof. apply fold_left_app. Qed.

Lemma set_add_new (K : JSSet) (k : jstring) : ~ In k K -> set_add K k = K ++ [k].
Proof. intros H. unfold set_add. apply set_has_not_in in H. now rewrite H. Qed.

(** Lines that give the keys [ks], all different and none in the set yet,
    add them in their order. *)
Lemma fold_addLine_keys (key : jstring -> option jstring)
    (lines : list jstring) (ks : list jstring) (acc : JSSet) :
  map key lines = map Some ks -> NoDup (acc ++ ks) ->
  fold_left (addLine key) lines acc = acc ++ ks.
Proof.
  revert ks acc. induction lines as [|l lines IH]; intros [|k ks] acc E Hnd;
    try discriminate.
  - now rewrite app_nil_r.
  - cbn [map] in E. injection E as Ek E. cbn [fold_left]. unfold addLine at 2.
    rewrite Ek. rewrite set_add_new.
    + rewrite (IH ks (acc ++ [k]) E); rewrite <- app_assoc; [reflexivity | exact Hnd].
    + apply NoDup_remove_2 in Hnd. intros H. apply Hnd. apply in_or_app. now left.
Qed.

(** The lines of the report, parsed: the header lines give no key, every
    line of the list gives its key. *)
Lemma report_keys (now : jstring) (brokenLinksMap : JSMap)
    (totalLinksChecked : nat) :
  ~ In nl now ->
  NoDup (map fst brokenLinksMap) ->
  (forall k ps,
      In (k, ps) brokenLinksMap ->
      (exists t, k = bracket t /\ t <> [] /\ ~ In rbr t /\ ~ In nl t)
      /\ forall p, In p ps -> ~ In nl p) ->
  parseLines lineKey (reportContent now brokenLinksMap totalLinksChecked)
  = map fst brokenLinksMap.
Proof.
  intros Hnow Hnd Hm. unfold parseLines.
  rewrite (reportContent_lines now brokenLinksMap totalLinksChecked Hnow).
  rewrite report_lines.
  2:{ intros k ps Hin. destruct (Hm k ps Hin) as [(t & -> & _ & _ & Ht) Hps].
      split; [now apply bracket_no_nl | exact Hps]. }
  rewrite fold_addLine_app. cbn [fold_left].
  assert (lineKey (str "# Broken links report") = None) as E1 by reflexivity.
  assert (lineKey [] = None) as E2 by reflexivity.
  assert (lineKey (str "## Broken links:") = None) as E3 by reflexivity.
  assert (forall x, lineKey (str "Generated: " ++ x) = None) as E4.
  { intros x. apply (lineKey_other_head 71%N); [reflexivity | discriminate]. }
  assert (forall x, lineKey (str "Total broken links: " ++ x) = None) as E5.
  { intros x. apply (lineKey_other_head 84%N); [reflexivity | discriminate]. }
  assert (forall x, lineKey (str "Total links checked: " ++ x) = None) as E6.
  { intros x. apply (lineKey_other_head 84%N); [reflexivity | discriminate]. }
  unfold addLine at 2 3 4 5 6 7 8 9. rewrite E1, E2, E3, E4, E5, E6.
  rewrite fold_addLine_app. cbn [fold_left]. unfold addLine at 1. rewrite E2.
  apply (fold_addLine_keys lineKey _ (map fst brokenLinksMap) []); [|exact Hnd].
  rewrite !map_map. apply map_ext_in. intros [k ps] Hin. cbn [fst snd].
  destruct (Hm k ps Hin) as [(t & -> & Hne & Hr & _) _].
  apply (lineKey_list_item (str "- ") t).
  - repeat constructor.
  - exact Hne.
  - now apply no_rbr_Forall.
Qed.

(** X7.  The loader reads back from the report of the scan the keys of the
    map, each once, in the order of the report, and nothing else: where the
    date has no line end, the keys of the map are all different, every key
    is [[[t]]] with [t] not empty and without []] or a line end, and no
    path has a line end.  A key with an empty text is not read back: the
    line the report has for [[[]]] gives no key, whatever follows it. *)
Theorem report_round_trip (now : jstring) (brokenLinksMap : JSMap)
    (totalLinksChecked : nat) :
  ~ In nl now ->
  NoDup (map fst brokenLinksMap) ->
  (forall k ps,
      In (k, ps) brokenLinksMap ->
      (exists t, k = bracket t /\ t <> [] /\ ~ In rbr t /\ ~ In nl t)
      /\ forall p, In p ps -> ~ In nl p) ->
  parseLines lineKey (reportContent now brokenLinksMap totalLinksChecked)
  = map fst brokenLinksMap
  /\ forall ps, lineKey (str "- " ++ bracket [] ++ str " in "
                         ++ join (str ", ") (map bracket ps)) = None.
Proof.
  intros Hnow Hnd Hm. split; [now apply report_keys|].
  intros ps.
  destruct (lineKey (str "- " ++ bracket [] ++ str " in "
                     ++ join (str ", ") (map bracket ps))) as [k|] eqn:E;
    [|reflexivity].
  exfalso. apply lineKey_shape in E as (ws & body & rest & Hws & Hne & Hb & E & _).
  rewrite !bracket_app in E.
  apply (split_unique space_or_dash) in E as (_ & _ & E);
    [| repeat constructor | reflexivity | exact Hws | reflexivity].
  destruct body as [|c body]; [contradiction|].
  injection E as E _. inversion Hb; subst. discriminate.
Qed.

Lemma report_round_trip_witness :
  parseLines lineKey
    (reportContent a_date
       [(str "[[Foo]]", [str "Home.md"; str "b.md"]); (str "[[Bar baz]]", [str "b.md"])] 5)
  = [str "[[Foo]]"; str "[[Bar baz]]"]
  /\ forall ps, lineKey (str "- " ++ bracket [] ++ str " in "
                         ++ join (str ", ") (map bracket ps)) = None.
Proof.
  apply (report_round_trip a_date
           [(str "[[Foo]]", [str "Home.md"; str "b.md"]); (str "[[Bar baz]]", [str "b.md"])] 5).
  - intros H; vm_compute in H; intuition discriminate.
  - repeat constructor; intros H; vm_compute in H; intuition discriminate.
  - intros k ps [E|[E|[]]]; injection E as <- <-.
    + split.
      * exists (str "Foo"). split; [reflexivity|]. split; [discriminate|].
        split; intros H; vm_compute in H; intuition discriminate.
      * intros p [<-|[<-|[]]]; intros H; vm_compute in H; intuition discriminate.
    + split.
      * exists (str "Bar baz"). split; [reflexivity|]. split; [discriminate|].
        split; intros H; vm_compute in H; intuition discriminate.
      * intros p [<-|[]]; intros H; vm_compute in H; intuition discriminate.
Defined.

(** ** The key the scan gives a link *)

Lemma drop_while_app_all (p : char -> bool) (u x : jstring) :
  Forall (fun a => p a = true) u -> drop_while p (u ++ x) = drop_while p x.
Proof.
  induction 1 as [|a u Ha _ IH]; simpl; [reflexivity|]. now rewrite Ha.
Qed.

Lemma drop_while_app_some (p : char -> bool) (s x : jstring) :
  drop_while p s <> [] -> drop_while p (s ++ x) = drop_while p s ++ x.
Proof.
  induction s as [|c s IH]; simpl; [easy|].
  destruct (p c); [exact IH | reflexivity].
Qed.

Lemma trim_end_app_blank (s ws : jstring) :
  Forall (fun c => is_space c = true) ws -> trim_end (s ++ ws) = trim_end s.
Proof.
  intros H. unfold trim_end. rewrite rev_app_distr.
  rewrite drop_while_app_all; [reflexivity|].
  apply Forall_rev. exact H.
Qed.

(** Blanks around a text do not change what it trims to. *)
Lemma trim_padded (ws1 t ws2 : jstring) :
  Forall (fun c => is_space c = true) ws1 ->
  Forall (fun c => is_space c = true) ws2 ->
  trim (ws1 ++ t ++ ws2) = trim t.
Proof.
  intros H1 H2. unfold trim, trim_start. rewrite drop_while_app_all by exact H1.
  destruct (drop_while is_space t) as [|c x] eqn:E.
  - apply drop_while_nil in E.
    assert (Forall (fun c => is_space c = true) (t ++ ws2)) as Hall.
    { apply Forall_app. split; [|exact H2].
      apply Forall_forall. rewrite forallb_forall in E. exact E. }
    now rewrite (proj2 (take_while_all_id is_space _ Hall)).
  - rewrite drop_while_app_some by (rewrite E; discriminate).
    rewrite E. now apply trim_end_app_blank.
Qed.

(** X8.  The scan gives a link the key of its target alone: the text before
    the first [|], without the blanks around it.  Blanks around the target
    and a display text after it do not change the key. *)
Theorem scan_key_ignores_padding (ws1 t ws2 display : jstring) :
  Forall (fun c => is_space c = true) ws1 ->
  Forall (fun c => is_space c = true) ws2 ->
  ~ In pipe t ->
  scanLinkText (bracket (ws1 ++ t ++ ws2)) = scanLinkText (bracket t)
  /\ scanLinkText (bracket ((ws1 ++ t ++ ws2) ++ pipe :: display))
     = scanLinkText (bracket t)
  /\ scanLinkText (bracket t) = trim t.
Proof.
  intros H1 H2 Ht.
  assert (~ In pipe (ws1 ++ t ++ ws2)) as Hp.
  { intros Hin. apply in_app_or in Hin as [Hin|Hin].
    - rewrite Forall_forall in H1. now discriminate (H1 pipe Hin).
    - apply in_app_or in Hin as [Hin|Hin]; [contradiction|].
      rewrite Forall_forall in H2. now discriminate (H2 pipe Hin). }
  destruct (scan_key_of_target (ws1 ++ t ++ ws2) display Hp) as [Ea Eb].
  destruct (scan_key_of_target t display Ht) as [_ Et].
  rewrite Ea, Eb, Et, trim_padded by assumption. auto.
Qed.

Lemma scan_key_ignores_padding_witness :
  scanLinkText (bracket (str " " ++ str "Foo" ++ str "  ")) = scanLinkText (bracket (str "Foo"))
  /\ scanLinkText (bracket ((str " " ++ str "Foo" ++ str "  ") ++ pipe :: str "the foo"))
     = scanLinkText (bracket (str "Foo"))
  /\ scanLinkText (bracket (str "Foo")) = trim (str "Foo").
Proof.
  apply (scan_key_ignores_padding (str " ") (str "Foo") (str "  ") (str "the foo")).
  - repeat constructor.
  - repeat constructor.
  - intros H; vm_compute in H; intuition discriminate.
Defined.

(** ** The rewriter only deletes *)

Lemma subseq_refl (s : jstring) : subseq s s.
Proof. induction s; now constructor. Qed.

Lemma subseq_nil_l (s : jstring) : subseq [] s.
Proof. induction s; now constructor. Qed.

Lemma subseq_app (a b c d : jstring) :
  subseq a b -> subseq c d -> subseq (a ++ c) (b ++ d).
Proof. induction 1; intros Hcd; simpl; [exact Hcd | |]; constructor; auto. Qed.

Lemma subseq_inside (pre s post : jstring) : subseq s (pre ++ s ++ post).
Proof.
  rewrite <- (app_nil_l s) at 1. apply subseq_app; [apply subseq_nil_l|].
  rewrite <- (app_nil_r s) at 1. apply subseq_app; [apply subseq_refl|].
  apply subseq_nil_l.
Qed.

Lemma subseq_trans (a b c : jstring) : subseq a b -> subseq b c -> subseq a c.
Proof.
  intros Hab Hbc. revert a Hab.
  induction Hbc as [|x b c _ IH|x b c _ IH]; intros a Hab.
  - exact Hab.
  - inversion Hab; subst; constructor; auto.
  - constructor. auto.
Qed.

Lemma subseq_length (a b : jstring) : subseq a b -> length a <= length b.
Proof. induction 1; simpl; lia. Qed.

Lemma subseq_same_length (a b : jstring) :
  subseq a b -> length a = length b -> a = b.
Proof.
  induction 1 as [|c a b _ IH|c a b H _]; simpl; intros E.
  - reflexivity.
  - f_equal. apply IH. lia.
  - apply subseq_length in H. lia.
Qed.

(** Every match the cut of a text holds is a match of the pattern at some
    place. *)
Lemma segments_fuel_hit (re : regex) (n : nat) :
  forall bol s m,
    In (Hit m) (segments_fuel n re bol s) ->
    exists bol' s' rest, exec_at re bol' s' = Some (m, rest).
Proof.
  induction n as [|n IH]; intros bol s m; [intros []|]. cbn [segments_fuel].
  assert (In (Hit m)
             match s with
             | [] => []
             | c :: s' => Gap c :: segments_fuel n re false s'
             end ->
          exists bol' s' rest, exec_at re bol' s' = Some (m, rest)) as Hskip.
  { destruct s as [|c s']; [intros []|]. intros [H|H]; [discriminate | eauto]. }
  destruct (exec_at re bol s) as [[m' rest]|] eqn:E; [|exact Hskip].
  destruct (matched m').
  - intros [H|H]; [injection H as <-; eauto | auto].
  - intros [H|H]; [injection H as <-; eauto | eauto].
Qed.

Lemma replace_all_subseq (re : regex) (f : rmatch -> jstring) (s : jstring) :
  (forall bol s' m rest, exec_at re bol s' = Some (m, rest) -> subseq (f m) (matched m)) ->
  subseq (replace_all re f s) s.
Proof.
  intros Hf. unfold replace_all. rewrite <- (segments_raw re s) at 2.
  assert (forall g, In g (segments re s) ->
                    subseq match g with Hit m => f m | Gap c => [c] end (raw g)) as Hg.
  { intros [c|m] Hin; [apply subseq_refl|]. simpl.
    apply segments_fuel_hit in Hin as (bol & s' & rest & E). eauto. }
  induction (segments re s) as [|g segs IH]; [constructor|].
  cbn [flat_map]. apply subseq_app; [apply Hg; now left|].
  apply IH. intros g' Hin. apply Hg. now right.
Qed.

(** X9.  The rewriter only takes characters out: the cleaned text is the
    text with some of its characters left out, in the same order.  So a
    cleaned text that differs from the text is shorter, and a document that
    is written back is written shorter than it was. *)
Theorem clean_only_deletes (settings : BrokenLinksCleanerSettings)
    (text : jstring) (brokenLinks : JSSet) :
  subseq (cleanBrokenWikilinks settings text brokenLinks) text
  /\ (cleanBrokenWikilinks settings text brokenLinks <> text ->
      length (cleanBrokenWikilinks settings text brokenLinks) < length text)
  /\ forall file v v',
       cleanFile settings file brokenLinks v = (Some true, v') ->
       exists f content cleaned,
         lookup_doc (path file) (docs v) = Some (f, content)
         /\ lookup_doc (path file) (docs v') = Some (f, cleaned)
         /\ subseq cleaned content /\ length cleaned < length content.
Proof.
  assert (forall T, subseq (cleanBrokenWikilinks settings T brokenLinks) T) as Hsub.
  { intros T. unfold cleanBrokenWikilinks.
    apply subseq_trans with (b := aliasPass (deleteText settings) brokenLinks T).
    - apply replace_all_subseq. intros bol s' m rest E.
      apply link_inv in E as (body & _ & _ & _ & ->).
      unfold plainReplacer. cbn [matched capture captures Nat.sub nth].
      destruct (set_has brokenLinks (bracket body)); [|apply subseq_refl].
      destruct (deleteText settings); [apply subseq_nil_l|].
      apply (subseq_inside [lbr; lbr] body [rbr; rbr]).
    - apply replace_all_subseq. intros bol s' m rest E.
      apply alias_inv in E as (a & b & _ & _ & _ & _ & _ & ->).
      unfold aliasReplacer. cbn [matched capture captures Nat.sub nth].
      destruct (set_has brokenLinks (bracket a)); [|apply subseq_refl].
      destruct (deleteText settings); [apply subseq_nil_l|].
      assert (bracket (a ++ pipe :: b) = (lbr :: lbr :: a ++ [pipe]) ++ b ++ [rbr; rbr])
        as ->.
      { unfold bracket. simpl. now rewrite <- !app_assoc. }
      apply subseq_inside. }
  assert (forall T, cleanBrokenWikilinks settings T brokenLinks <> T ->
                    length (cleanBrokenWikilinks settings T brokenLinks) < length T)
    as Hlen.
  { intros T Hne. pose proof (subseq_length _ _ (Hsub T)) as Hle.
    destruct (Nat.eq_dec (length (cleanBrokenWikilinks settings T brokenLinks))
                         (length T)) as [E|E]; [|lia].
    exfalso. apply Hne. now apply subseq_same_length. }
  split; [apply Hsub|]. split; [apply Hlen|].
  intros file v v'. rewrite cleanFile_cases.
  destruct (read_fails v (path file)); [discriminate|].
  destruct (lookup_doc (path file) (docs v)) as [[f content]|] eqn:El; [|discriminate].
  cbv zeta.
  destruct (jstring_eqb content (cleanBrokenWikilinks settings content brokenLinks))
    eqn:Ec; [discriminate|].
  destruct (write_fails v (path file)); [discriminate|].
  intros H. injection H as <-. cbn [docs].
  exists f, content, (cleanBrokenWikilinks settings content brokenLinks).
  split; [reflexivity|]. split; [now apply (lookup_store_same _ _ _ f content)|].
  split; [apply Hsub|]. apply Hlen. apply jstring_eqb_neq in Ec. congruence.
Qed.

Lemma clean_only_deletes_witness :
  subseq (cleanBrokenWikilinks DEFAULT_SETTINGS (str "x [[a]] y") [str "[[a]]"])
         (str "x [[a]] y")
  /\ length (cleanBrokenWikilinks DEFAULT_SETTINGS (str "x [[a]] y") [str "[[a]]"])
     < length (str "x [[a]] y")
  /\ exists v',
       cleanFile DEFAULT_SETTINGS (note "c.md") [str "[[a]]"]
         (mkVault [(note "c.md", str "x [[a]] y")] [] [] never never)
       = (Some true, v')
       /\ exists f content cleaned,
            lookup_doc (path (note "c.md")) [(note "c.md", str "x [[a]] y")]
            = Some (f, content)
            /\ lookup_doc (path (note "c.md")) (docs v') = Some (f, cleaned)
            /\ subseq cleaned content /\ length cleaned < length content.
Proof.
  destruct (clean_only_deletes DEFAULT_SETTINGS (str "x [[a]] y") [str "[[a]]"])
    as (H1 & H2 & H3).
  split; [exact H1|]. split.
  - apply H2. intros E. vm_compute in E. discriminate.
  - eexists. split; [vm_compute; reflexivity|].
    apply (H3 (note "c.md")
              (mkVault [(note "c.md", str "x [[a]] y")] [] [] never never)).
    vm_compute. reflexivity.
Defined.

(** X10.  In a text where [[[] only opens links that do not nest, cleaning
    leaves no link that is in the set: of the links of the cleaned text,
    none has its bracket expression in the set, and none of the form
    [[[a|b]]], with a target [a] that is not empty and has no [|] and a
    display text [b] that is not empty, has the key [[[a]]] in the set.
    The form with an empty display text is not such a link, and it is left:
    after such a text, [[[a|]]] stays where it is unless [[[a|]]] itself is
    in the set, whether the key [[[a]]] is in the set or not. *)
Theorem clean_leaves_no_listed_link (T : jstring) (K : JSSet) (d : bool) :
  simple_text T ->
  (forall m,
      In m (link_matches (fst (clean T K d))) ->
      set_has K (matched m) = false
      /\ forall a b,
           matched m = bracket (a ++ pipe :: b) ->
           a <> [] -> ~ In pipe a -> b <> [] ->
           set_has K (bracket a) = false)
  /\ (forall a post,
         Forall (fun c => c <> lbr /\ c <> rbr) a -> ~ In pipe a ->
         set_has K (bracket (a ++ [pipe])) = false ->
         fst (clean (T ++ bracket (a ++ [pipe]) ++ post) K d)
         = fst (clean T K d) ++ bracket (a ++ [pipe]) ++ fst (clean post K d)).
Proof.
  intros HT. split.
  - intros m Hin.
    pose proof (clean_simple_settled T K d HT) as Hs.
    destruct (hits_shaped _ _ Hs m Hin) as (body & E & Hak & Hpk).
    rewrite E. split; [exact Hpk|].
    intros a b Eab Ha Hap Hb. apply bracket_inj in Eab. subst body.
    now apply (Hak a b).
  - intros a post Ha Hap HK.
    apply clean_around_kept_link; [exact HT | | | | exact HK].
    + now destruct a.
    + apply Forall_app. split; [exact Ha|]. constructor; [|constructor].
      split; discriminate.
    + intros a' b' E _ Hap' Hb'.
      apply (split_unique (fun c => negb (chr_eqb c pipe))) in E as (_ & _ & E);
        try reflexivity.
      * now subst b'.
      * apply not_in_Forall in Hap. eapply Forall_impl; [|exact Hap].
        intros c Hc. now apply negb_true_iff, chr_eqb_neq.
      * apply not_in_Forall in Hap'. eapply Forall_impl; [|exact Hap'].
        intros c Hc. now apply negb_true_iff, chr_eqb_neq.
Qed.

Lemma clean_leaves_no_listed_link_witness :
  (set_has [str "[[a]]"] (str "[[c|a]]") = false
   /\ forall a b,
        str "[[c|a]]" = bracket (a ++ pipe :: b) ->
        a <> [] -> ~ In pipe a -> b <> [] ->
        set_has [str "[[a]]"] (bracket a) = false)
  /\ fst (clean (str "[[a|b]] [[a]] [[c|a]]" ++ bracket (str "a" ++ [pipe]) ++ str " [[a]]")
            [str "[[a]]"] false)
     = fst (clean (str "[[a|b]] [[a]] [[c|a]]") [str "[[a]]"] false)
       ++ bracket (str "a" ++ [pipe])
       ++ fst (clean (str " [[a]]") [str "[[a]]"] false).
Proof.
  assert (simple_text (str "[[a|b]] [[a]] [[c|a]]")) as HT.
  { change (str "[[a|b]] [[a]] [[c|a]]")
      with (bracket (str "a|b") ++ 32%N :: bracket (str "a") ++ 32%N
            :: bracket (str "c|a") ++ []).
    apply shaped_link; [discriminate | repeat constructor; discriminate | exact I |].
    apply shaped_chr; [discriminate|].
    apply shaped_link; [discriminate | repeat constructor; discriminate | exact I |].
    apply shaped_chr; [discriminate|].
    apply shaped_link; [discriminate | repeat constructor; discriminate | exact I |].
    apply shaped_nil. }
  destruct (clean_leaves_no_listed_link (str "[[a|b]] [[a]] [[c|a]]") [str "[[a]]"]
              false HT) as [H1 H2].
  split.
  - apply (H1 (RMatch (str "[[c|a]]") [str "c|a"])). vm_compute. now left.
  - apply (H2 (str "a") (str " [[a]]")).
    + repeat constructor; discriminate.
    + intros H; vm_compute in H; intuition discriminate.
    + reflexivity.
Defined.

(** ** More of the loader *)

Lemma set_add_NoDup (K : JSSet) (k : jstring) : NoDup K -> NoDup (set_add K k).
Proof.
  intros H. unfold set_add. destruct (set_has K k) eqn:E; [exact H|].
  apply set_has_not_in in E.
  apply NoDup_rev in H. rewrite <- (rev_involutive (K ++ [k])).
  apply NoDup_rev. rewrite rev_app_distr. simpl. constructor; [|exact H].
  now rewrite <- in_rev.
Qed.

Lemma fold_addLine_NoDup (key : jstring -> option jstring) (lines : list jstring)
    (acc : JSSet) :
  NoDup acc -> NoDup (fold_left (addLine key) lines acc).
Proof.
  revert acc. induction lines as [|l lines IH]; intros acc H; [exact H|].
  cbn [fold_left]. apply IH. unfold addLine.
  destruct (key l); [now apply set_add_NoDup | exact H].
Qed.

(** Loading never changes the vault. *)
Lemma loadWith_state (key : jstring -> option jstring)
    (settings : BrokenLinksCleanerSettings) (v : Vault) :
  snd (loadWith key settings v) = v.
Proof.
  unfold loadWith, bind, getAbstractFileByPath, vault_read, ret, throw.
  destruct (lookup_doc (brokenLinksFile settings) (docs v)) as [[f c]|].
  - destruct (read_fails v (path f)); [reflexivity|].
    now destruct (lookup_doc (path f) (docs v)) as [[f' c']|].
  - now destruct (existsb (jstring_eqb (brokenLinksFile settings)) (folders v)).
Qed.

(** X11.  The set the loader returns holds every key once, however often
    the registry lists it, and loading leaves the vault as it was.  It
    holds of the loader of either revision. *)
Theorem loaded_keys_distinct (settings : BrokenLinksCleanerSettings)
    (v v' : Vault) (K : JSSet) :
  loadBrokenLinks settings v = (Some K, v')
  \/ loadBrokenLinks_legacy settings v = (Some K, v') ->
  NoDup K /\ v' = v.
Proof.
  assert (forall key, loadWith key settings v = (Some K, v') -> NoDup K /\ v' = v) as H.
  { intros key E. split.
    - revert E.
      unfold loadWith, bind, getAbstractFileByPath, vault_read, ret, throw.
      destruct (lookup_doc (brokenLinksFile settings) (docs v)) as [[f c]|].
      + destruct (read_fails v (path f)); [discriminate|].
        destruct (lookup_doc (path f) (docs v)) as [[f' c']|]; [|discriminate].
        intros E. injection E as <- _. apply fold_addLine_NoDup. constructor.
      + destruct (existsb (jstring_eqb (brokenLinksFile settings)) (folders v));
          intros E; injection E as <- _; constructor.
    - pose proof (loadWith_state key settings v) as Hs. now rewrite E in Hs. }
  intros [E|E]; eapply H; exact E.
Qed.

Lemma loaded_keys_distinct_witness :
  NoDup [str "[[Foo]]"; str "[[Bar]]"]
  /\ mkVault [(note "broken links output.md",
               str "- [[Foo]]" ++ nl :: str "- [[Bar]]" ++ nl :: str "- [[Foo]] in [[a.md]]")]
             [] [] never never
     = mkVault [(note "broken links output.md",
                 str "- [[Foo]]" ++ nl :: str "- [[Bar]]" ++ nl :: str "- [[Foo]] in [[a.md]]")]
               [] [] never never.
Proof.
  apply (loaded_keys_distinct DEFAULT_SETTINGS
           (mkVault [(note "broken links output.md",
                      str "- [[Foo]]" ++ nl :: str "- [[Bar]]" ++ nl
                      :: str "- [[Foo]] in [[a.md]]")]
                    [] [] never never)).
  left. vm_compute. reflexivity.
Defined.

(** A line gives a key exactly when it is a list item. *)
Lemma lineKey_iff (line k : jstring) :
  lineKey line = Some k
  <-> exists ws body rest,
        Forall (fun c => space_or_dash c = true) ws
        /\ body <> [] /\ Forall (fun c => not_rbr c = true) body
        /\ line = ws ++ bracket body ++ rest /\ k = bracket body.
Proof.
  split; [apply lineKey_shape|].
  intros (ws & body & rest & Hws & Hne & Hb & -> & ->).
  now apply lineKey_list_item.
Qed.

(** X12.  What follows the first link of a list item does not matter to
    the loader: text added at the end of a line that gives a key leaves the
    key as it is.  And one character other than []] at the end of a line,
    such as the carriage return that [split('\n')] leaves on a line that
    ended in CR LF, changes the key of no line. *)
Theorem lineKey_ignores_line_end (line : jstring) :
  (forall k more, lineKey line = Some k -> lineKey (line ++ more) = Some k)
  /\ (forall c, c <> rbr -> lineKey (line ++ [c]) = lineKey line).
Proof.
  assert (forall l k more, lineKey l = Some k -> lineKey (l ++ more) = Some k) as Hmore.
  { intros l k more E.
    apply lineKey_iff in E as (ws & body & rest & Hws & Hne & Hb & -> & ->).
    rewrite <- !app_assoc. now apply lineKey_list_item. }
  split; [apply Hmore|].
  intros c Hc. destruct (lineKey line) as [k|] eqn:E; [now apply Hmore|].
  destruct (lineKey (line ++ [c])) as [k|] eqn:E'; [|reflexivity].
  apply lineKey_iff in E' as (ws & body & rest & Hws & Hne & Hb & El & ->).
  destruct (exists_last (l := rest)) as (rest' & c' & ->).
  - intros ->. rewrite app_nil_r in El.
    assert (ws ++ bracket body = (ws ++ lbr :: lbr :: body ++ [rbr]) ++ [rbr]) as Eb.
    { unfold bracket. rewrite <- !app_assoc. simpl. now rewrite <- !app_assoc. }
    rewrite Eb in El. apply app_inj_tail in El as [_ El]. congruence.
  - assert (ws ++ bracket body ++ rest' ++ [c'] = (ws ++ bracket body ++ rest') ++ [c'])
      as Eb by now rewrite <- !app_assoc.
    rewrite Eb in El. apply app_inj_tail in El as [-> _].
    rewrite (proj1 (lineKey_list_item ws body rest' Hws Hne Hb)) in E. discriminate.
Qed.

Lemma lineKey_ignores_line_end_witness :
  lineKey (str "- [[Foo]]" ++ str " in [[a.md]]") = Some (str "[[Foo]]")
  /\ lineKey (str "- [[Foo]]" ++ [13%N]) = lineKey (str "- [[Foo]]").
Proof.
  destruct (lineKey_ignores_line_end (str "- [[Foo]]")) as [H1 H2].
  split.
  - apply H1. reflexivity.
  - apply H2. discriminate.
Defined.

(** ** More of cleaning files *)

(** X13.  [cleanFile] touches the file it is given and no other.  When it
    answers [false] the vault is as it was.  When it answers [true] the
    document could be read, its cleaned content differs from its content
    and is what the document now holds, and the path of the document is the
    one path written.  Either way every other document is as it was. *)
Theorem cleanFile_effect (settings : BrokenLinksCleanerSettings) (file : TFile)
    (brokenLinks : JSSet) (v v' : Vault) (cleaned : bool) :
  cleanFile settings file brokenLinks v = (Some cleaned, v') ->
  (cleaned = false -> v' = v)
  /\ (cleaned = true ->
      exists f content,
        lookup_doc (path file) (docs v) = Some (f, content)
        /\ cleanBrokenWikilinks settings content brokenLinks <> content
        /\ lookup_doc (path file) (docs v')
           = Some (f, cleanBrokenWikilinks settings content brokenLinks)
        /\ written v' = written v ++ [path file])
  /\ (forall q, q <> path file -> lookup_doc q (docs v') = lookup_doc q (docs v)).
Proof.
  rewrite cleanFile_cases.
  destruct (read_fails v (path file)).
  { intros H. injection H as <- <-. repeat split; auto; discriminate. }
  destruct (lookup_doc (path file) (docs v)) as [[f content]|] eqn:El.
  2:{ intros H. injection H as <- <-. repeat split; auto; discriminate. }
  cbv zeta.
  destruct (jstring_eqb content (cleanBrokenWikilinks settings content brokenLinks))
    eqn:Ec.
  { intros H. injection H as <- <-. repeat split; auto; discriminate. }
  destruct (write_fails v (path file)).
  { intros H. injection H as <- <-. repeat split; auto; discriminate. }
  intros H. injection H as <- <-. cbn [docs written].
  split; [discriminate|]. split.
  - intros _. exists f, content. split; [reflexivity|]. split.
    + apply jstring_eqb_neq in Ec. congruence.
    + split; [now apply (lookup_store_same _ _ _ f content) | reflexivity].
  - intros q Hq. now apply lookup_store_other.
Qed.

Lemma cleanFile_effect_witness :
  exists v',
    cleanFile DEFAULT_SETTINGS (note "c.md") [str "[[Foo]]"] vault_faulty = (Some true, v')
    /\ (exists f content,
           lookup_doc (path (note "c.md")) (docs vault_faulty) = Some (f, content)
           /\ cleanBrokenWikilinks DEFAULT_SETTINGS content [str "[[Foo]]"] <> content
           /\ lookup_doc (path (note "c.md")) (docs v')
              = Some (f, cleanBrokenWikilinks DEFAULT_SETTINGS content [str "[[Foo]]"])
           /\ written v' = written vault_faulty ++ [path (note "c.md")])
    /\ (forall q, q <> path (note "c.md") ->
                  lookup_doc q (docs v') = lookup_doc q (docs vault_faulty)).
Proof.
  eexists. split; [vm_compute; reflexivity|].
  destruct (cleanFile_effect DEFAULT_SETTINGS (note "c.md") [str "[[Foo]]"]
              vault_faulty _ true ltac:(vm_compute; reflexivity)) as (_ & H2 & H3).
  split; [exact (H2 eq_refl) | exact H3].
Defined.

(** X14.  Cleaning needs a registry.  When the configured path names no
    file, the loader returns the empty set.  When the set loaded is empty,
    the whole-vault clean and the clean of the current file stop there, the
    vault as it was; the clean of the current file stops as well when no
    file is open.  And when the registry is there but cannot be read, the
    loader throws, and so do both commands: the failure is not caught. *)
Theorem clean_needs_registry (settings : BrokenLinksCleanerSettings) (v : Vault) :
  (lookup_doc (brokenLinksFile settings) (docs v) = None ->
   loadBrokenLinks settings v = (Some [], v))
  /\ (loadBrokenLinks settings v = (Some [], v) ->
      cleanAllFiles settings v = (Some None, v)
      /\ forall file, cleanCurrentFile settings file v = (Some None, v))
  /\ cleanCurrentFile settings None v = (Some None, v)
  /\ (forall f content,
         lookup_doc (brokenLinksFile settings) (docs v) = Some (f, content) ->
         read_fails v (path f) = true ->
         loadBrokenLinks settings v = (None, v)
         /\ cleanAllFiles settings v = (None, v)
         /\ forall file, cleanCurrentFile settings (Some file) v = (None, v)).
Proof.
  split; [|split; [|split]].
  - intros El. unfold loadBrokenLinks, loadWith, bind, getAbstractFileByPath.
    rewrite El.
    now destruct (existsb (jstring_eqb (brokenLinksFile settings)) (folders v)).
  - intros E. split.
    + unfold cleanAllFiles, bind. now rewrite E.
    + intros [file|]; [|reflexivity]. unfold cleanCurrentFile, bind. now rewrite E.
  - reflexivity.
  - intros f content El Hr.
    assert (loadBrokenLinks settings v = (None, v)) as E.
    { unfold loadBrokenLinks, loadWith, bind, getAbstractFileByPath, vault_read.
      now rewrite El, Hr. }
    split; [exact E|]. split.
    + unfold cleanAllFiles, bind. now rewrite E.
    + intros file. unfold cleanCurrentFile, bind. now rewrite E.
Qed.

Lemma clean_needs_registry_witness :
  loadBrokenLinks DEFAULT_SETTINGS vault_home = (Some [], vault_home)
  /\ (cleanAllFiles DEFAULT_SETTINGS vault_home = (Some None, vault_home)
      /\ forall file, cleanCurrentFile DEFAULT_SETTINGS file vault_home
                      = (Some None, vault_home))
  /\ (loadBrokenLinks (mkSettings (str "a.md") false) vault_faulty = (None, vault_faulty)
      /\ cleanAllFiles (mkSettings (str "a.md") false) vault_faulty = (None, vault_faulty)
      /\ forall file, cleanCurrentFile (mkSettings (str "a.md") false) (Some file)
                        vault_faulty
                      = (None, vault_faulty)).
Proof.
  destruct (clean_needs_registry DEFAULT_SETTINGS vault_home) as (H1 & H2 & _ & _).
  destruct (clean_needs_registry (mkSettings (str "a.md") false) vault_faulty)
    as (_ & _ & _ & H4).
  split; [apply H1; reflexivity|]. split.
  - apply H2. apply H1. reflexivity.
  - apply (H4 (note "a.md") (str "[[Foo]] a")); reflexivity.
Defined.

Lemma cleanEach_count (settings : BrokenLinksCleanerSettings) (K : JSSet)
    (files : list TFile) :
  forall (acc : nat) (v : Vault),
  exists n v' w,
    for_of files
      (fun cleanedCount file =>
         bind (cleanFile settings file K)
              (fun cleaned => ret (if cleaned then S cleanedCount else cleanedCount)))
      acc v
    = (Some (acc + n), v')
    /\ written v' = written v ++ w
    /\ length w = n
    /\ incl w (map path files)
    /\ n <= length files.
Proof.
  induction files as [|f files IH]; intros acc v.
  - exists 0, v, []. cbn [for_of]. unfold ret.
    rewrite Nat.add_0_r, app_nil_r. repeat split; [easy | simpl; lia].
  - cbn [for_of]. unfold bind at 1. unfold bind at 1.
    assert (forall acc' v0 w0,
               written v0 = written v ++ w0 -> incl w0 [path f] ->
               exists n v' w,
                 for_of files
                   (fun cleanedCount file =>
                      bind (cleanFile settings file K)
                           (fun cleaned =>
                              ret (if cleaned then S cleanedCount else cleanedCount)))
                   acc' v0
                 = (Some (acc' + n), v')
                 /\ written v' = written v ++ w
                 /\ length w = length w0 + n
                 /\ incl w (map path (f :: files))
                 /\ n <= length files) as Hgo.
    { intros acc' v0 w0 Hw0 Hi0.
      destruct (IH acc' v0) as (n & v' & w & E & Hw & Hl & Hi & Hn).
      exists n, v', (w0 ++ w). split; [exact E|].
      split; [now rewrite Hw, Hw0, app_assoc|].
      split; [rewrite length_app; lia|]. split; [|exact Hn].
      apply incl_app.
      - intros p Hp. apply Hi0 in Hp as [<-|[]]. now left.
      - intros p Hp. right. now apply Hi. }
    rewrite cleanFile_cases.
    assert (exists n v' w,
               for_of files
                 (fun cleanedCount file =>
                    bind (cleanFile settings file K)
                         (fun cleaned =>
                            ret (if cleaned then S cleanedCount else cleanedCount)))
                 acc v
               = (Some (acc + n), v')
               /\ written v' = written v ++ w
               /\ length w = n
               /\ incl w (map path (f :: files))
               /\ n <= length (f :: files)) as Hsame.
    { destruct (Hgo acc v [] (eq_sym (app_nil_r _)) (incl_nil_l _))
        as (n & v' & w & E & Hw & Hl & Hi & Hn).
      exists n, v', w. simpl in *. repeat split; auto. }
    destruct (read_fails v (path f)); [exact Hsame|].
    destruct (lookup_doc (path f) (docs v)) as [[f' c]|]; [|exact Hsame].
    cbv zeta. destruct (jstring_eqb c (cleanBrokenWikilinks settings c K));
      [exact Hsame|].
    destruct (write_fails v (path f)); [exact Hsame|].
    unfold ret at 1.
    destruct (Hgo (S acc)
                (mkVault (store_doc (path f) (cleanBrokenWikilinks settings c K) (docs v))
                         (folders v) (written v ++ [path f])
                         (read_fails v) (write_fails v))
                [path f] eq_refl (incl_refl _))
      as (n & v' & w & E & Hw & Hl & Hi & Hn).
    exists (S n), v', w. rewrite E. simpl in *.
    repeat split; auto; [f_equal; f_equal; lia | lia].
Qed.

(** The loop over files that are all different: each file is cleaned as
    [cleanFile] would clean it in the vault the loop starts from. *)
Lemma cleanEach_exact (settings : BrokenLinksCleanerSettings) (K : JSSet)
    (v : Vault) (files : list TFile) :
  forall (acc : nat) (v0 : Vault),
    NoDup (map path files) ->
    read_fails v0 = read_fails v -> write_fails v0 = write_fails v ->
    (forall f, In f files ->
               lookup_doc (path f) (docs v0) = lookup_doc (path f) (docs v)) ->
    exists v',
      for_of files
        (fun cleanedCount file =>
           bind (cleanFile settings file K)
                (fun cleaned => ret (if cleaned then S cleanedCount else cleanedCount)))
        acc v0
      = (Some (acc + length (filter (would_clean settings K v) files)), v')
      /\ written v' = written v0 ++ map path (filter (would_clean settings K v) files).
Proof.
  induction files as [|f files IH]; intros acc v0 Hnd Hr Hw Hl.
  - exists v0. cbn [for_of filter map length]. unfold ret.
    now rewrite Nat.add_0_r, app_nil_r.
  - inversion Hnd as [|? ? Hf Hnd']; subst.
    assert (forall g, In g files ->
                      lookup_doc (path g) (docs v0) = lookup_doc (path g) (docs v))
      as Hl' by (intros g Hg; apply Hl; now right).
    cbn [for_of filter]. unfold bind at 1. unfold bind at 1.
    rewrite cleanFile_cases, Hr, Hw, (Hl f (or_introl eq_refl)).
    remember (would_clean settings K v f) as wc eqn:Ewc.
    unfold would_clean in Ewc.
    destruct (read_fails v (path f)).
    { cbn in Ewc. subst wc. exact (IH acc v0 Hnd' Hr Hw Hl'). }
    destruct (lookup_doc (path f) (docs v)) as [[f' c]|].
    2:{ cbn in Ewc. subst wc. exact (IH acc v0 Hnd' Hr Hw Hl'). }
    cbv zeta.
    destruct (jstring_eqb c (cleanBrokenWikilinks settings c K)).
    { cbn in Ewc. subst wc. exact (IH acc v0 Hnd' Hr Hw Hl'). }
    destruct (write_fails v (path f)).
    { cbn in Ewc. subst wc. exact (IH acc v0 Hnd' Hr Hw Hl'). }
    cbn in Ewc. subst wc. unfold ret at 1.
    destruct (IH (S acc)
                (mkVault (store_doc (path f) (cleanBrokenWikilinks settings c K) (docs v0))
                         (folders v0) (written v0 ++ [path f])
                         (read_fails v) (write_fails v))
                Hnd' eq_refl eq_refl) as (v' & E & Hwr).
    { intros g Hg. cbn [docs]. rewrite lookup_store_other; [now apply Hl'|].
      intros Eg. apply Hf. rewrite <- Eg. now apply in_map. }
    exists v'. split.
    + rewrite E. cbn [length]. f_equal. f_equal. lia.
    + rewrite Hwr. cbn [written map]. now rewrite <- app_assoc.
Qed.

(** X15.  The loop of the whole-vault clean ends normally on any files, and
    the count of cleaned files it reports is the number of writes it made:
    each write is of one of the files, and there are no more writes than
    files.  Where the files are all different, the loop goes through every
    one of them: the paths it writes are, in the order of the files, the
    paths of exactly the files that can be read and written and whose
    cleaned content differs from their content, and the count is their
    number. *)
Theorem cleaned_count_is_writes (settings : BrokenLinksCleanerSettings)
    (brokenLinks : JSSet) (files : list TFile) (v : Vault) :
  (exists cleanedCount v' w,
      cleanEach settings brokenLinks files v = (Some cleanedCount, v')
      /\ written v' = written v ++ w
      /\ length w = cleanedCount
      /\ incl w (map path files)
      /\ cleanedCount <= length files)
  /\ (NoDup (map path files) ->
      exists v',
        cleanEach settings brokenLinks files v
        = (Some (length (filter (would_clean settings brokenLinks v) files)), v')
        /\ written v'
           = written v ++ map path (filter (would_clean settings brokenLinks v) files)).
Proof.
  split.
  - destruct (cleanEach_count settings brokenLinks files 0 v)
      as (n & v' & w & E & H).
    exists n, v', w. split; [exact E | exact H].
  - intros Hnd.
    destruct (cleanEach_exact settings brokenLinks v files 0 v Hnd eq_refl eq_refl)
      as (v' & E & Hw); [reflexivity|].
    exists v'. split; [exact E | exact Hw].
Qed.

Lemma cleaned_count_is_writes_witness :
  exists v',
    cleanEach DEFAULT_SETTINGS [str "[[Foo]]"] (map fst (docs vault_faulty)) vault_faulty
    = (Some 2, v')
    /\ written v' = written vault_faulty ++ [str "c.md"; str "broken links output.md"].
Proof.
  destruct (cleaned_count_is_writes DEFAULT_SETTINGS [str "[[Foo]]"]
              (map fst (docs vault_faulty)) vault_faulty) as [_ H].
  apply H.
  repeat constructor; intros Hin; vm_compute in Hin; intuition discriminate.
Defined.

(** X16.  The clean of the current file ends with every document other
    than the open one as it was, and with no path written or only the path
    of the open file: whatever the registry lists, no other note is
    touched. *)
Theorem cleanCurrentFile_only_that_file (settings : BrokenLinksCleanerSettings)
    (file : TFile) (v : Vault) :
  exists r v',
    cleanCurrentFile settings (Some file) v = (r, v')
    /\ (forall q, q <> path file -> lookup_doc q (docs v') = lookup_doc q (docs v))
    /\ (written v' = written v \/ written v' = written v ++ [path file]).
Proof.
  unfold cleanCurrentFile. unfold bind at 1.
  pose proof (loadWith_state lineKey settings v) as Hs.
  fold loadBrokenLinks in Hs.
  destruct (loadBrokenLinks settings v) as [[K|] v0]; cbn [snd] in Hs; subst v0.
  2:{ exists None, v. auto. }
  destruct (set_size K =? 0); [exists (Some None), v; unfold ret; auto|].
  unfold bind.
  destruct (cleanFile settings file K v) as [[cleaned|] v'] eqn:E.
  - exists (Some (Some cleaned)), v'. split; [reflexivity|].
    rewrite cleanFile_cases in E.
    destruct (read_fails v (path file));
      [injection E as <- <-; auto|].
    destruct (lookup_doc (path file) (docs v)) as [[f c]|];
      [|injection E as <- <-; auto].
    cbv zeta in E.
    destruct (jstring_eqb c (cleanBrokenWikilinks settings c K));
      [injection E as <- <-; auto|].
    destruct (write_fails v (path file)); injection E as <- <-; [auto|].
    cbn [docs written]. split; [|now right].
    intros q Hq. now apply lookup_store_other.
  - rewrite cleanFile_cases in E.
    destruct (read_fails v (path file)); [discriminate|].
    destruct (lookup_doc (path file) (docs v)) as [[f c]|]; [|discriminate].
    cbv zeta in E.
    destruct (jstring_eqb c (cleanBrokenWikilinks settings c K)); [discriminate|].
    destruct (write_fails v (path file)); discriminate.
Qed.

Lemma cleanCurrentFile_only_that_file_witness :
  exists r v',
    cleanCurrentFile DEFAULT_SETTINGS (Some (note "c.md")) vault_faulty = (r, v')
    /\ (forall q, q <> path (note "c.md") ->
                  lookup_doc q (docs v') = lookup_doc q (docs vault_faulty))
    /\ (written v' = written vault_faulty
        \/ written v' = written vault_faulty ++ [path (note "c.md")]).
Proof. exact (cleanCurrentFile_only_that_file DEFAULT_SETTINGS (note "c.md") vault_faulty). Defined.

(** ** Saving the list of orphans or of empty files *)

Lemma bind_assoc {A B C} (c : IO A) (g : A -> IO B) (h : B -> IO C) (v : Vault) :
  bind (bind c g) h v = bind c (fun x => bind (g x) h) v.
Proof. unfold bind. now destruct (c v) as [[a|] v0]. Qed.

(** X17.  The result windows save their list under a name that ends in the
    date, the part of the ISO time before its [T].  Where the write does
    not fail and the name is not that of a folder, saving ends normally
    whether a file of that name is there or not: the file then holds the
    list and every other document is as it was, so a second save on the
    same day replaces the first.  In the earlier revision a save over a
    file that is there throws and leaves the vault as it was. *)
Theorem saveToFile_overwrites (files : list TFile) (now iso : jstring) (v : Vault) :
  (forall date time, ~ In 84%N date -> isoDate (date ++ 84%N :: time) = date)
  /\ (forall fileName,
         fileName = str "Orphan files report " ++ isoDate iso ++ str ".md" ->
         write_fails v fileName = false ->
         (lookup_doc fileName (docs v) = None ->
          existsb (jstring_eqb fileName) (folders v) = false) ->
         exists v',
           OrphanFilesModal_saveToFile files now iso v = (Some fileName, v')
           /\ (exists f, lookup_doc fileName (docs v')
                         = Some (f, orphanReportContent now files))
           /\ (forall q, q <> fileName -> lookup_doc q (docs v') = lookup_doc q (docs v)))
  /\ (forall fileName,
         fileName = str "Empty files report " ++ isoDate iso ++ str ".md" ->
         write_fails v fileName = false ->
         (lookup_doc fileName (docs v) = None ->
          existsb (jstring_eqb fileName) (folders v) = false) ->
         exists v',
           EmptyFilesModal_saveToFile files now iso v = (Some fileName, v')
           /\ (exists f, lookup_doc fileName (docs v')
                         = Some (f, emptyReportContent now files))
           /\ (forall q, q <> fileName -> lookup_doc q (docs v') = lookup_doc q (docs v)))
  /\ (forall fileName,
         fileName = str "Orphan Files Report " ++ isoDate iso ++ str ".md" ->
         lookup_doc fileName (docs v) <> None ->
         OrphanFilesModal_saveToFile_legacy files now iso v = (None, v)).
Proof.
  split; [|split; [|split]].
  - intros date time H. unfold isoDate, split_first.
    now rewrite split_on_line.
  - intros fileName -> Hw Hfo.
    destruct (save_report _ (orphanReportContent now files) v Hw Hfo)
      as (v' & E & Hl & Ho & _).
    exists v'. split; [|split; [exact Hl | exact Ho]].
    unfold OrphanFilesModal_saveToFile. cbv zeta. rewrite <- bind_assoc.
    unfold bind at 1. rewrite E. reflexivity.
  - intros fileName -> Hw Hfo.
    destruct (save_report _ (emptyReportContent now files) v Hw Hfo)
      as (v' & E & Hl & Ho & _).
    exists v'. split; [|split; [exact Hl | exact Ho]].
    unfold EmptyFilesModal_saveToFile. cbv zeta. rewrite <- bind_assoc.
    unfold bind at 1. rewrite E. reflexivity.
  - intros fileName -> Hl.
    unfold OrphanFilesModal_saveToFile_legacy. cbv zeta.
    unfold bind, vault_create, throw.
    destruct (write_fails v _); [reflexivity|].
    now destruct (lookup_doc _ (docs v)).
Qed.

Lemma saveToFile_overwrites_witness :
  isoDate (str "2026-11-03" ++ 84%N :: str "10:00:00.000Z") = str "2026-11-03"
  /\ (exists v',
         OrphanFilesModal_saveToFile [note "C.md"] a_date (str "2026-11-03T10:00:00.000Z")
           (mkVault [(note "C.md", []); (note "Orphan files report 2026-11-03.md", str "old")]
                    [] [] never never)
         = (Some (str "Orphan files report 2026-11-03.md"), v')
         /\ (exists f, lookup_doc (str "Orphan files report 2026-11-03.md") (docs v')
                       = Some (f, orphanReportContent a_date [note "C.md"]))
         /\ (forall q, q <> str "Orphan files report 2026-11-03.md" ->
                       lookup_doc q (docs v')
                       = lookup_doc q [(note "C.md", []);
                                       (note "Orphan files report 2026-11-03.md", str "old")]))
  /\ OrphanFilesModal_saveToFile_legacy [note "C.md"] a_date (str "2026-11-03T10:00:00.000Z")
       (mkVault [(note "C.md", []); (note "Orphan Files Report 2026-11-03.md", str "old")]
                [] [] never never)
     = (None,
        mkVault [(note "C.md", []); (note "Orphan Files Report 2026-11-03.md", str "old")]
                [] [] never never).
Proof.
  split; [|split].
  - destruct (saveToFile_overwrites [] [] [] (mkVault [] [] [] never never))
      as (H1 & _).
    apply H1. intros H; vm_compute in H; intuition discriminate.
  - destruct (saveToFile_overwrites [note "C.md"] a_date
                (str "2026-11-03T10:00:00.000Z")
                (mkVault [(note "C.md", []);
                          (note "Orphan files report 2026-11-03.md", str "old")]
                         [] [] never never))
      as (_ & H2 & _).
    apply (H2 (str "Orphan files report 2026-11-03.md")).
    + reflexivity.
    + reflexivity.
    + discriminate.
  - destruct (saveToFile_overwrites [note "C.md"] a_date
                (str "2026-11-03T10:00:00.000Z")
                (mkVault [(note "C.md", []);
                          (note "Orphan Files Report 2026-11-03.md", str "old")]
                         [] [] never never))
      as (_ & _ & _ & H4).
    apply (H4 (str "Orphan Files Report 2026-11-03.md")).
    + reflexivity.
    + discriminate.
Defined.

(** ** From the scan to the registry *)

Lemma scan_after_scanFiles (settings : BrokenLinksCleanerSettings) (res : Resolver)
    (now : jstring) (v : Vault) (m : JSMap) (n : nat) :
  scanFiles res (map fst (docs v)) v = (Some (m, n), v) ->
  scanAndGenerateBrokenLinks settings res now v
  = if length m =? 0 then (Some tt, v)
    else bind (getAbstractFileByPath (brokenLinksFile settings))
              (fun existingFile =>
                 match existingFile with
                 | Some (AFile f) => vault_modify f (reportContent now m n)
                 | _ => vault_create (brokenLinksFile settings) (reportContent now m n)
                 end) v.
Proof.
  intros Hscan. unfold scanAndGenerateBrokenLinks.
  unfold bind at 1. unfold getMarkdownFiles at 1. unfold bind at 1.
  rewrite Hscan. now destruct (length m =? 0).
Qed.

(** Saving a report changes neither what can be read nor what can be
    written. *)
Lemma save_report_oracles (p data : jstring) (v v' : Vault) :
  bind (getAbstractFileByPath p)
       (fun existingFile =>
          match existingFile with
          | Some (AFile f) => vault_modify f data
          | _ => vault_create p data
          end) v
  = (Some tt, v') ->
  read_fails v' = read_fails v /\ write_fails v' = write_fails v.
Proof.
  unfold bind, getAbstractFileByPath, vault_modify, vault_create, throw.
  destruct (lookup_doc p (docs v)) as [[f c]|] eqn:El.
  - destruct (write_fails v (path f)); [discriminate|].
    destruct (lookup_doc (path f) (docs v)); [|discriminate].
    intros H. now injection H as <-.
  - destruct (existsb (jstring_eqb p) (folders v)) eqn:Ef;
      (destruct (write_fails v p); [discriminate|]); rewrite El, ?Ef;
      [discriminate|].
    intros H. now injection H as <-.
Qed.

Lemma match_all_link (s link : jstring) :
  In link (match_all linkRegex s) ->
  exists body, body <> [] /\ Forall (fun c => not_rbr c = true) body
               /\ link = bracket body.
Proof.
  unfold match_all. rewrite in_map_iff. intros (m & <- & Hin).
  apply in_hits in Hin. apply segments_fuel_hit in Hin as (bol & s' & rest & E).
  apply link_inv in E as (body & Hne & Hb & _ & ->). now exists body.
Qed.

Lemma split_first_incl (sep c : char) (s : jstring) :
  In c (split_first sep s) -> In c s.
Proof.
  unfold split_first. induction s as [|x s IH]; cbn [split_on]; [intros []|].
  destruct (chr_eqb x sep); [intros []|].
  destruct (split_on sep s) as [|piece rest]; simpl in *.
  - intros [H|[]]. now left.
  - intros [H|H]; [now left | right; now apply IH].
Qed.

Lemma drop_while_incl (p : char -> bool) (c : char) (s : jstring) :
  In c (drop_while p s) -> In c s.
Proof.
  induction s as [|x s IH]; simpl; [auto|].
  destruct (p x); [intros H; right; now apply IH | auto].
Qed.

Lemma trim_incl (c : char) (s : jstring) : In c (trim s) -> In c s.
Proof.
  unfold trim, trim_end, trim_start. intros H.
  apply in_rev, drop_while_incl in H. apply in_rev in H.
  now apply drop_while_incl in H.
Qed.

(** The text the scan takes from a link has no []]. *)
Lemma scanLinkText_no_rbr (s link : jstring) :
  In link (match_all linkRegex s) -> ~ In rbr (scanLinkText link).
Proof.
  intros Hin H. apply match_all_link in Hin as (body & _ & Hb & ->).
  unfold scanLinkText in H. rewrite slice_bracket in H.
  apply trim_incl, split_first_incl in H.
  apply no_rbr_Forall in Hb. contradiction.
Qed.

(** X18.  Scan, then load.  In a vault where every document can be read,
    no path has a line end, and the target of every link, trimmed, is not
    empty and has no line end: when the scan finds a broken link and can
    save its report, the registry loaded next is the keys of the scan, each
    once, in the order the scan met them. *)
Theorem scan_then_load (settings : BrokenLinksCleanerSettings)
    (getFirstLinkpathDest : Resolver) (now : jstring) (v : Vault) :
  NoDup (paths_of (docs v)) ->
  (forall d, In d (docs v) -> read_fails v (path (fst d)) = false) ->
  (forall d, In d (docs v) -> ~ In nl (path (fst d))) ->
  (forall d link,
      In d (docs v) -> In link (match_all linkRegex (snd d)) ->
      scanLinkText link <> [] /\ ~ In nl (scanLinkText link)) ->
  ~ In nl now ->
  write_fails v (brokenLinksFile settings) = false ->
  read_fails v (brokenLinksFile settings) = false ->
  (lookup_doc (brokenLinksFile settings) (docs v) = None ->
   existsb (jstring_eqb (brokenLinksFile settings)) (folders v) = false) ->
  exists brokenLinksMap totalLinksChecked,
    scanFiles getFirstLinkpathDest (map fst (docs v)) v
    = (Some (brokenLinksMap, totalLinksChecked), v)
    /\ (brokenLinksMap <> [] ->
        exists v',
          scanAndGenerateBrokenLinks settings getFirstLinkpathDest now v = (Some tt, v')
          /\ loadBrokenLinks settings v' = (Some (map fst brokenLinksMap), v')).
Proof.
  intros Hnd Hread Hpaths Hlinks Hnow Hw Hr Hfo.
  pose proof (scanFiles_run getFirstLinkpathDest v Hnd Hread) as Hscan.
  destruct (checkDocs_run getFirstLinkpathDest (existingFilesOf (map fst (docs v)))
              (docs v) ([], 0)) as (_ & Hi & Hl).
  revert Hscan Hi Hl.
  match goal with
  | |- context [fold_left ?f (docs v) ([], 0)] =>
      destruct (fold_left f (docs v) ([], 0)) as [m n]
  end.
  cbn [fst snd]. intros Hscan Hi Hl.
  assert (scan_inv m n) as (Hkeys & Hne & _).
  { apply Hi. repeat split; [constructor | intros k ps [] | simpl; lia]. }
  exists m, n. split; [exact Hscan|]. intros Hm.
  rewrite (scan_after_scanFiles settings _ now v m n Hscan).
  destruct m as [|e m']; [contradiction|]. cbn [length Nat.eqb].
  remember (e :: m') as m eqn:Em. clear Hm.
  destruct (save_report (brokenLinksFile settings) (reportContent now m n) v Hw Hfo)
    as (v' & E & (f & Hf) & _ & _).
  exists v'. split; [exact E|].
  destruct (save_report_oracles _ _ _ _ E) as [Hrf _].
  unfold loadBrokenLinks.
  rewrite (loadWith_reads lineKey settings v' f (reportContent now m n) Hf).
  2:{ rewrite Hrf, (lookup_doc_path _ _ _ _ Hf). exact Hr. }
  f_equal. f_equal. apply report_keys; [exact Hnow | exact Hkeys |].
  intros k ps Hin.
  assert (forall p, In p ps ->
                    exists d link,
                      In d (docs v) /\ In link (match_all linkRegex (snd d))
                      /\ k = bracket (scanLinkText link) /\ p = path (fst d)) as Hfrom.
  { intros p Hp.
    destruct (proj1 (Hl k p)) as [(ps' & [] & _)|(d & link & Hd & Hlk & _ & Hk & Hp')].
    - now exists ps.
    - now exists d, link. }
  split.
  - destruct ps as [|p ps]; [now apply Hne in Hin|].
    destruct (Hfrom p (or_introl eq_refl)) as (d & link & Hd & Hlk & -> & _).
    destruct (Hlinks d link Hd Hlk) as [Ht Hn].
    exists (scanLinkText link). repeat split; auto.
    now apply (scanLinkText_no_rbr (snd d)).
  - intros p Hp. destruct (Hfrom p Hp) as (d & link & Hd & _ & _ & ->).
    now apply Hpaths.
Qed.

Lemma scan_then_load_witness :
  exists brokenLinksMap totalLinksChecked,
    scanFiles no_target (map fst (docs vault_two)) vault_two
    = (Some (brokenLinksMap, totalLinksChecked), vault_two)
    /\ (brokenLinksMap <> [] ->
        exists v',
          scanAndGenerateBrokenLinks DEFAULT_SETTINGS no_target a_date vault_two
          = (Some tt, v')
          /\ loadBrokenLinks DEFAULT_SETTINGS v' = (Some (map fst brokenLinksMap), v')).
Proof.
  apply (scan_then_load DEFAULT_SETTINGS no_target a_date vault_two).
  - repeat constructor; intros H; vm_compute in H; intuition discriminate.
  - intros d Hd. reflexivity.
  - intros d [<-|[<-|[]]]; intros H; vm_compute in H; intuition discriminate.
  - intros d link [<-|[<-|[]]] Hin; vm_compute in Hin;
      repeat (destruct Hin as [<-|Hin];
              [split; [discriminate | intros H; vm_compute in H; intuition discriminate]|]);
      destruct Hin.
  - intros H; vm_compute in H; intuition discriminate.
  - reflexivity.
  - reflexivity.
  - reflexivity.
Defined.

(** ** The two revisions of the loader *)

(** X19.  The loader reads no key that the loader of the earlier revision
    did not read: on every registry, the set it returns is within the set
    the earlier loader returns, and on a list item the two give the same
    key. *)
Theorem loader_within_legacy (content : jstring) :
  (forall k, In k (parseLines lineKey content) ->
             In k (parseLines lineKey_legacy content))
  /\ (forall line k, lineKey line = Some k -> lineKey_legacy line = Some k).
Proof.
  assert (forall line k, lineKey line = Some k -> lineKey_legacy line = Some k) as H.
  { intros line k E.
    apply lineKey_iff in E as (ws & body & rest & Hws & Hne & Hb & -> & ->).
    now apply lineKey_list_item. }
  split; [|exact H].
  intros k Hin. apply parseLines_in in Hin as (line & Hl & Hk).
  apply parseLines_in. exists line. auto.
Qed.

Lemma loader_within_legacy_witness :
  In (str "[[Foo]]")
     (parseLines lineKey_legacy (str "# [[Top]]" ++ nl :: str "- [[Foo]] in [[a.md]]"))
  /\ lineKey_legacy (str "- [[Foo]] in [[a.md]]") = Some (str "[[Foo]]").
Proof.
  destruct (loader_within_legacy (str "# [[Top]]" ++ nl :: str "- [[Foo]] in [[a.md]]"))
    as [H1 H2].
  split.
  - apply H1. vm_compute. now left.
  - apply H2. reflexivity.
Defined.

(** ** The report, cleaned

    The report is one of the Markdown files, so a whole-vault clean cleans
    it with the keys loaded from it. *)

Lemma reportContent_header (now : jstring) (m : JSMap) (n : nat) :
  reportContent now m n = reportHeader now (length m) n ++ flat_map reportLine m.
Proof. unfold reportContent, reportHeader. now rewrite <- !app_assoc. Qed.

Lemma plain_by_check (s : jstring) :
  forallb (fun c => negb (chr_eqb c lbr) && negb (chr_eqb c rbr)) s = true ->
  Forall (fun c => c <> lbr /\ c <> rbr) s.
Proof.
  rewrite forallb_forall, Forall_forall. intros H c Hc.
  apply H, andb_prop in Hc as [H1 H2].
  apply negb_true_iff, chr_eqb_neq in H1, H2. auto.
Qed.

Lemma uint_chars_plain (d : Decimal.uint) :
  Forall (fun c => c <> lbr /\ c <> rbr) (uint_chars d).
Proof. induction d; simpl; constructor; auto; split; discriminate. Qed.

Lemma reportHeader_plain (now : jstring) (k n : nat) :
  ~ In lbr now -> ~ In rbr now ->
  Forall (fun c => c <> lbr /\ c <> rbr) (reportHeader now k n).
Proof.
  intros H1 H2. unfold reportHeader.
  repeat (apply Forall_app; split);
    first [ apply plain_by_check; reflexivity
          | now apply plain_chars
          | apply uint_chars_plain ].
Qed.

Lemma reportHeader_lines (now : jstring) (k n : nat) (body : jstring) :
  ~ In nl now ->
  split_on nl (reportHeader now k n ++ body)
  = [str "# Broken links report"; []; str "Generated: " ++ now;
     str "Total broken links: " ++ show_nat k;
     str "Total links checked: " ++ show_nat n; []; str "## Broken links:"; []]
    ++ split_on nl body.
Proof.
  intros Hnow. unfold reportHeader. rewrite <- !app_assoc.
  assert (forall (lit : string) (x : jstring),
             ~ In nl (str lit) -> ~ In nl x -> ~ In nl (str lit ++ x)) as Happ.
  { intros lit x H1 H2 Hin. apply in_app_or in Hin as [Hin|Hin]; contradiction. }
  cbn [app].
  rewrite (split_on_line nl (str "# Broken links report"))
    by (intros H; vm_compute in H; intuition discriminate).
  rewrite split_on_sep.
  rewrite (app_assoc (str "Generated: ") now).
  rewrite (split_on_line nl (str "Generated: " ++ now))
    by (apply Happ; [intros H; vm_compute in H; intuition discriminate | exact Hnow]).
  rewrite (app_assoc (str "Total broken links: ") (show_nat k)).
  rewrite (split_on_line nl (str "Total broken links: " ++ show_nat k))
    by (apply Happ; [intros H; vm_compute in H; intuition discriminate
                    | apply show_nat_no_nl]).
  rewrite (app_assoc (str "Total links checked: ") (show_nat n)).
  rewrite (split_on_line nl (str "Total links checked: " ++ show_nat n))
    by (apply Happ; [intros H; vm_compute in H; intuition discriminate
                    | apply show_nat_no_nl]).
  rewrite split_on_sep.
  rewrite (split_on_line nl (str "## Broken links:"))
    by (intros H; vm_compute in H; intuition discriminate).
  rewrite split_on_sep.
  reflexivity.
Qed.

Lemma plain_name_chars (s : jstring) :
  plain_name s -> Forall (fun c => c <> lbr /\ c <> rbr) s.
Proof. intros (H1 & H2 & _). now apply plain_chars. Qed.

(** The report is a text whose links do not nest, and none of its links
    has a [|]. *)
Lemma shaped_join (P : jstring -> Prop) (ps : list jstring) (s : jstring) :
  (forall p, In p ps -> p <> [] /\ plain_name p /\ P p) ->
  shaped P s -> shaped P (join (str ", ") (map bracket ps) ++ s).
Proof.
  induction ps as [|p ps IH]; intros H Hs; [exact Hs|].
  destruct (H p (or_introl eq_refl)) as (Hne & Hp & HP).
  assert (shaped P (join (str ", ") (map bracket ps) ++ s)) as Hrest.
  { apply IH; [|exact Hs]. intros q Hq. apply H. now right. }
  destruct ps as [|q ps].
  - cbn [map join]. apply shaped_link; auto. now apply plain_name_chars.
  - cbn [map join] in *. rewrite <- !app_assoc.
    apply shaped_link; auto; [now apply plain_name_chars|].
    apply shaped_text; [apply plain_by_check; reflexivity | exact Hrest].
Qed.

Lemma shaped_report (P : jstring -> Prop) (m : JSMap) :
  plain_report m -> (forall s, plain_name s -> P s) ->
  shaped P (flat_map reportLine m).
Proof.
  intros Hm HP. induction m as [|[k ps] m IH]; [constructor|].
  destruct (Hm k ps (or_introl eq_refl)) as [(t & -> & Hne & Ht) Hps].
  cbn [flat_map]. unfold reportLine at 1. cbn [fst snd]. rewrite <- !app_assoc.
  apply shaped_text; [apply plain_by_check; reflexivity|].
  apply shaped_link; auto; [now apply plain_name_chars|].
  apply shaped_text; [apply plain_by_check; reflexivity|].
  apply shaped_join.
  - intros p Hp. destruct (Hps p Hp). auto.
  - cbn [app]. apply shaped_chr; [discriminate|].
    apply IH. intros k' ps' Hin. apply (Hm k' ps'). now right.
Qed.

Lemma plainPass_at_link (d : bool) (K : JSSet) (p s : jstring) :
  p <> [] -> ~ In rbr p ->
  plainPass d K (bracket p ++ s)
  = plainReplacer d K (RMatch (bracket p) [p]) ++ plainPass d K s.
Proof.
  intros Hne Hp. apply plainPass_hit. apply link_exec; [exact Hne|].
  now apply no_rbr_Forall.
Qed.

Lemma plainReplacer_no_nl (d : bool) (K : JSSet) (p : jstring) :
  ~ In nl p -> ~ In nl (plainReplacer d K (RMatch (bracket p) [p])).
Proof.
  intros Hp. unfold plainReplacer. cbn [matched capture captures Nat.sub nth].
  destruct (set_has K (bracket p)); [|now apply bracket_no_nl].
  destruct d; [easy | exact Hp].
Qed.

Lemma plainPass_join (d : bool) (K : JSSet) (ps : list jstring) :
  (forall p, In p ps -> p <> [] /\ plain_name p) ->
  exists J,
    ~ In nl J
    /\ forall s, plainPass d K (join (str ", ") (map bracket ps) ++ s)
                 = J ++ plainPass d K s.
Proof.
  induction ps as [|p ps IH]; intros H.
  - exists []. split; [easy | reflexivity].
  - destruct (H p (or_introl eq_refl)) as (Hne & _ & Hr & _ & Hn).
    destruct IH as (J & HJ & EJ); [intros q Hq; apply H; now right|].
    destruct ps as [|q ps].
    + exists (plainReplacer d K (RMatch (bracket p) [p])).
      split; [now apply plainReplacer_no_nl|].
      intros s. cbn [map join]. now apply plainPass_at_link.
    + exists (plainReplacer d K (RMatch (bracket p) [p]) ++ str ", " ++ J). split.
      * intros Hin. apply in_app_or in Hin as [Hin|Hin];
          [now apply (plainReplacer_no_nl d K p Hn)|].
        apply in_app_or in Hin as [Hin|Hin]; [|contradiction].
        vm_compute in Hin. intuition discriminate.
      * intros s. cbn [map join] in *. rewrite <- !app_assoc.
        rewrite plainPass_at_link by assumption.
        rewrite (plainPass_skip d K (str ", ")) by (repeat constructor; discriminate).
        now rewrite EJ.
Qed.

(** A line where something other than [[] comes after the white space and
    the dashes gives no key. *)
Lemma lineKey_not_item (pre u rest : jstring) (c : char) :
  Forall (fun a => space_or_dash a = true) pre ->
  ~ In lbr u -> space_or_dash c = false -> c <> lbr ->
  lineKey (pre ++ u ++ c :: rest) = None.
Proof.
  intros Hpre Hu Hc Hl.
  destruct (lineKey (pre ++ u ++ c :: rest)) as [k|] eqn:E; [|reflexivity].
  exfalso. apply lineKey_shape in E as (ws & body & rest' & Hws & _ & _ & E & _).
  rewrite bracket_app in E.
  assert (exists w x r,
             pre ++ u ++ c :: rest = w ++ x :: r
             /\ Forall (fun a => space_or_dash a = true) w
             /\ space_or_dash x = false /\ x <> lbr) as (w & x & r & Ew & Hw & Hx & Hxl).
  { rewrite app_assoc.
    destruct (drop_while space_or_dash (pre ++ u)) as [|x r] eqn:Ed.
    - exists (pre ++ u), c, rest. split; [reflexivity|]. split; [|auto].
      rewrite <- (take_drop_while space_or_dash (pre ++ u)), Ed, app_nil_r.
      apply take_while_all.
    - exists (take_while space_or_dash (pre ++ u)), x, (r ++ c :: rest).
      split; [|split; [apply take_while_all|]].
      + rewrite <- (take_drop_while space_or_dash (pre ++ u)) at 1.
        rewrite Ed, <- app_assoc. reflexivity.
      + pose proof (drop_while_head _ _ _ _ Ed) as Hx. split; [exact Hx|].
        assert (In x (pre ++ u)) as Hin.
        { apply (drop_while_incl space_or_dash). rewrite Ed. now left. }
        apply in_app_or in Hin as [Hin|Hin].
        * rewrite Forall_forall in Hpre. rewrite (Hpre x Hin) in Hx. discriminate.
        * intros ->. contradiction. }
  rewrite Ew in E.
  apply (split_unique space_or_dash) in E as (_ & Ex & _); auto.
Qed.

Lemma plainPass_reportLine (d : bool) (K : JSSet) (t : jstring) (ps : list jstring) :
  t <> [] -> plain_name t -> set_has K (bracket t) = true ->
  (forall p, In p ps -> p <> [] /\ plain_name p) ->
  exists l,
    ~ In nl l /\ lineKey l = None
    /\ forall s, plainPass d K (reportLine (bracket t, ps) ++ s)
                 = l ++ nl :: plainPass d K s.
Proof.
  intros Hne (Htl & Htr & _ & Htn) HK Hps.
  destruct (plainPass_join d K ps Hps) as (J & HJ & EJ).
  exists (str "- " ++ (if d then [] else t) ++ str " in " ++ J).
  assert (~ In nl (if d then [] else t)) as Hun by (destruct d; [easy | exact Htn]).
  assert (~ In lbr (if d then [] else t)) as Hul by (destruct d; [easy | exact Htl]).
  split; [|split].
  - intros Hin. apply in_app_or in Hin as [Hin|Hin].
    { vm_compute in Hin. intuition discriminate. }
    apply in_app_or in Hin as [Hin|Hin]; [contradiction|].
    apply in_app_or in Hin as [Hin|Hin]; [|contradiction].
    vm_compute in Hin. intuition discriminate.
  - change (str " in " ++ J) with (32%N :: 105%N :: 110%N :: 32%N :: J).
    assert ((if d then [] else t) ++ 32%N :: 105%N :: 110%N :: 32%N :: J
            = ((if d then [] else t) ++ [32%N]) ++ 105%N :: 110%N :: 32%N :: J) as ->.
    { now rewrite <- app_assoc. }
    apply lineKey_not_item.
    + repeat constructor.
    + intros Hin. apply in_app_or in Hin as [Hin|[Hin|[]]];
        [contradiction | discriminate].
    + reflexivity.
    + discriminate.
  - intros s. unfold reportLine. cbn [fst snd]. rewrite <- !app_assoc.
    rewrite (plainPass_skip d K (str "- ")) by (repeat constructor; discriminate).
    rewrite plainPass_at_link by assumption.
    unfold plainReplacer. cbn [matched capture captures Nat.sub nth]. rewrite HK.
    rewrite (plainPass_skip d K (str " in ")) by (repeat constructor; discriminate).
    rewrite EJ.
    rewrite (plainPass_skip d K [nl]) by (repeat constructor; discriminate).
    reflexivity.
Qed.

Lemma plainPass_report (d : bool) (K : JSSet) (m : JSMap) :
  plain_report m -> (forall k ps, In (k, ps) m -> set_has K k = true) ->
  exists L,
    (forall l, In l L -> ~ In nl l /\ lineKey l = None)
    /\ plainPass d K (flat_map reportLine m) = flat_map (fun l => l ++ [nl]) L.
Proof.
  intros Hm HK. induction m as [|[k ps] m IH].
  - exists []. split; [intros l []|]. apply plainPass_nil.
  - destruct IH as (L & HL & EL).
    { intros k' ps' Hin. apply (Hm k' ps'). now right. }
    { intros k' ps' Hin. apply (HK k' ps'). now right. }
    destruct (Hm k ps (or_introl eq_refl)) as [(t & -> & Hne & Ht) Hps].
    destruct (plainPass_reportLine d K t ps Hne Ht
                (HK _ _ (or_introl eq_refl)) Hps) as (l & Hl1 & Hl2 & El).
    exists (l :: L). split.
    + intros l' [<-|Hin]; [auto | now apply HL].
    + cbn [flat_map]. rewrite El, EL. now rewrite <- app_assoc.
Qed.

Lemma lines_of_lines (L : list jstring) :
  (forall l, In l L -> ~ In nl l) ->
  split_on nl (flat_map (fun l => l ++ [nl]) L) = L ++ [[]].
Proof.
  induction L as [|l L IH]; intros H; [reflexivity|].
  cbn [flat_map]. rewrite <- app_assoc. cbn [app].
  rewrite split_on_line by (apply H; now left).
  rewrite IH; [reflexivity|]. intros l' Hl'. apply H. now right.
Qed.

Lemma fold_addLine_none (key : jstring -> option jstring) (lines : list jstring)
    (acc : JSSet) :
  (forall line, In line lines -> key line = None) ->
  fold_left (addLine key) lines acc = acc.
Proof.
  induction lines as [|l lines IH]; intros H; [reflexivity|].
  cbn [fold_left]. unfold addLine at 2. rewrite (H l (or_introl eq_refl)).
  apply IH. intros line Hin. apply H. now right.
Qed.

(** The report, cleaned with its own keys, lists nothing. *)
Lemma report_cleaned_keys (settings : BrokenLinksCleanerSettings)
    (now : jstring) (m : JSMap) (n : nat) (K : JSSet) :
  ~ In lbr now -> ~ In rbr now -> ~ In nl now ->
  plain_report m -> (forall k ps, In (k, ps) m -> set_has K k = true) ->
  parseLines lineKey (cleanBrokenWikilinks settings (reportContent now m n) K) = [].
Proof.
  intros Hl Hr Hn Hm HK. unfold cleanBrokenWikilinks.
  rewrite reportContent_header.
  rewrite aliasPass_settled.
  2:{ apply shaped_text; [now apply reportHeader_plain|].
      apply shaped_report; [exact Hm|].
      intros s (_ & _ & Hp & _). now apply alias_kept_plain. }
  rewrite plainPass_skip.
  2:{ eapply Forall_impl; [|apply (reportHeader_plain now (length m) n Hl Hr)].
      now intros c [H _]. }
  destruct (plainPass_report (deleteText settings) K m Hm HK) as (L & HL & ->).
  unfold parseLines. rewrite reportHeader_lines by exact Hn.
  rewrite lines_of_lines by (intros l Hin; now apply HL).
  apply fold_addLine_none.
  intros line [<-|[<-|[<-|[<-|[<-|[<-|[<-|[<-|Hin]]]]]]]]; try reflexivity.
  - apply (lineKey_other_head 71%N); [reflexivity | discriminate].
  - apply (lineKey_other_head 84%N); [reflexivity | discriminate].
  - apply (lineKey_other_head 84%N); [reflexivity | discriminate].
  - cbn [app] in Hin. apply in_app_or in Hin as [Hin|Hin]; [now apply HL|].
    destruct Hin as [<-|[]]. reflexivity.
Qed.

Lemma lookup_doc_after_clean (settings : BrokenLinksCleanerSettings) (K : JSSet)
    (rf wf : jstring -> bool) (p : jstring) (ds : list (TFile * jstring)) :
  lookup_doc p (map (after_clean settings K rf wf) ds)
  = option_map (after_clean settings K rf wf) (lookup_doc p ds).
Proof.
  induction ds as [|[f c] ds IH]; [reflexivity|].
  cbn [map lookup_doc after_clean fst snd].
  now destruct (jstring_eqb p (path f)).
Qed.

(** The whole-vault clean, run: every document that can be read and
    written is cleaned. *)
Lemma cleanAllFiles_run (settings : BrokenLinksCleanerSettings) (K : JSSet) (v : Vault) :
  NoDup (paths_of (docs v)) ->
  loadBrokenLinks settings v = (Some K, v) -> K <> [] ->
  exists n w',
    cleanAllFiles settings v
    = (Some (Some (n, length (docs v))),
       mkVault (map (after_clean settings K (read_fails v) (write_fails v)) (docs v))
               (folders v) w' (read_fails v) (write_fails v)).
Proof.
  intros Hnd Hload HK.
  unfold cleanAllFiles. unfold bind at 1. rewrite Hload.
  destruct K as [|k K]; [contradiction|]. cbn [set_size length Nat.eqb].
  unfold bind at 1. unfold getMarkdownFiles at 1. unfold bind at 1.
  unfold cleanEach. destruct v as [ds fo w rf wf].
  cbn [docs read_fails write_fails folders] in *.
  destruct (cleanEach_loop settings (k :: K) fo rf wf ds [] 0 w Hnd)
    as (n & w' & E).
  simpl app in E. rewrite E. unfold ret. rewrite length_map.
  now exists n, w'.
Qed.

(** X20.  The report is a Markdown file, so the whole-vault clean cleans
    it too, with the keys it has loaded from it.  Where the report is as
    the scan wrote it, of plain names, and can be read and written: after
    the clean the report lists nothing, the loader returns the empty set,
    and a second whole-vault clean stops for want of keys and changes
    nothing. *)
Theorem clean_consumes_report (settings : BrokenLinksCleanerSettings)
    (now : jstring) (m : JSMap) (n : nat) (v : Vault) (f : TFile) :
  NoDup (paths_of (docs v)) ->
  lookup_doc (brokenLinksFile settings) (docs v) = Some (f, reportContent now m n) ->
  read_fails v (brokenLinksFile settings) = false ->
  write_fails v (brokenLinksFile settings) = false ->
  ~ In lbr now -> ~ In rbr now -> ~ In nl now ->
  m <> [] -> NoDup (map fst m) -> plain_report m ->
  exists cleanedCount v',
    cleanAllFiles settings v = (Some (Some (cleanedCount, length (docs v))), v')
    /\ loadBrokenLinks settings v' = (Some [], v')
    /\ cleanAllFiles settings v' = (Some None, v').
Proof.
  intros Hnd Hf Hrf Hwf Hl Hr Hn Hne Hkeys Hm.
  pose proof (lookup_doc_path _ _ _ _ Hf) as Hp.
  assert (parseLines lineKey (reportContent now m n) = map fst m) as HK.
  { apply report_keys; [exact Hn | exact Hkeys |].
    intros k ps Hin. destruct (Hm k ps Hin) as [(t & -> & Ht & _ & Htr & _ & Htn) Hps].
    split; [now exists t|]. intros p Hin'. now destruct (Hps p Hin') as (_ & _ & _ & _ & ?). }
  assert (loadBrokenLinks settings v = (Some (map fst m), v)) as Hload.
  { unfold loadBrokenLinks.
    rewrite (loadWith_reads lineKey settings v f _ Hf) by now rewrite Hp.
    now rewrite HK. }
  destruct (cleanAllFiles_run settings (map fst m) v Hnd Hload) as (c & w' & E).
  { destruct m; [contradiction | discriminate]. }
  exists c. eexists. split; [exact E|].
  assert (loadBrokenLinks settings
            (mkVault (map (after_clean settings (map fst m) (read_fails v) (write_fails v))
                          (docs v))
                     (folders v) w' (read_fails v) (write_fails v))
          = (Some [],
             mkVault (map (after_clean settings (map fst m) (read_fails v) (write_fails v))
                          (docs v))
                     (folders v) w' (read_fails v) (write_fails v))) as Hload'.
  { unfold loadBrokenLinks.
    rewrite (loadWith_reads lineKey settings _ f
               (cleanBrokenWikilinks settings (reportContent now m n) (map fst m))).
    - rewrite report_cleaned_keys; auto.
      intros k ps Hin. apply set_has_in. apply in_map_iff. now exists (k, ps).
    - cbn [docs]. rewrite lookup_doc_after_clean, Hf.
      cbn [option_map]. unfold after_clean. cbn [fst snd].
      now rewrite Hp, Hrf, Hwf.
    - cbn [read_fails]. now rewrite Hp. }
  split; [exact Hload'|].
  unfold cleanAllFiles, bind. now rewrite Hload'.
Qed.

Lemma clean_consumes_report_witness :
  exists cleanedCount v',
    cleanAllFiles DEFAULT_SETTINGS
      (mkVault [(note "Home.md", str "see [[Foo]]");
                (note "broken links output.md",
                 reportContent a_date [(str "[[Foo]]", [str "Home.md"])] 1)]
               [] [] never never)
    = (Some (Some (cleanedCount, 2)), v')
    /\ loadBrokenLinks DEFAULT_SETTINGS v' = (Some [], v')
    /\ cleanAllFiles DEFAULT_SETTINGS v' = (Some None, v').
Proof.
  apply (clean_consumes_report DEFAULT_SETTINGS a_date
           [(str "[[Foo]]", [str "Home.md"])] 1
           (mkVault [(note "Home.md", str "see [[Foo]]");
                     (note "broken links output.md",
                      reportContent a_date [(str "[[Foo]]", [str "Home.md"])] 1)]
                    [] [] never never)
           (note "broken links output.md")).
  - repeat constructor; intros H; vm_compute in H; intuition discriminate.
  - reflexivity.
  - reflexivity.
  - reflexivity.
  - intros H; vm_compute in H; intuition discriminate.
  - intros H; vm_compute in H; intuition discriminate.
  - intros H; vm_compute in H; intuition discriminate.
  - discriminate.
  - repeat constructor; intros H; vm_compute in H; intuition discriminate.
  - intros k ps [E|[]]. injection E as <- <-. split.
    + exists (str "Foo"). split; [reflexivity|]. split; [discriminate|].
      repeat split; intros H; vm_compute in H; intuition discriminate.
    + intros p [<-|[]]. split; [discriminate|].
      repeat split; intros H; vm_compute in H; intuition discriminate.
Defined.

(** ** The keys of the scan *)

Lemma split_first_no_sep (sep : char) (s : jstring) : ~ In sep (split_first sep s).
Proof.
  unfold split_first. induction s as [|x s IH]; cbn [split_on]; [easy|].
  destruct (chr_eqb x sep) eqn:E; [easy|]. apply chr_eqb_neq in E.
  destruct (split_on sep s) as [|piece rest]; simpl in *.
  - intros [H|[]]. congruence.
  - intros [H|H]; [congruence | contradiction].
Qed.

Lemma drop_while_idem (p : char -> bool) (s : jstring) :
  drop_while p (drop_while p s) = drop_while p s.
Proof.
  induction s as [|c s IH]; simpl; [reflexivity|].
  destruct (p c) eqn:E; [exact IH|]. simpl. now rewrite E.
Qed.

(** Trimming a trimmed text changes nothing. *)
Lemma trim_idem (s : jstring) : trim (trim s) = trim s.
Proof.
  unfold trim at 1.
  assert (trim_start (trim s) = trim s) as ->.
  { unfold trim, trim_start.
    destruct (drop_while is_space s) as [|c x] eqn:E; [reflexivity|].
    pose proof (drop_while_head _ _ _ _ E) as Hc.
    rewrite trim_end_cons by exact Hc. simpl. now rewrite Hc. }
  unfold trim, trim_end. now rewrite rev_involutive, drop_while_idem.
Qed.

(** X21.  Every key of the map of the scan is [[[t]]] for a text [t] that
    has no []] and no [|] and no blank at either end: trimming [t] gives
    [t].  (It can be empty, and it can have a [[].) *)
Theorem scan_keys_normal (getFirstLinkpathDest : Resolver) (v : Vault) :
  NoDup (paths_of (docs v)) ->
  (forall d, In d (docs v) -> read_fails v (path (fst d)) = false) ->
  exists brokenLinksMap totalLinksChecked,
    scanFiles getFirstLinkpathDest (map fst (docs v)) v
    = (Some (brokenLinksMap, totalLinksChecked), v)
    /\ forall k ps,
         In (k, ps) brokenLinksMap ->
         exists t, k = bracket t /\ ~ In rbr t /\ ~ In pipe t /\ trim t = t.
Proof.
  intros Hnd Hread. rewrite (scanFiles_run _ v Hnd Hread).
  destruct (checkDocs_run getFirstLinkpathDest (existingFilesOf (map fst (docs v)))
              (docs v) ([], 0)) as (_ & Hi & Hl).
  match goal with
  | |- context [fold_left ?f (docs v) ([], 0)] =>
      destruct (fold_left f (docs v) ([], 0)) as [m n]
  end.
  cbn [fst snd] in *. exists m, n. split; [reflexivity|].
  assert (scan_inv m n) as (_ & Hne & _).
  { apply Hi. repeat split; [constructor | intros k ps [] | simpl; lia]. }
  intros k ps Hin. destruct ps as [|p ps]; [now apply Hne in Hin|].
  destruct (proj1 (Hl k p)) as [(ps' & [] & _)|(d & link & Hd & Hlk & _ & -> & _)].
  { exists (p :: ps). split; [exact Hin | now left]. }
  exists (scanLinkText link). split; [reflexivity|].
  split; [now apply (scanLinkText_no_rbr (snd d))|]. split.
  - unfold scanLinkText. intros H. apply trim_incl in H.
    now apply split_first_no_sep in H.
  - unfold scanLinkText. apply trim_idem.
Qed.

Lemma scan_keys_normal_witness :
  exists brokenLinksMap totalLinksChecked,
    scanFiles no_target (map fst (docs vault_two)) vault_two
    = (Some (brokenLinksMap, totalLinksChecked), vault_two)
    /\ forall k ps,
         In (k, ps) brokenLinksMap ->
         exists t, k = bracket t /\ ~ In rbr t /\ ~ In pipe t /\ trim t = t.
Proof.
  apply (scan_keys_normal no_target vault_two).
  - repeat constructor; intros H; vm_compute in H; intuition discriminate.
  - intros d Hd. reflexivity.
Defined.

(** ** Scan, clean, scan again *)

(** What holds of every link match of a text whose links do not nest holds
    of the body of every link of the text. *)
Lemma shaped_hits (P : jstring -> Prop) (Q : jstring -> Prop) (s : jstring) :
  shaped P s ->
  (forall m, In m (hits (segments linkRegex s)) -> Q (matched m)) ->
  shaped (fun body => P body /\ Q (bracket body)) s.
Proof.
  induction 1 as [|c s Hl _ IH|c s Hl _ IH|body s Hne Hb HP _ IH]; intros HQ.
  - constructor.
  - apply shaped_chr; [exact Hl|]. apply IH. intros m Hm. apply HQ.
    rewrite hits_gap; [exact Hm | exact I | now apply link_none_head].
  - apply shaped_lbr; [exact Hl|]. apply IH. intros m Hm. apply HQ.
    rewrite hits_gap; [| exact I | now apply link_none_second].
    rewrite hits_gap; [exact Hm | exact I | now apply link_none_head].
  - pose proof (hits_hit linkRegex _ (RMatch (bracket body) [body]) s I
                  (link_exec false body s Hne (plain_no_rbr body Hb))
                  (bracket_not_nil body)) as Eh.
    apply shaped_link; auto.
    + split; [exact HP|]. apply (HQ (RMatch (bracket body) [body])).
      rewrite Eh. now left.
    + apply IH. intros m Hm. apply HQ. rewrite Eh. now right.
Qed.

(** The links of a text whose links do not nest, as the scan sees them. *)
Lemma match_all_shaped (P : jstring -> Prop) (s link : jstring) :
  shaped P s -> In link (match_all linkRegex s) ->
  exists body, link = bracket body /\ P body.
Proof.
  intros Hs Hin. unfold match_all in Hin. apply in_map_iff in Hin as (m & <- & Hm).
  exact (hits_shaped P s Hs m Hm).
Qed.

(** The key the scan gives a link with a tidy body. *)
Lemma tidy_key (body : jstring) :
  body <> [] -> Forall (fun c => c <> lbr /\ c <> rbr) body -> tidy_target body ->
  scanLinkText (bracket body) <> []
  /\ plain_name (scanLinkText (bracket body))
  /\ ((~ In pipe body /\ scanLinkText (bracket body) = body)
      \/ exists a b,
           body = a ++ pipe :: b /\ a <> [] /\ ~ In pipe a /\ b <> []
           /\ scanLinkText (bracket body) = a).
Proof.
  intros Hne Hb [(Hp & Ht & Hn)|(a & b & -> & Ha & Hap & Ht & Hn & Hbne)].
  - destruct (scan_key_of_target body [] Hp) as [_ E]. rewrite E, Ht.
    split; [exact Hne|]. split; [|left; split; [exact Hp | reflexivity]].
    rewrite Forall_forall in Hb. repeat split; auto.
    + intros H. destruct (Hb lbr H) as [Hx _]. now apply Hx.
    + intros H. destruct (Hb rbr H) as [_ Hx]. now apply Hx.
  - destruct (scan_key_of_target a b Hap) as [E _]. rewrite E, Ht.
    split; [exact Ha|]. split; [|right; exists a, b; auto].
    apply Forall_app in Hb as [Hb _]. rewrite Forall_forall in Hb.
    repeat split; auto.
    + intros H. destruct (Hb lbr H) as [Hx _]. now apply Hx.
    + intros H. destruct (Hb rbr H) as [_ Hx]. now apply Hx.
Qed.

(** A link that is broken where more files are known and more links
    resolve is broken where fewer are. *)
Lemma broken_at_mono (res res2 : Resolver) (E1 E2 : JSSet) (file : TFile)
    (link : jstring) :
  (forall t p, res2 t p = None -> res t p = None) ->
  (forall x, set_has E1 x = true -> set_has E2 x = true) ->
  broken_at res2 E2 file link = true -> broken_at res E1 file link = true.
Proof.
  intros Hres HE. unfold broken_at.
  destruct (res2 (scanLinkText link) (path file)) eqn:E; [discriminate|].
  rewrite (Hres _ _ E). rewrite !andb_true_iff, !negb_true_iff.
  intros [H1 H2]. split.
  - destruct (set_has E1 (scanLinkText link)) eqn:E'; [|reflexivity].
    apply HE in E'. congruence.
  - destruct (set_has E1 (scanLinkText link ++ str ".md")) eqn:E'; [|reflexivity].
    apply HE in E'. congruence.
Qed.

Lemma existingFiles_mono (files1 files2 : list TFile) (x : jstring) :
  incl files1 files2 ->
  set_has (existingFilesOf files1) x = true -> set_has (existingFilesOf files2) x = true.
Proof.
  intros Hi. rewrite !set_has_in, !existingFiles_in.
  intros (f & Hf & H). exists f. auto.
Qed.

Lemma store_doc_paths (p data : jstring) (ds : list (TFile * jstring)) :
  map fst (store_doc p data ds) = map fst ds.
Proof.
  induction ds as [|[f c] ds IH]; simpl; [reflexivity|].
  destruct (jstring_eqb p (path f)); simpl; [reflexivity | now rewrite IH].
Qed.

Lemma store_doc_In (p data : jstring) (ds : list (TFile * jstring))
    (d : TFile * jstring) :
  In d (store_doc p data ds) -> In d ds \/ (snd d = data /\ path (fst d) = p).
Proof.
  induction ds as [|[f c] ds IH]; simpl; [auto|].
  destruct (jstring_eqb p (path f)) eqn:E; simpl.
  - intros [<-|H]; [|auto]. right. apply jstring_eqb_eq in E. auto.
  - intros [<-|H]; [auto|]. destruct (IH H); auto.
Qed.

Lemma lookup_none_paths (p : jstring) (ds : list (TFile * jstring)) :
  lookup_doc p ds = None -> ~ In p (paths_of ds).
Proof.
  induction ds as [|[f c] ds IH]; simpl; [auto|].
  destruct (jstring_eqb p (path f)) eqn:E; [discriminate|].
  apply jstring_eqb_neq in E. intros H [H'|H']; [congruence | now apply IH].
Qed.

Lemma paths_of_files (ds : list (TFile * jstring)) :
  paths_of ds = map path (map fst ds).
Proof. unfold paths_of. now rewrite map_map. Qed.

(** The documents after a report is saved: those that were there, the one
    at the path of the report with the report for content. *)
Lemma save_report_docs (p data : jstring) (v v' : Vault) :
  NoDup (paths_of (docs v)) ->
  bind (getAbstractFileByPath p)
       (fun existingFile =>
          match existingFile with
          | Some (AFile f) => vault_modify f data
          | _ => vault_create p data
          end) v
  = (Some tt, v') ->
  NoDup (paths_of (docs v'))
  /\ incl (map fst (docs v)) (map fst (docs v'))
  /\ (forall d, In d (docs v') -> In d (docs v) \/ snd d = data).
Proof.
  intros Hnd. unfold bind, getAbstractFileByPath, vault_modify, vault_create, throw.
  destruct (lookup_doc p (docs v)) as [[f c]|] eqn:El.
  - destruct (write_fails v (path f)); [discriminate|].
    rewrite (lookup_doc_path _ _ _ _ El), El.
    intros H. injection H as <-. cbn [docs]. split; [|split].
    + now rewrite paths_of_files, store_doc_paths, <- paths_of_files.
    + rewrite store_doc_paths. apply incl_refl.
    + intros d Hd. apply store_doc_In in Hd as [Hd|[Hd _]]; auto.
  - destruct (existsb (jstring_eqb p) (folders v)) eqn:Ef;
      (destruct (write_fails v p); [discriminate|]); rewrite El, ?Ef;
      [discriminate|].
    intros H. injection H as <-. cbn [docs]. split; [|split].
    + unfold paths_of. rewrite map_app. cbn [map fst file_of_path path].
      apply lookup_none_paths in El.
      apply NoDup_rev in Hnd. rewrite <- (rev_involutive (_ ++ [p])).
      apply NoDup_rev. rewrite rev_app_distr. simpl. constructor; [|exact Hnd].
      now rewrite <- in_rev.
    + rewrite map_app. now apply incl_appl, incl_refl.
    + intros d Hd. apply in_app_or in Hd as [Hd|[<-|[]]]; auto.
Qed.

Lemma shaped_body (P : jstring -> Prop) (s : jstring) :
  shaped P s ->
  shaped (fun body => P body /\ body <> []
                      /\ Forall (fun c => c <> lbr /\ c <> rbr) body) s.
Proof.
  induction 1; [constructor | now constructor | now constructor |].
  apply shaped_link; auto.
Qed.

(** The first scan of a vault of tidy links: its map is of plain names,
    its paths are paths of documents, and it has the key of every link it
    counts as broken. *)
Lemma tidy_scan (res : Resolver) (v : Vault) :
  NoDup (paths_of (docs v)) ->
  (forall d, In d (docs v) -> read_fails v (path (fst d)) = false) ->
  (forall d, In d (docs v) -> shaped tidy_target (snd d)) ->
  (forall d, In d (docs v) -> path (fst d) <> [] /\ plain_name (path (fst d))) ->
  exists m n,
    scanFiles res (map fst (docs v)) v = (Some (m, n), v)
    /\ NoDup (map fst m) /\ plain_report m
    /\ (forall k ps p, In (k, ps) m -> In p ps ->
                       exists d, In d (docs v) /\ p = path (fst d))
    /\ (forall d link,
           In d (docs v) -> In link (match_all linkRegex (snd d)) ->
           broken_at res (existingFilesOf (map fst (docs v))) (fst d) link = true ->
           set_has (map fst m) (bracket (scanLinkText link)) = true).
Proof.
  intros Hnd Hread Htidy Hpaths. rewrite (scanFiles_run res v Hnd Hread).
  destruct (checkDocs_run res (existingFilesOf (map fst (docs v)))
              (docs v) ([], 0)) as (_ & Hi & Hl).
  match goal with
  | |- context [fold_left ?f (docs v) ([], 0)] =>
      destruct (fold_left f (docs v) ([], 0)) as [m n]
  end.
  cbn [fst snd] in *. exists m, n. split; [reflexivity|].
  assert (scan_inv m n) as (Hkeys & Hne & _).
  { apply Hi. repeat split; [constructor | intros k ps [] | simpl; lia]. }
  assert (forall k ps p, In (k, ps) m -> In p ps ->
            exists d link,
              In d (docs v) /\ In link (match_all linkRegex (snd d))
              /\ k = bracket (scanLinkText link) /\ p = path (fst d)) as Hfrom.
  { intros k ps p Hin Hp.
    destruct (proj1 (Hl k p)) as [(ps' & [] & _)|(d & link & Hd & Hlk & _ & Hk & Hp')].
    - now exists ps.
    - now exists d, link. }
  split; [exact Hkeys|]. split; [|split].
  - intros k ps Hin. split.
    + destruct ps as [|p ps]; [now apply Hne in Hin|].
      destruct (Hfrom k (p :: ps) p Hin (or_introl eq_refl))
        as (d & link & Hd & Hlk & -> & _).
      destruct (match_all_shaped _ _ link (shaped_body _ _ (Htidy d Hd)) Hlk)
        as (body & -> & Ht & Hb & Hc).
      destruct (tidy_key body Hb Hc Ht) as (H1 & H2 & _).
      now exists (scanLinkText (bracket body)).
    + intros p Hp. destruct (Hfrom k ps p Hin Hp) as (d & _ & Hd & _ & _ & ->).
      now apply Hpaths.
  - intros k ps p Hin Hp. destruct (Hfrom k ps p Hin Hp) as (d & _ & Hd & _ & _ & ->).
    now exists d.
  - intros d link Hd Hlk Hb. apply set_has_in.
    destruct (proj2 (Hl (bracket (scanLinkText link)) (path (fst d))))
      as (ps & Hin & _).
    { right. now exists d, link. }
    apply in_map_iff. now exists (bracket (scanLinkText link), ps).
Qed.

Lemma shaped_report_with (P : jstring -> Prop) (m : JSMap) :
  plain_report m ->
  (forall k ps, In (k, ps) m ->
                (forall t, k = bracket t -> P t) /\ forall p, In p ps -> P p) ->
  shaped P (flat_map reportLine m).
Proof.
  intros Hm HP. induction m as [|[k ps] m IH]; [constructor|].
  destruct (Hm k ps (or_introl eq_refl)) as [(t & -> & Hne & Ht) Hps].
  destruct (HP _ _ (or_introl eq_refl)) as [HPt HPp].
  cbn [flat_map]. unfold reportLine at 1. cbn [fst snd]. rewrite <- !app_assoc.
  apply shaped_text; [apply plain_by_check; reflexivity|].
  apply shaped_link; auto; [now apply plain_name_chars|].
  apply shaped_text; [apply plain_by_check; reflexivity|].
  apply shaped_join.
  - intros p Hp. destruct (Hps p Hp). auto.
  - cbn [app]. apply shaped_chr; [discriminate|].
    apply IH.
    + intros k' ps' Hin. apply (Hm k' ps'). now right.
    + intros k' ps' Hin. apply (HP k' ps'). now right.
Qed.

(** The links left in the report when it is cleaned with its keys are
    links to the paths it lists. *)
Lemma report_cleaned_links (settings : BrokenLinksCleanerSettings)
    (now : jstring) (m : JSMap) (n : nat) (link : jstring) :
  ~ In lbr now -> ~ In rbr now -> plain_report m ->
  In link (match_all linkRegex
             (cleanBrokenWikilinks settings (reportContent now m n) (map fst m))) ->
  exists k ps p, In (k, ps) m /\ In p ps /\ link = bracket p.
Proof.
  intros Hl Hr Hm Hin. unfold cleanBrokenWikilinks in Hin.
  rewrite reportContent_header in Hin.
  rewrite aliasPass_settled in Hin.
  2:{ apply shaped_text; [now apply reportHeader_plain|].
      apply shaped_report; [exact Hm|].
      intros s (_ & _ & Hp & _). now apply alias_kept_plain. }
  assert (shaped (fun body => set_has (map fst m) (bracket body) = true
                              \/ exists k ps, In (k, ps) m /\ In body ps)
                 (reportHeader now (length m) n ++ flat_map reportLine m)) as Hs.
  { apply shaped_text; [now apply reportHeader_plain|].
    apply shaped_report_with; [exact Hm|].
    intros k ps Hk. split.
    - intros t ->. left. apply set_has_in, in_map_iff. now exists (bracket t, ps).
    - intros p Hp. right. now exists k, ps. }
  apply (plainPass_shaped (deleteText settings) (map fst m)) in Hs.
  destruct (match_all_shaped _ _ link Hs Hin) as (body & -> & [HK|(k & ps & Hk & Hp)] & Hkept).
  - unfold plain_kept in Hkept. congruence.
  - now exists k, ps, body.
Qed.

Lemma after_clean_no_faults (settings : BrokenLinksCleanerSettings) (K : JSSet)
    (rf wf : jstring -> bool) (d : TFile * jstring) :
  (forall p, rf p = false) -> (forall p, wf p = false) ->
  after_clean settings K rf wf d = (fst d, cleanBrokenWikilinks settings (snd d) K).
Proof. intros Hr Hw. unfold after_clean. now rewrite Hr, Hw. Qed.

Lemma after_clean_files (settings : BrokenLinksCleanerSettings) (K : JSSet)
    (rf wf : jstring -> bool) (ds : list (TFile * jstring)) :
  map fst (map (after_clean settings K rf wf) ds) = map fst ds.
Proof. rewrite map_map. now apply map_ext. Qed.

(** A scan that meets no broken link returns an empty map. *)
Lemma scan_nothing_broken (res : Resolver) (v : Vault) :
  NoDup (paths_of (docs v)) ->
  (forall d, In d (docs v) -> read_fails v (path (fst d)) = false) ->
  (forall d link,
      In d (docs v) -> In link (match_all linkRegex (snd d)) ->
      broken_at res (existingFilesOf (map fst (docs v))) (fst d) link = false) ->
  exists n, scanFiles res (map fst (docs v)) v = (Some ([], n), v).
Proof.
  intros Hnd Hread Hok. rewrite (scanFiles_run res v Hnd Hread).
  destruct (checkDocs_run res (existingFilesOf (map fst (docs v)))
              (docs v) ([], 0)) as (_ & Hi & Hl).
  match goal with
  | |- context [fold_left ?f (docs v) ([], 0)] =>
      destruct (fold_left f (docs v) ([], 0)) as [m n]
  end.
  cbn [fst snd] in *. exists n.
  destruct m as [|[k ps] m]; [reflexivity|]. exfalso.
  assert (scan_inv ((k, ps) :: m) n) as (_ & Hne & _).
  { apply Hi. repeat split; [constructor | intros k' ps' [] | simpl; lia]. }
  destruct ps as [|p ps]; [apply (Hne k []); [now left | reflexivity]|].
  destruct (proj1 (Hl k p)) as [(ps' & [] & _)|(d & link & Hd & Hlk & Hb & _)].
  { exists (p :: ps). split; now left. }
  rewrite (Hok d link Hd Hlk) in Hb. discriminate.
Qed.

(** X22.  Scan, clean, scan again.  In a vault without read or write
    failures where the links of every document do not nest and have tidy
    bodies (a target without blanks around it, alone or with a display text
    after a [|], neither empty, the target on one line) and where the paths
    are plain names without blanks around them: when the scan finds broken
    links, it saves its report; the whole-vault clean that follows ends
    normally; and a second scan, with a resolver that resolves at least
    what the first resolved, finds no broken link at all. *)
Theorem scan_clean_scan (settings : BrokenLinksCleanerSettings)
    (getFirstLinkpathDest getFirstLinkpathDest2 : Resolver) (now : jstring)
    (v : Vault) :
  NoDup (paths_of (docs v)) ->
  (forall p, read_fails v p = false) ->
  (forall p, write_fails v p = false) ->
  existsb (jstring_eqb (brokenLinksFile settings)) (folders v) = false ->
  (forall d, In d (docs v) -> shaped tidy_target (snd d)) ->
  (forall d, In d (docs v) ->
             path (fst d) <> [] /\ plain_name (path (fst d))
             /\ trim (path (fst d)) = path (fst d)) ->
  ~ In lbr now -> ~ In rbr now -> ~ In nl now ->
  (forall t p, getFirstLinkpathDest2 t p = None -> getFirstLinkpathDest t p = None) ->
  exists brokenLinksMap totalLinksChecked,
    scanFiles getFirstLinkpathDest (map fst (docs v)) v
    = (Some (brokenLinksMap, totalLinksChecked), v)
    /\ (brokenLinksMap <> [] ->
        exists v1 counts v2 totalLinksChecked2,
          scanAndGenerateBrokenLinks settings getFirstLinkpathDest now v = (Some tt, v1)
          /\ cleanAllFiles settings v1 = (Some (Some counts), v2)
          /\ scanFiles getFirstLinkpathDest2 (map fst (docs v2)) v2
             = (Some ([], totalLinksChecked2), v2)).
Proof.
  intros Hnd Hr Hw Hfo Htidy Hpaths Hnl Hnr Hnn Hres.
  destruct (tidy_scan getFirstLinkpathDest v Hnd (fun d _ => Hr _) Htidy)
    as (m & n & Hscan & Hkeys & Hplain & Hsrc & Hbroken).
  { intros d Hd. destruct (Hpaths d Hd) as (H1 & H2 & _). auto. }
  exists m, n. split; [exact Hscan|]. intros Hm.
  rewrite (scan_after_scanFiles settings _ now v m n Hscan).
  assert ((length m =? 0) = false) as ->.
  { destruct m; [contradiction | reflexivity]. }
  destruct (save_report (brokenLinksFile settings) (reportContent now m n) v
              (Hw _) (fun _ => Hfo)) as (v1 & E & (f & Hf) & _ & _).
  destruct (save_report_oracles _ _ _ _ E) as [Hrf1 Hwf1].
  destruct (save_report_docs _ _ _ _ Hnd E) as (Hnd1 & Hfiles1 & Hdocs1).
  assert (parseLines lineKey (reportContent now m n) = map fst m) as HK.
  { apply report_keys; [exact Hnn | exact Hkeys |].
    intros k ps Hin. destruct (Hplain k ps Hin) as [(t & -> & Ht & _ & Htr & _ & Htn) Hps].
    split; [now exists t|].
    intros p Hin'. now destruct (Hps p Hin') as (_ & _ & _ & _ & ?). }
  assert (loadBrokenLinks settings v1 = (Some (map fst m), v1)) as Hload.
  { unfold loadBrokenLinks.
    rewrite (loadWith_reads lineKey settings v1 f _ Hf) by (rewrite Hrf1; apply Hr).
    now rewrite HK. }
  destruct (cleanAllFiles_run settings (map fst m) v1 Hnd1 Hload) as (c & w' & Eclean).
  { destruct m; [contradiction | discriminate]. }
  exists v1, (c, length (docs v1)). eexists.
  assert (forall d,
             after_clean settings (map fst m) (read_fails v1) (write_fails v1) d
             = (fst d, cleanBrokenWikilinks settings (snd d) (map fst m))) as Hafter.
  { intros d. apply after_clean_no_faults; intros p; [rewrite Hrf1 | rewrite Hwf1]; auto. }
  assert (exists n2,
             scanFiles getFirstLinkpathDest2
               (map fst (docs (mkVault
                                 (map (after_clean settings (map fst m)
                                         (read_fails v1) (write_fails v1)) (docs v1))
                                 (folders v1) w' (read_fails v1) (write_fails v1))))
               (mkVault
                  (map (after_clean settings (map fst m)
                          (read_fails v1) (write_fails v1)) (docs v1))
                  (folders v1) w' (read_fails v1) (write_fails v1))
             = (Some ([], n2),
                mkVault
                  (map (after_clean settings (map fst m)
                          (read_fails v1) (write_fails v1)) (docs v1))
                  (folders v1) w' (read_fails v1) (write_fails v1))) as (n2 & Escan2).
  { apply scan_nothing_broken; cbn [docs read_fails].
    - now rewrite paths_of_files, after_clean_files, <- paths_of_files.
    - intros d _. rewrite Hrf1. apply Hr.
    - intros d2 link Hd2 Hlk. rewrite after_clean_files.
      apply in_map_iff in Hd2 as (d1 & <- & Hd1). rewrite Hafter in *.
      cbn [fst snd] in *.
      destruct (broken_at getFirstLinkpathDest2 (existingFilesOf (map fst (docs v1)))
                  (fst d1) link) eqn:Eb; [exfalso | reflexivity].
      destruct (Hdocs1 d1 Hd1) as [Hd|HR].
      + (* a document that was there at the first scan *)
        assert (shaped
                  (fun body =>
                     (tidy_target body /\ body <> []
                      /\ Forall (fun c => c <> lbr /\ c <> rbr) body)
                     /\ (broken_at getFirstLinkpathDest
                           (existingFilesOf (map fst (docs v))) (fst d1)
                           (bracket body) = true ->
                         set_has (map fst m) (bracket (scanLinkText (bracket body)))
                         = true))
                  (snd d1)) as Hs.
        { apply (shaped_hits _
                   (fun l => broken_at getFirstLinkpathDest
                               (existingFilesOf (map fst (docs v))) (fst d1) l = true ->
                             set_has (map fst m) (bracket (scanLinkText l)) = true)).
          - apply shaped_body. now apply Htidy.
          - intros mt Hmt. apply (Hbroken d1 (matched mt) Hd).
            unfold match_all. now apply in_map. }
        apply (aliasPass_shaped (deleteText settings) (map fst m)) in Hs.
        apply (plainPass_shaped (deleteText settings) (map fst m)) in Hs.
        destruct (match_all_shaped _ _ link Hs Hlk)
          as (body & -> & (((Ht & Hb & Hc) & HQ) & Hak) & Hpk).
        apply (broken_at_mono getFirstLinkpathDest getFirstLinkpathDest2
                 (existingFilesOf (map fst (docs v)))) in Eb;
          [| exact Hres | intros x; now apply existingFiles_mono].
        apply HQ in Eb.
        destruct (tidy_key body Hb Hc Ht)
          as (_ & _ & [[_ Ek]|(a & b & -> & Ha & Hap & Hbn & Ek)]);
          rewrite Ek in Eb.
        * unfold plain_kept in Hpk. congruence.
        * rewrite (Hak a b eq_refl Ha Hap Hbn) in Eb. discriminate.
      + (* the report *)
        rewrite HR in Hlk.
        apply report_cleaned_links in Hlk as (k & ps & p & Hk & Hp & ->); auto.
        destruct (Hsrc k ps p Hk Hp) as (d0 & Hd0 & ->).
        destruct (Hpaths d0 Hd0) as (_ & (_ & _ & Hpp & _) & Htr).
        unfold broken_at in Eb.
        destruct (scan_key_of_target (path (fst d0)) [] Hpp) as [_ Ekey].
        rewrite Ekey, Htr in Eb.
        assert (set_has (existingFilesOf (map fst (docs v1))) (path (fst d0)) = true)
          as Hex.
        { apply set_has_in, existingFiles_in. exists (fst d0). split; [|auto].
          apply Hfiles1. now apply in_map. }
        rewrite Hex in Eb.
        now destruct (getFirstLinkpathDest2 (path (fst d0)) (path (fst d1))). }
  exists n2. split; [exact E|]. split; [exact Eclean | exact Escan2].
Qed.

Lemma scan_clean_scan_witness :
  exists brokenLinksMap totalLinksChecked,
    scanFiles no_target (map fst (docs vault_tidy)) vault_tidy
    = (Some (brokenLinksMap, totalLinksChecked), vault_tidy)
    /\ (brokenLinksMap <> [] ->
        exists v1 counts v2 totalLinksChecked2,
          scanAndGenerateBrokenLinks DEFAULT_SETTINGS no_target a_date vault_tidy
          = (Some tt, v1)
          /\ cleanAllFiles DEFAULT_SETTINGS v1 = (Some (Some counts), v2)
          /\ scanFiles no_target (map fst (docs v2)) v2
             = (Some ([], totalLinksChecked2), v2)).
Proof.
  assert (forall t : string,
             ~ In pipe (str t) -> trim (str t) = str t -> ~ In nl (str t) ->
             tidy_target (str t)) as Hplain.
  { intros t H1 H2 H3. left. auto. }
  apply (scan_clean_scan DEFAULT_SETTINGS no_target no_target a_date vault_tidy).
  - repeat constructor; intros H; vm_compute in H; intuition discriminate.
  - reflexivity.
  - reflexivity.
  - reflexivity.
  - intros d [<-|[<-|[]]]; cbn [snd].
    + change (str "[[Foo]] and [[Foo|f]] and [[b]]")
        with (bracket (str "Foo") ++ str " and "
              ++ bracket (str "Foo" ++ pipe :: str "f") ++ str " and "
              ++ bracket (str "b") ++ []).
      apply shaped_link; [discriminate | repeat constructor; discriminate | |].
      { apply Hplain; [| reflexivity |]; intros H; vm_compute in H; intuition discriminate. }
      apply shaped_text; [repeat constructor; discriminate|].
      apply shaped_link; [discriminate | repeat constructor; discriminate | |].
      { right. exists (str "Foo"), (str "f").
        split; [reflexivity|]. split; [discriminate|].
        split; [intros H; vm_compute in H; intuition discriminate|].
        split; [reflexivity|].
        split; [intros H; vm_compute in H; intuition discriminate | discriminate]. }
      apply shaped_text; [repeat constructor; discriminate|].
      apply shaped_link; [discriminate | repeat constructor; discriminate | |].
      { apply Hplain; [| reflexivity |]; intros H; vm_compute in H; intuition discriminate. }
      apply shaped_nil.
    + change (str "see [[Bar]]") with (str "see " ++ bracket (str "Bar") ++ []).
      apply shaped_text; [repeat constructor; discriminate|].
      apply shaped_link; [discriminate | repeat constructor; discriminate | |].
      { apply Hplain; [| reflexivity |]; intros H; vm_compute in H; intuition discriminate. }
      apply shaped_nil.
  - intros d [<-|[<-|[]]]; (split; [discriminate|]); (split; [|reflexivity]);
      repeat split; intros H; vm_compute in H; intuition discriminate.
  - intros H; vm_compute in H; intuition discriminate.
  - intros H; vm_compute in H; intuition discriminate.
  - intros H; vm_compute in H; intuition discriminate.
  - auto.
Defined.

(** ** The saved list of orphans links to them *)

Lemma hits_app (P : jstring -> Prop) (pre s : jstring) :
  shaped P pre ->
  hits (segments linkRegex (pre ++ s))
  = hits (segments linkRegex pre) ++ hits (segments linkRegex s).
Proof.
  induction 1 as [|c pre Hl _ IH|c pre Hl _ IH|body pre Hne Hb HP _ IH].
  - rewrite (hits_nil linkRegex I link_exec_nil). reflexivity.
  - rewrite <- app_comm_cons.
    rewrite !(hits_gap linkRegex c) by (exact I || now apply link_none_head).
    exact IH.
  - rewrite <- !app_comm_cons.
    rewrite !(hits_gap linkRegex lbr) by (exact I || now apply link_none_second).
    rewrite !(hits_gap linkRegex c) by (exact I || now apply link_none_head).
    exact IH.
  - rewrite <- app_assoc.
    rewrite (hits_hit linkRegex _ (RMatch (bracket body) [body]) (pre ++ s) I
               (link_exec false body (pre ++ s) Hne (plain_no_rbr body Hb))
               (bracket_not_nil body)).
    rewrite (hits_hit linkRegex _ (RMatch (bracket body) [body]) pre I
               (link_exec false body pre Hne (plain_no_rbr body Hb))
               (bracket_not_nil body)).
    now rewrite IH.
Qed.

(** A link after a text whose links do not nest is one of the links the
    pattern finds. *)
Lemma match_all_after (P : jstring -> Prop) (pre body post : jstring) :
  shaped P pre -> body <> [] -> ~ In rbr body ->
  In (bracket body) (match_all linkRegex (pre ++ bracket body ++ post)).
Proof.
  intros Hpre Hne Hb. unfold match_all. rewrite (hits_app P pre _ Hpre).
  rewrite (hits_hit linkRegex _ (RMatch (bracket body) [body]) post I
             (link_exec false body post Hne (proj1 (no_rbr_Forall body) Hb))
             (bracket_not_nil body)).
  rewrite map_app. apply in_or_app. right. now left.
Qed.

Lemma join_cons (sep p q : jstring) (rest : list jstring) :
  join sep (p :: q :: rest) = p ++ sep ++ join sep (q :: rest).
Proof. reflexivity. Qed.

Lemma simple_plain (t : jstring) :
  Forall (fun c => c <> lbr /\ c <> rbr) t -> simple_text t.
Proof.
  intros H. rewrite <- (app_nil_r t). apply shaped_text; [exact H | constructor].
Qed.

Lemma shaped_fileLine (f : TFile) (s : jstring) :
  basename f <> [] -> ~ In lbr (basename f) -> ~ In rbr (basename f) ->
  ~ In lbr (path f) -> ~ In rbr (path f) ->
  simple_text s -> simple_text (fileLine f ++ s).
Proof.
  intros Hne H1 H2 H3 H4 Hs. unfold fileLine, simple_text. rewrite <- !app_assoc.
  apply shaped_text; [apply plain_by_check; reflexivity|].
  apply shaped_link; [exact Hne | now apply plain_chars | exact I |].
  apply shaped_text; [apply plain_by_check; reflexivity|].
  apply shaped_text; [now apply plain_chars|].
  apply shaped_text; [apply plain_by_check; reflexivity | exact Hs].
Qed.

(** The list of the saved file has the link of each of its files, after a
    text whose links do not nest. *)
Lemma fileLines_link (files : list TFile) (f : TFile) :
  (forall g, In g files ->
             basename g <> [] /\ ~ In lbr (basename g) /\ ~ In rbr (basename g)
             /\ ~ In lbr (path g) /\ ~ In rbr (path g)) ->
  In f files ->
  exists pre post,
    join [nl] (map fileLine files) = pre ++ bracket (basename f) ++ post
    /\ simple_text pre.
Proof.
  induction files as [|g files IH]; intros Hall Hin; [destruct Hin|].
  destruct Hin as [->|Hin].
  - exists (str "- ").
    assert (simple_text (str "- ")) as Hdash.
    { apply simple_plain, plain_by_check. reflexivity. }
    destruct files as [|h files]; cbn [map].
    + exists (str " (" ++ path f ++ str ")"). split; [reflexivity | exact Hdash].
    + exists (str " (" ++ path f ++ str ")" ++ [nl]
              ++ join [nl] (fileLine h :: map fileLine files)).
      split; [|exact Hdash].
      rewrite join_cons. unfold fileLine at 1. now rewrite <- !app_assoc.
  - destruct IH as (pre & post & E & Hpre);
      [intros h Hh; apply Hall; now right | exact Hin |].
    destruct (Hall g (or_introl eq_refl)) as (Hne & H1 & H2 & H3 & H4).
    destruct files as [|h files]; [destruct Hin|].
    cbn [map] in *. rewrite join_cons, E.
    exists (fileLine g ++ [nl] ++ pre), post. split; [now rewrite <- !app_assoc|].
    apply shaped_fileLine; auto. cbn [app]. apply shaped_chr; [discriminate|].
    exact Hpre.
Qed.

Lemma lookup_doc_In (p : jstring) (ds : list (TFile * jstring)) (f : TFile) (c : jstring) :
  lookup_doc p ds = Some (f, c) -> In (f, c) ds.
Proof.
  induction ds as [|[g c'] ds IH]; simpl; [discriminate|].
  destruct (jstring_eqb p (path g)); [|auto].
  intros H. injection H as -> ->. now left.
Qed.

(** X23.  The saved list of orphans links to every file it lists, so the
    files are orphans no more.  Where every document can be read, the names
    and paths of the files listed have no bracket and the names no [|], and
    the resolver finds each listed file from its basename: after the list is
    saved, the next run of the orphan analyser returns none of the files of
    the list. *)
Theorem saved_orphans_are_linked (files : list TFile) (now iso : jstring)
    (getFirstLinkpathDest : Resolver) (v : Vault) (fileName : jstring) :
  fileName = str "Orphan files report " ++ isoDate iso ++ str ".md" ->
  NoDup (paths_of (docs v)) ->
  (forall p, read_fails v p = false) ->
  write_fails v fileName = false ->
  (lookup_doc fileName (docs v) = None ->
   existsb (jstring_eqb fileName) (folders v) = false) ->
  ~ In lbr now -> ~ In rbr now ->
  (forall g, In g files ->
             basename g <> [] /\ ~ In lbr (basename g) /\ ~ In rbr (basename g)
             /\ ~ In lbr (path g) /\ ~ In rbr (path g)) ->
  (forall g, In g files ->
             ~ In pipe (basename g)
             /\ exists targetFile,
                  getFirstLinkpathDest (basename g) fileName = Some targetFile
                  /\ path targetFile = path g) ->
  exists v' orphanFiles,
    OrphanFilesModal_saveToFile files now iso v = (Some fileName, v')
    /\ findOrphanFiles getFirstLinkpathDest v' = (Some orphanFiles, v')
    /\ forall g, In g files -> ~ In g orphanFiles.
Proof.
  intros -> Hnd Hr Hw Hfo Hnl Hnr Hplain Hres.
  destruct (save_report _ (orphanReportContent now files) v Hw Hfo)
    as (v' & E & (rf & Hl) & _ & _).
  destruct (save_report_oracles _ _ _ _ E) as [Hrf _].
  destruct (save_report_docs _ _ _ _ Hnd E) as (Hnd' & _ & _).
  exists v'. eexists. split; [|split].
  - unfold OrphanFilesModal_saveToFile. cbv zeta. rewrite <- bind_assoc.
    unfold bind at 1. rewrite E. reflexivity.
  - apply orphans_are_never_targets; [exact Hnd'|].
    intros d _. rewrite Hrf. apply Hr.
  - intros g Hg Hin. apply filter_In in Hin as [_ Hin].
    apply negb_true_iff in Hin.
    assert (is_target getFirstLinkpathDest (docs v') (path g) = true) as Ht;
      [|congruence].
    apply is_target_iff.
    destruct (Hres g Hg) as (Hp & t & Et & Ept).
    destruct (fileLines_link files g Hplain Hg) as (pre & post & Ej & Hpre).
    destruct (Hplain g Hg) as (Hne & H1 & H2 & _).
    exists (rf, orphanReportContent now files), (bracket (basename g)), t.
    split; [now apply (lookup_doc_In _ _ _ _ Hl)|]. cbn [fst snd].
    split; [|split; [|exact Ept]].
    + assert (exists hdr,
                 orphanReportContent now files = hdr ++ join [nl] (map fileLine files)
                 /\ Forall (fun c => c <> lbr /\ c <> rbr) hdr) as (hdr & -> & Hhdr).
      { exists (str "# Orphan files report" ++ [nl; nl]
                ++ str "Generated: " ++ now ++ [nl]
                ++ str "Total: " ++ show_nat (length files) ++ str " files" ++ [nl; nl]
                ++ str "## Files with no incoming links:" ++ [nl; nl]).
        split; [unfold orphanReportContent; now rewrite <- !app_assoc|].
        repeat (apply Forall_app; split);
          first [ apply plain_by_check; reflexivity
                | now apply plain_chars
                | apply uint_chars_plain ]. }
      rewrite Ej, app_assoc.
      apply (match_all_after (fun _ => True)); [|exact Hne | exact H2].
      apply shaped_text; [exact Hhdr | exact Hpre].
    + rewrite slice_bracket, split_first_no_pipe by exact Hp.
      rewrite (lookup_doc_path _ _ _ _ Hl). exact Et.
Qed.

Lemma saved_orphans_are_linked_witness :
  exists v' orphanFiles,
    OrphanFilesModal_saveToFile [note "C.md"] a_date (str "2026-11-03T10:00:00.000Z")
      vault_self
    = (Some (str "Orphan files report 2026-11-03.md"), v')
    /\ findOrphanFiles resolve_AC v' = (Some orphanFiles, v')
    /\ forall g, In g [note "C.md"] -> ~ In g orphanFiles.
Proof.
  apply (saved_orphans_are_linked [note "C.md"] a_date (str "2026-11-03T10:00:00.000Z")
           resolve_AC vault_self (str "Orphan files report 2026-11-03.md")).
  - reflexivity.
  - repeat constructor; intros H; vm_compute in H; intuition discriminate.
  - reflexivity.
  - reflexivity.
  - reflexivity.
  - intros H; vm_compute in H; intuition discriminate.
  - intros H; vm_compute in H; intuition discriminate.
  - intros g [<-|[]]. split; [discriminate|].
    repeat split; intros H; vm_compute in H; intuition discriminate.
  - intros g [<-|[]]. split.
    + intros H; vm_compute in H; intuition discriminate.
    + exists (note "C.md"). split; reflexivity.
Defined.
